(** * modhunt: the module-index synchronisation engine

    A shallow embedding of the two copies of the engine that mirror the
    Go module index into a local SQLite store:

    - [modindex.SynchronizeDatabase] (src/modindex/db.go), the refactored
      engine with its helpers [printProgress], [insertVersions] and
      [lastVersionInfo];
    - the [index update] command (src/cmd/modhunt/internal/indexcmd/indexcmd.go,
      the same loop as [indexCommand] of the older main packages), where the
      whole loop is written inline.

    The SQLite store is modelled by its two tables and the constraints that
    [setup] declares; the index server and the clock are inputs.

    Beside the engines, the two commands of src/cmd/modhunt/main.go that
    walk the table [paths] in batches are embedded: [lookup-mods]
    ([lookupAllPaths], [lookupBatch]) and [normalize-index]
    ([processAllRecords], [processBatch], [normalizeModuleName]), with
    [modname.Canonicalize] (src/modname/modname.go). *)

From Stdlib Require Import ZArith Lia Bool String Ascii OrderedTypeEx.
From stdpp Require Import gmap strings list fin_maps sorting pretty.

Local Open Scope Z_scope.

(** ** 64-bit integers *)

Definition minInt64 : Z := - 2 ^ 63.
Definition maxInt64 : Z := 2 ^ 63 - 1.

(** Two's complement wrap-around of [int64] arithmetic. *)
Definition wrap64 (z : Z) : Z := (z + 2 ^ 63) mod 2 ^ 64 - 2 ^ 63.

(** ** Package time

    A [time.Time] is a struct of the instant it denotes and a pointer to
    its [Location]. The instant is modelled by the seconds elapsed since
    January 1, year 1, 00:00:00 UTC and the nanoseconds within that second:
    the values the engine compares are decoded from the feed's JSON or parsed
    from the store, so they carry no monotonic clock reading. The operator
    [==] on two such values, which both engines use on the cursor, is
    equality of the struct: the same instant and the same pointer. The
    methods [IsZero], [Before] and [Sub] look at the instant alone. *)

Module time.

(** A [*time.Location], as far as the engine can tell one from another: the
    nil pointer, which stands for UTC and is what a timestamp that ends in
    [Z] gets, or the address of a Location, with the offset in seconds east
    of UTC that it gives at the instant of the value. *)
Inductive Location : Type :=
| UTC
| Zone (ptr : positive) (offset : Z).

#[global] Instance Location_eq_dec : EqDecision Location.
Proof. solve_decision. Defined.

Definition offsetOf (l : Location) : Z :=
  match l with
  | UTC => 0
  | Zone _ offset => offset
  end.

Record Time : Type := mkTime { sec : Z; nsec : Z; loc : Location }.

#[global] Instance Time_eq_dec : EqDecision Time.
Proof. solve_decision. Defined.

(** The zero value of [time.Time]. *)
Definition zero : Time := mkTime 0 0 UTC.

(** [t.IsZero()] *)
Definition IsZero (t : Time) : bool :=
  bool_decide (sec t = 0) && bool_decide (nsec t = 0).

(** [t.Before(u)] and the order it induces. *)
Definition Before (t u : Time) : bool :=
  (sec t <? sec u) || (bool_decide (sec t = sec u) && (nsec t <? nsec u)).

Definition le (t u : Time) : Prop :=
  sec t < sec u \/ (sec t = sec u /\ nsec t <= nsec u).

(** A [time.Duration] is an [int64] count of nanoseconds. *)
Definition Second : Z := 1000000000.
Definition Hour : Z := 3600 * Second.

(** [t.Sub(u)]: the difference, saturated at the bounds of [Duration]. *)
Definition Sub (t u : Time) : Z :=
  let d := (sec t - sec u) * Second + (nsec t - nsec u) in
  if d <? minInt64 then minInt64
  else if maxInt64 <? d then maxInt64
  else d.

(** What the engine takes from the standard library without the repository
    defining it: the RFC3339Nano layout, in both directions, and
    [int64(d.Hours())], whose value goes through a [float64]. *)
Class Lib : Type := {
  Format : Time -> string;          (* t.Format(time.RFC3339Nano) *)
  Parse : string -> option Time;    (* time.Parse(time.RFC3339Nano, s) *)
  Hours : Z -> Z                    (* int64(d.Hours()) *)
}.

End time.

Import time.

(** ** Package index (the feed client's record type) *)

Module index.

Record VersionInfo : Type := mkVersionInfo {
  Path : string;
  Version : string;
  Timestamp : Time
}.

#[global] Instance VersionInfo_eq_dec : EqDecision VersionInfo.
Proof. solve_decision. Defined.

(** The zero value, [var last index.VersionInfo]. *)
Definition zeroInfo : VersionInfo := mkVersionInfo "" "" zero.

Definition DebugString `{Lib} (v : VersionInfo) : string :=
  Path v +:+ "@" +:+ Version v +:+ "@" +:+ Format (Timestamp v).

End index.

Import index.

(** The comparison both engines make between the first fetched record and
    the cursor: [==] on the three fields. On the field [Timestamp] it is
    [==] of [time.Time], which holds when the instants and the Location
    pointers are the same. *)
Definition sameRecord (v last : VersionInfo) : bool :=
  bool_decide (Timestamp v = Timestamp last)
  && bool_decide (Path v = Path last)
  && bool_decide (Version v = Version last).

(** ** The store

    [paths(id INTEGER PRIMARY KEY ASC, path TEXT NOT NULL UNIQUE)] is a list
    of rows; [versions(path_id REFERENCES paths(id), version, timestamp,
    PRIMARY KEY(path_id, version))] is a finite map from its key to the
    timestamp text. *)

Module sqlite.

Record DB : Type := mkDB {
  paths : list (Z * string);
  versions : gmap (Z * string) string
}.

Definition empty : DB := mkDB [] ∅.

Inductive error : Type :=
| ErrGetVersions
| ErrInsertPath
| ErrInsertVersion
| ErrParseTimestamp.

#[global] Instance error_eq_dec : EqDecision error.
Proof. solve_decision. Defined.

(** [SELECT id FROM paths WHERE path = ?] *)
Definition selectPathID (d : DB) (path : string) : option Z :=
  fst <$> find (fun r => bool_decide (r.2 = path)) (paths d).

(** The join's side of [paths]: the path of an id. *)
Definition selectPath (d : DB) (id : Z) : option string :=
  snd <$> find (fun r => bool_decide (r.1 = id)) (paths d).

(** The rowid SQLite gives a new row: one more than the largest in use. *)
Definition nextID (d : DB) : Z :=
  match fst <$> paths d with
  | [] => 1
  | id :: ids => 1 + foldr Z.max id ids
  end.

(** [INSERT INTO paths (path) VALUES (?)], with [LastInsertId]. *)
Definition insertPath (d : DB) (path : string) : option (DB * Z) :=
  match selectPathID d path with
  | Some _ => None                              (* UNIQUE(path) *)
  | None =>
      let id := nextID d in
      Some (mkDB (paths d ++ [(id, path)]) (versions d), id)
  end.

(** [INSERT INTO versions (path_id, version, timestamp) VALUES (?, ?, ?)] *)
Definition insertVersion (d : DB) (id : Z) (version ts : string) : option DB :=
  match selectPath d id with
  | None => None                                (* REFERENCES paths(id) *)
  | Some _ =>
      match versions d !! (id, version) with
      | Some _ => None                          (* PRIMARY KEY(path_id, version) *)
      | None => Some (mkDB (paths d) (<[(id, version) := ts]> (versions d)))
      end
  end.

(** [INSERT OR REPLACE INTO versions ...] *)
Definition insertOrReplaceVersion (d : DB) (id : Z) (version ts : string) : option DB :=
  match selectPath d id with
  | None => None                                (* REFERENCES paths(id) *)
  | Some _ => Some (mkDB (paths d) (<[(id, version) := ts]> (versions d)))
  end.

(** The rows of [versions AS v JOIN paths AS p ON p.id = v.path_id]. *)
Definition joined (d : DB) : list (string * string * string) :=
  omap (fun r => match selectPath d r.1.1 with
                 | Some p => Some (p, r.1.2, r.2)
                 | None => None
                 end)
       (map_to_list (versions d)).

(** [ORDER BY v.timestamp DESC LIMIT 1]: a row whose timestamp text is
    largest in the byte order of TEXT. Which row it is among rows of equal
    text SQL leaves open; here it is the last of them in the listing. *)
Fixpoint maxRow (rows : list (string * string * string))
  : option (string * string * string) :=
  match rows with
  | [] => None
  | r :: rest =>
      match maxRow rest with
      | None => Some r
      | Some m => if String.ltb m.2 r.2 then Some r else Some m
      end
  end.

(** The path id a record is written under: the row of its path is looked
    up and, when there is none, inserted (db.go, lines 151-166). *)
Definition resolvePath (tx : DB) (path : string) : option (DB * Z) :=
  match selectPathID tx path with
  | Some pathID => Some (tx, pathID)
  | None => insertPath tx path
  end.

(** A connection: the committed store and the working copy of the
    transaction that is open, if one is. *)
Record Conn : Type := mkConn {
  committed : DB;
  pending : option DB
}.

Definition Open (d : DB) : Conn := mkConn d None.

(** [db.Close()]: what an open transaction wrote is lost. *)
Definition Close (c : Conn) : DB := committed c.

End sqlite.

Import sqlite.

(** The row of the store that holds a record. *)
Definition stored `{Lib} (d : DB) (v : VersionInfo) : Prop :=
  exists id, selectPathID d (Path v) = Some id
             /\ versions d !! (id, Version v) = Some (Format (Timestamp v)).

(** The (path, version) pair of a record is taken in the store. *)
Definition keyTaken (d : DB) (v : VersionInfo) : Prop :=
  exists id, selectPathID d (Path v) = Some id
             /\ is_Some (versions d !! (id, Version v)).

(** ** The environment of a run and what a run emits *)

(** The index server and the clock are inputs: [GetVersions n since limit]
    is what the [n]-th call of [client.GetVersions] returns ([None] for an
    error), [Now n] is [time.Now()] at the top of iteration [n]. *)
Record World : Type := mkWorld {
  Now : nat -> Time;
  GetVersions : nat -> Time -> Z -> option (list VersionInfo)
}.

(** The rows of the progress table; [Remaining] is absent when the ETA lines
    are not printed. *)
Record Report : Type := mkReport {
  Duration : Z;
  Target : Time;
  Current : Time;
  HoursDone : Z;
  HoursOpen : Z;
  Remaining : option Z
}.

Inductive Event : Type :=
| EvProgress (r : Report)              (* the table on stdout *)
| EvFetch (since : Time) (limit : Z)   (* a call of client.GetVersions *)
| EvStderr (msg : string)              (* a line on stderr *)
| EvInsert (vs : list VersionInfo)     (* the records written in one transaction *)
| EvStdout (msg : string).

Inductive Exit : Type :=
| Done                     (* return nil *)
| Failed (e : error)       (* return fmt.Errorf(...) *)
| Panicked                 (* runtime error: index out of range *)
| Running.                 (* the loop has not ended yet *)

Record State : Type := mkState {
  conn : Conn;
  last : VersionInfo;
  covered : Z
}.

Inductive Step : Type :=
| Continue (st : State)
| Stop (e : Exit) (c : Conn).

Record Run : Type := mkRun {
  events : list Event;
  exit : Exit;
  store : DB
}.

(** The end of a call: the deferred [db.Close()], and what the caller sees. *)
Definition finish (r : list Event * Step) : Run :=
  match r with
  | (evs, Continue st) => mkRun evs Running (Close (conn st))
  | (evs, Stop e c) => mkRun evs e (Close c)
  end.

Definition nl : string := String (ascii_of_nat 10) EmptyString.

Definition bugLine `{Lib} (last v : VersionInfo) : string :=
  "BUG: index: expected list to start with " +:+ DebugString last
  +:+ " but got " +:+ DebugString v +:+ nl.

Definition upToDate : string := "Index is up-to-date" +:+ nl.

(** ** Package modindex (src/modindex/db.go) *)

Module modindex.
Section WithLib.
Context `{Lib}.

(** [printProgress], with [time.Now()] passed in as [now]. The table is
    printed when the cursor is set; the ETA lines when [coveredHours > 0].
    Writing to stdout is taken to succeed. *)
Definition printProgress (last : VersionInfo) (start : Time) (covered : Z)
    (now : Time) : option Report :=
  if negb (IsZero (Timestamp last)) then
    let target := now in
    let duration := Sub target start in
    let coveredHours := Hours covered in
    let openHours := Hours (Sub target (Timestamp last)) in
    Some (mkReport duration target (Timestamp last) coveredHours openHours
            (if 0 <? coveredHours
             then Some (Z.quot (wrap64 (openHours * duration)) coveredHours)
             else None))
  else None.

(** The rows one transaction writes: for each record the path id is
    resolved, then the version row is inserted. The working copy is
    returned with the error, if there is one. *)
Fixpoint insertRows (tx : DB) (versions : list VersionInfo) : DB * option error :=
  match versions with
  | [] => (tx, None)
  | v :: rest =>
      match resolvePath tx (Path v) with
      | None => (tx, Some ErrInsertPath)
      | Some (tx1, pathID) =>
          match insertVersion tx1 pathID (Version v) (Format (Timestamp v)) with
          | None => (tx1, Some ErrInsertVersion)
          | Some tx2 => insertRows tx2 rest
          end
      end
  end.

(** [insertVersions]: begin, write every row, commit. On an error the
    function returns with the transaction still open. *)
Definition insertVersions (c : Conn) (versions : list VersionInfo)
  : Conn * option error :=
  match insertRows (committed c) versions with
  | (tx, Some e) => (mkConn (committed c) (Some tx), Some e)
  | (tx, None) => (mkConn tx None, None)
  end.

(** [lastVersionInfo] *)
Definition lastVersionInfo (d : DB) : VersionInfo * option error :=
  match maxRow (joined d) with
  | None => (zeroInfo, None)                               (* sql.ErrNoRows *)
  | Some (path, version, timestamp) =>
      match Parse timestamp with
      | None => (mkVersionInfo path version zero, Some ErrParseTimestamp)
      | Some t => (mkVersionInfo path version t, None)
      end
  end.

(** The value of [versionsToInsert] after lines 62-77, with what the
    branch writes to stderr; [None] when [versions[0]] is evaluated on an
    empty slice. *)
Definition versionsToInsert (last : VersionInfo) (versions : list VersionInfo)
  : option (list VersionInfo * list Event) :=
  if IsZero (Timestamp last) then Some (versions, [])
  else
    match versions with
    | v0 :: _ =>
        if sameRecord v0 last
        then Some (drop 1 versions, [])
        else Some (versions, [EvStderr (bugLine last v0)])
    | [] => None
    end.

(** The time span a batch adds to [covered] (lines 95-99). *)
Definition coveredAfter (last : VersionInfo) (covered : Z)
    (first final : VersionInfo) : Z :=
  if IsZero (Timestamp last)
  then Sub (Timestamp final) (Timestamp first)
  else wrap64 (covered + Sub (Timestamp final) (Timestamp last)).

(** One pass through the body of the [for] loop. *)
Definition iteration (w : World) (start : Time) (n : nat) (st : State)
  : list Event * Step :=
  let progress :=
    match printProgress (last st) start (covered st) (Now w n) with
    | Some r => [EvProgress r]
    | None => []
    end in
  let fetch := EvFetch (Timestamp (last st)) 2000 in
  match GetVersions w n (Timestamp (last st)) 2000 with
  | None => (progress ++ [fetch], Stop (Failed ErrGetVersions) (conn st))
  | Some versions =>
      match versionsToInsert (last st) versions with
      | None => (progress ++ [fetch], Stop Panicked (conn st))
      | Some (toInsert, bug) =>
          match toInsert with
          | [] =>
              (progress ++ [fetch] ++ bug ++ [EvStdout upToDate],
               Stop Done (conn st))
          | first :: _ =>
              let final := default first (list.last toInsert) in
              match insertVersions (conn st) toInsert with
              | (c, Some e) =>
                  (progress ++ [fetch] ++ bug ++ [EvInsert toInsert],
                   Stop (Failed e) c)
              | (c, None) =>
                  (progress ++ [fetch] ++ bug ++ [EvInsert toInsert],
                   Continue (mkState c final
                               (coveredAfter (last st) (covered st) first final)))
              end
          end
      end
  end.

(** The [for] loop, unrolled at most [fuel] times. *)
Fixpoint loop (w : World) (start : Time) (fuel : nat) (n : nat) (st : State)
  : list Event * Step :=
  match fuel with
  | O => ([], Continue st)
  | S fuel' =>
      match iteration w start n st with
      | (evs, Continue st') =>
          let '(evs', r) := loop w start fuel' (S n) st' in (evs ++ evs', r)
      | (evs, Stop e c) => (evs, Stop e c)
      end
  end.

(** [SynchronizeDatabase], from the store that [setup] opened. *)
Definition SynchronizeDatabase (w : World) (start : Time) (fuel : nat) (d : DB) : Run :=
  match lastVersionInfo d with
  | (_, Some e) => mkRun [] (Failed e) d
  | (last, None) => finish (loop w start fuel 0%nat (mkState (Open d) last 0))
  end.

End WithLib.
End modindex.

(** ** The [index update] command (indexcmd.go, lines 27-181)

    The same loop written inline: the end of the feed is tested on the
    fetched list, the first record is skipped inside the transaction, and the
    version rows are written with [INSERT OR REPLACE]. *)

Module indexcmd.
Section WithLib.
Context `{Lib}.

(** Lines 77-104. *)
Definition progress (last : VersionInfo) (start : Time) (covered : Z)
    (now : Time) : option Report :=
  if negb (IsZero (Timestamp last)) then
    let target := now in
    let duration := Sub target start in
    let coveredHours := Hours covered in
    let openHours := Hours (Sub target (Timestamp last)) in
    Some (mkReport duration target (Timestamp last) coveredHours openHours
            (if 0 <? coveredHours
             then Some (Z.quot (wrap64 (openHours * duration)) coveredHours)
             else None))
  else None.

(** Lines 114-118. *)
Definition upToDateTest (last : VersionInfo) (versions : list VersionInfo) : bool :=
  match versions with
  | [] => true
  | [v] => sameRecord v last
  | _ => false
  end.

Record TxOut : Type := mkTxOut {
  txDB : DB;
  txCovered : Z;
  txStderr : list Event;
  txWritten : list VersionInfo;
  txErr : option error
}.

(** Lines 129-169, the loop over the batch; [prev] is [versions[i-1]],
    absent when [i == 0]. *)
Fixpoint writeRows (last : VersionInfo) (prev : option VersionInfo)
    (rest : list VersionInfo) (tx : DB) (covered : Z) : TxOut :=
  match rest with
  | [] => mkTxOut tx covered [] [] None
  | v :: rest' =>
      let atCursor := bool_decide (prev = None) && negb (IsZero (Timestamp last)) in
      if atCursor && sameRecord v last
      then writeRows last (Some v) rest' tx covered          (* continue *)
      else
        let bug := if atCursor then [EvStderr (bugLine last v)] else [] in
        let covered1 :=
          match prev with
          | Some p => wrap64 (covered + Sub (Timestamp v) (Timestamp p))
          | None => covered
          end in
        match resolvePath tx (Path v) with
        | None => mkTxOut tx covered1 bug [v] (Some ErrInsertPath)
        | Some (tx1, pathID) =>
            match insertOrReplaceVersion tx1 pathID (Version v)
                    (Format (Timestamp v)) with
            | None => mkTxOut tx1 covered1 bug [v] (Some ErrInsertVersion)
            | Some tx2 =>
                let r := writeRows last (Some v) rest' tx2 covered1 in
                mkTxOut (txDB r) (txCovered r) (bug ++ txStderr r)
                        (v :: txWritten r) (txErr r)
            end
        end
  end.

(** One pass through the body of the [for] loop (lines 76-179). *)
Definition iteration (w : World) (start : Time) (n : nat) (st : State)
  : list Event * Step :=
  let report :=
    match progress (last st) start (covered st) (Now w n) with
    | Some r => [EvProgress r]
    | None => []
    end in
  let fetch := EvFetch (Timestamp (last st)) 2000 in
  match GetVersions w n (Timestamp (last st)) 2000 with
  | None => (report ++ [fetch], Stop (Failed ErrGetVersions) (conn st))
  | Some versions =>
      if upToDateTest (last st) versions
      then (report ++ [fetch] ++ [EvStdout upToDate], Stop Done (conn st))
      else
        let r := writeRows (last st) None versions (committed (conn st)) (covered st) in
        let evs := report ++ [fetch] ++ txStderr r ++ [EvInsert (txWritten r)] in
        match txErr r with
        | Some e => (evs, Stop (Failed e) (mkConn (committed (conn st)) (Some (txDB r))))
        | None =>
            (evs, Continue (mkState (mkConn (txDB r) None)
                              (default (last st) (list.last versions))
                              (txCovered r)))
        end
  end.

Fixpoint loop (w : World) (start : Time) (fuel : nat) (n : nat) (st : State)
  : list Event * Step :=
  match fuel with
  | O => ([], Continue st)
  | S fuel' =>
      match iteration w start n st with
      | (evs, Continue st') =>
          let '(evs', r) := loop w start fuel' (S n) st' in (evs ++ evs', r)
      | (evs, Stop e c) => (evs, Stop e c)
      end
  end.

(** Lines 46-58, the cursor read at the start. *)
Definition lastRow (d : DB) : VersionInfo * option error :=
  match maxRow (joined d) with
  | None => (zeroInfo, None)
  | Some (path, version, timestamp) =>
      match Parse timestamp with
      | None => (mkVersionInfo path version zero, Some ErrParseTimestamp)
      | Some t => (mkVersionInfo path version t, None)
      end
  end.

Definition updateCmd (w : World) (start : Time) (fuel : nat) (d : DB) : Run :=
  match lastRow d with
  | (_, Some e) => mkRun [] (Failed e) d
  | (last, None) =>
      finish (loop w start fuel 0%nat (mkState (Open d) last 0))
  end.

End WithLib.
End indexcmd.

(** ** The standard library's side

    [time.RFC3339Nano] is the layout [2006-01-02T15:04:05.999999999Z07:00]:
    a four-digit year, two-digit fields, the fraction of the second with its
    trailing zeros (and then the point) removed, and the zone: [Z] for an
    offset of zero, else the sign, the hours and the minutes of the offset.
    [Format] below writes what [Time.Format] writes, the fields taken in the
    Location of the value. [Parse] reads the forms of the layout that end in
    [Z], with a period before the fraction, as [time.Parse] does, and gives
    them the nil Location (the zoned forms and the comma are left out): it
    is the library for the timestamps in UTC of the index. [ParseZoned]
    reads the zoned forms as well. The calendar is computed by the closed
    formula for the proleptic Gregorian calendar, not by the library's
    algorithm. *)

Module rfc3339.

Definition digitChar (k : Z) : ascii := ascii_of_N (Z.to_N (48 + k)).

Definition digitVal (c : ascii) : option Z :=
  let n := Z.of_N (N_of_ascii c) in
  if (48 <=? n) && (n <=? 57) then Some (n - 48) else None.

Definition pad2 (n : Z) : string :=
  String (digitChar (n / 10 mod 10)) (String (digitChar (n mod 10)) EmptyString).

Definition pad4 (n : Z) : string := pad2 (n / 100) +:+ pad2 (n mod 100).

(** [appendInt(b, year, 4)]: at least four digits, after the sign. *)
Definition wide (n : Z) : string := if n <=? 9999 then pad4 n else pretty n.

Definition yearText (y : Z) : string :=
  if y <? 0 then "-" +:+ wide (- y) else wide y.

(** *** The calendar *)

Definition isLeap (y : Z) : bool :=
  (y mod 4 =? 0) && (negb (y mod 100 =? 0) || (y mod 400 =? 0)).

(** Days from January 1 of year 1 to January 1 of year [y]. *)
Definition daysBefore (y : Z) : Z :=
  365 * (y - 1) + (y - 1) / 4 - (y - 1) / 100 + (y - 1) / 400.

Definition yearOf (days : Z) : Z :=
  let y := 400 * days / 146097 + 1 in
  if days <? daysBefore y then y - 1
  else if daysBefore (y + 1) <=? days then y + 1
  else y.

(** Days of the year before the first of month [m]. *)
Definition daysBeforeMonth (m : Z) (leap : bool) : Z :=
  match m with
  | 1 => 0 | 2 => 31
  | _ => (match m with
          | 3 => 59 | 4 => 90 | 5 => 120 | 6 => 151 | 7 => 181 | 8 => 212
          | 9 => 243 | 10 => 273 | 11 => 304 | 12 => 334 | _ => 365
          end) + (if leap then 1 else 0)
  end.

Definition daysIn (m y : Z) : Z :=
  daysBeforeMonth (m + 1) (isLeap y) - daysBeforeMonth m (isLeap y).

Definition monthOf (doy : Z) (leap : bool) : Z :=
  default 1 (find (fun m => daysBeforeMonth m leap <=? doy)
                  [12; 11; 10; 9; 8; 7; 6; 5; 4; 3; 2]).

(** *** The fraction of the second *)

Definition digits9 (n : Z) : list Z :=
  [n / 100000000 mod 10; n / 10000000 mod 10; n / 1000000 mod 10;
   n / 100000 mod 10; n / 10000 mod 10; n / 1000 mod 10;
   n / 100 mod 10; n / 10 mod 10; n mod 10].

Fixpoint trimZeros (ds : list Z) : list Z :=
  match ds with
  | [] => []
  | d :: rest =>
      match trimZeros rest with
      | [] => if d =? 0 then [] else [d]
      | rest' => d :: rest'
      end
  end.

Fixpoint digitsText (ds : list Z) : string :=
  match ds with
  | [] => EmptyString
  | d :: rest => String (digitChar d) (digitsText rest)
  end.

(** [formatNano(b, nsec, 9, true)] *)
Definition fracText (ns : Z) : string :=
  match trimZeros (digits9 ns) with
  | [] => EmptyString
  | ds => String "." (digitsText ds)
  end.

(** [appendInt(b, x, 2)] *)
Definition two (n : Z) : string := if n <=? 99 then pad2 n else pretty n.

(** The zone, as the element [Z07:00] of the layout writes it. *)
Definition zoneText (offset : Z) : string :=
  if offset =? 0 then "Z"
  else
    let zone := Z.quot offset 60 in
    (if zone <? 0 then "-" else "+")
      +:+ two (Z.abs zone / 60) +:+ ":" +:+ two (Z.abs zone mod 60).

Definition Format (t : Time) : string :=
  let offset := offsetOf (loc t) in
  let days := (sec t + offset) / 86400 in
  let sod := (sec t + offset) mod 86400 in
  let y := yearOf days in
  let doy := days - daysBefore y in
  let m := monthOf doy (isLeap y) in
  let d := doy - daysBeforeMonth m (isLeap y) + 1 in
  yearText y +:+ "-" +:+ pad2 m +:+ "-" +:+ pad2 d +:+ "T"
    +:+ pad2 (sod / 3600) +:+ ":" +:+ pad2 (sod / 60 mod 60) +:+ ":"
    +:+ pad2 (sod mod 60) +:+ fracText (nsec t) +:+ zoneText offset.

(** *** Parsing *)

Definition num2 (s : string) : option (Z * string) :=
  match s with
  | String a (String b rest) =>
      x ← digitVal a; y ← digitVal b; Some (10 * x + y, rest)
  | _ => None
  end.

Definition num4 (s : string) : option (Z * string) :=
  '(hi, s1) ← num2 s; '(lo, s2) ← num2 s1; Some (100 * hi + lo, s2).

Definition expect (c : ascii) (s : string) : option string :=
  match s with
  | String a rest => if Ascii.eqb a c then Some rest else None
  | EmptyString => None
  end.

(** The longest prefix of digits, and what follows it. *)
Fixpoint digitsOf (s : string) : list Z * string :=
  match s with
  | String a rest =>
      match digitVal a with
      | Some d => let '(ds, s') := digitsOf rest in (d :: ds, s')
      | None => ([], s)
      end
  | EmptyString => ([], s)
  end.

(** The number a list of decimal digits writes. *)
Definition value (ds : list Z) : Z := foldl (fun acc d => 10 * acc + d) 0 ds.

(** [parseNanoseconds]: the first nine digits count. *)
Definition nanos (ds : list Z) : Z :=
  let ds9 := take 9 ds in
  value ds9 * 10 ^ (9 - Z.of_nat (length ds9)).

Definition fraction (s : string) : Z * string :=
  match s with
  | String a rest =>
      if Ascii.eqb a "." then
        match digitsOf rest with
        | ([], _) => (0, s)
        | (ds, s') => (nanos ds, s')
        end
      else (0, s)
  | EmptyString => (0, s)
  end.

Definition inRange (lo x hi : Z) : option unit :=
  if (lo <=? x) && (x <=? hi) then Some tt else None.

Definition Parse (s : string) : option Time :=
  '(y, s) ← num4 s; s ← expect "-" s;
  '(m, s) ← num2 s; s ← expect "-" s;
  '(d, s) ← num2 s; s ← expect "T" s;
  '(h, s) ← num2 s; s ← expect ":" s;
  '(mi, s) ← num2 s; s ← expect ":" s;
  '(sc, s) ← num2 s;
  _ ← inRange 1 m 12; _ ← inRange 1 d (daysIn m y);
  _ ← inRange 0 h 23; _ ← inRange 0 mi 59; _ ← inRange 0 sc 59;
  let '(ns, s) := fraction s in
  if bool_decide (s = "Z") then
    Some (mkTime ((daysBefore y + daysBeforeMonth m (isLeap y) + d - 1) * 86400
                  + h * 3600 + mi * 60 + sc) ns UTC)
  else None.

(** The offset a zone of the form [+07:00] or [-07:00] writes, in seconds. *)
Definition zone (s : string) : option Z :=
  match s with
  | String c rest =>
      sign ← (if Ascii.eqb c "+" then Some 1
              else if Ascii.eqb c "-" then Some (-1) else None);
      '(zh, s) ← num2 rest; s ← expect ":" s;
      '(zm, s) ← num2 s;
      _ ← inRange 0 zh 23; _ ← inRange 0 zm 59;
      if bool_decide (s = "") then Some (sign * ((zh * 60 + zm) * 60)) else None
  | EmptyString => None
  end.

(** [time.Parse] on the zoned forms as well. A text that ends in [Z] gets
    the nil Location. For a text with an offset the library takes the local
    Location when it has this offset at the instant, and otherwise
    [FixedZone] of the offset, which is a Location of its own for each call
    unless the offset is a whole number of hours from -12 to +14; [place] is
    the address of the Location the call gets. The comma before the fraction
    is left out, as in [Parse]. *)
Definition ParseZoned (place : Z -> positive) (s : string) : option Time :=
  '(y, s) ← num4 s; s ← expect "-" s;
  '(m, s) ← num2 s; s ← expect "-" s;
  '(d, s) ← num2 s; s ← expect "T" s;
  '(h, s) ← num2 s; s ← expect ":" s;
  '(mi, s) ← num2 s; s ← expect ":" s;
  '(sc, s) ← num2 s;
  _ ← inRange 1 m 12; _ ← inRange 1 d (daysIn m y);
  _ ← inRange 0 h 23; _ ← inRange 0 mi 59; _ ← inRange 0 sc 59;
  let '(ns, s) := fraction s in
  let fields := (daysBefore y + daysBeforeMonth m (isLeap y) + d - 1) * 86400
                + h * 3600 + mi * 60 + sc in
  if bool_decide (s = "Z") then Some (mkTime fields ns UTC)
  else offset ← zone s; Some (mkTime (fields - offset) ns (Zone (place offset) offset)).

(** [int64(d.Hours())], without the rounding of the [float64] sum. *)
Definition Hours (d : Z) : Z := Z.quot d Hour.

Definition lib : Lib := {| time.Format := Format; time.Parse := Parse; time.Hours := Hours |}.

(** The library reading every form of the layout. *)
Definition zoned (place : Z -> positive) : Lib :=
  {| time.Format := Format; time.Parse := ParseZoned place; time.Hours := Hours |}.

End rfc3339.

(** ** Vocabulary of the properties *)

(** The batches a run wrote, in order. *)
Definition inserts (evs : list Event) : list (list VersionInfo) :=
  omap (fun e => match e with EvInsert vs => Some vs | _ => None end) evs.

(** The calls to the index server a run made. *)
Definition fetches (evs : list Event) : list Time :=
  omap (fun e => match e with EvFetch since _ => Some since | _ => None end) evs.

(** What a run shows apart from the progress table. *)
Definition observable (evs : list Event) : list Event :=
  omap (fun e => match e with EvProgress _ => None | _ => Some e end) evs.

(** The cursor is set: its timestamp is not the zero time. *)
Definition cursorSet (last : VersionInfo) : Prop :=
  IsZero (Timestamp last) = false.

(** ** Sample data *)

Module sample.

Definition t1 : Time := mkTime 63690520132 997264000 UTC.
Definition t2 : Time := mkTime 63690520140 0 UTC.
Definition t3 : Time := mkTime 63690527400 500000000 UTC.

Definition recA : VersionInfo := mkVersionInfo "example.com/a" "v1.0.0" t1.
Definition recB : VersionInfo := mkVersionInfo "example.com/a" "v1.1.0" t2.
Definition recC : VersionInfo := mkVersionInfo "example.com/c" "v0.1.0" t3.

(** [recA] again, with a later timestamp. *)
Definition recA' : VersionInfo := mkVersionInfo "example.com/a" "v1.0.0" t3.

Definition start : Time := mkTime 63900000000 0 UTC.

(** A clock that advances by ten minutes from one reading to the next. *)
Definition clock (n : nat) : Time := mkTime (63900000000 + 600 * Z.of_nat n) 0 UTC.

(** The store that holds [recA] alone. *)
Definition storeA : DB :=
  mkDB [(1, "example.com/a")]
       {[ (1, "v1.0.0") := "2019-04-10T19:08:52.997264Z" ]}.

(** A server that answers every call with the same list. *)
Definition always (vs : list VersionInfo) : World :=
  mkWorld clock (fun _ _ _ => Some vs).

(** A server that answers its calls with the lists of a script, then with
    nothing. *)
Definition scripted (script : list (list VersionInfo)) : World :=
  mkWorld clock (fun n _ _ => Some (default [] (script !! n))).

(** The loop with [recA] as its cursor, over the store that holds it. *)
Definition atA : State := mkState (Open storeA) recA 0.

(** The same, three hours and a half of the feed covered. *)
Definition atA_covered : State := mkState (Open storeA) recA (12600 * Second).

(** The loop at its start over the empty store. *)
Definition atStart : State := mkState (Open sqlite.empty) zeroInfo 0.

(** A log of the server, in the order of time. *)
Definition log : list VersionInfo := [recA; recB; recC].

(** [recA] as a feed in the zone +05:30 carries it: the clock reading of
    [t1] five hours and a half east of UTC, with the Location that the
    decoding of the answer allocated, and the same record as the decoding
    of a later answer gives it. *)
Definition tZ : Time := mkTime (63690520132 - 19800) 997264000 (Zone 1 19800).
Definition recZ : VersionInfo := mkVersionInfo "example.com/a" "v1.0.0" tZ.
Definition recZ' : VersionInfo :=
  mkVersionInfo "example.com/a" "v1.0.0"
                (mkTime (63690520132 - 19800) 997264000 (Zone 3 19800)).

(** The Location [time.Parse] allocates when the store is read. *)
Definition parsed (offset : Z) : positive := 2%positive.

(** Two answers; the second brings [recA] again after [recC]. *)
Definition script : list (list VersionInfo) :=
  [[recA; recB]; [recB; recC; recA']].

End sample.

(** ** The index server

    The index server is an outside service; this is the contract the spec
    gives for it (4.1). It holds an append-only log; a call returns, in the
    order of the log, the records whose timestamp is not before [since], at
    most [limit] of them. The records are given as the client decodes them,
    and a record that is sent again is the same value again: this is what
    decoding gives for the timestamps in UTC that the index serves. *)

Definition served (now : nat -> Time) (log : list VersionInfo) : World :=
  mkWorld now
          (fun _ since limit =>
             Some (take (Z.to_nat limit)
                     (filter (fun v => Before (Timestamp v) since = false) log))).


(** [PRIMARY KEY] of [paths]: no two rows share an id. *)
Definition primaryKey (d : DB) : Prop := NoDup ((paths d).*1).

(** Two records name the same row of [versions]. *)
Definition samePair (u v : VersionInfo) : Prop :=
  Path u = Path v /\ Version u = Version v.

(** No record of the server's answers carries the zero timestamp. *)
Definition answersTimed (w : World) : Prop :=
  forall n since limit vs,
    GetVersions w n since limit = Some vs -> Forall cursorSet vs.

(** The ways a run of the refactored engine ends that the inline engine
    shares: every one but the panic and the errors of the writer. *)
Definition shared (e : Exit) : Prop :=
  e <> Panicked /\ e <> Failed ErrInsertVersion /\ e <> Failed ErrInsertPath.

(** Two states of the loop with the same connection and the same cursor. *)
Definition sameCursor (s s' : State) : Prop :=
  conn s = conn s' /\ last s = last s'.

Definition sameStep (r r' : Step) : Prop :=
  match r, r' with
  | Continue s, Continue s' => sameCursor s s'
  | Stop e c, Stop e' c' => e = e' /\ c = c'
  | _, _ => False
  end.

(** The timestamps RFC 3339 writes with a [Z] and four digits of the year:
    years 0000 to 9999, a fraction below one second, and UTC, the nil
    Location, as the index serves them. *)
Definition representable (t : Time) : Prop :=
  rfc3339.daysBefore 0 * 86400 <= sec t < rfc3339.daysBefore 10000 * 86400
  /\ 0 <= nsec t < 1000000000
  /\ loc t = UTC.

(** [UNIQUE] of [paths.path]: no two rows share a path. *)
Definition uniquePath (d : DB) : Prop := NoDup ((paths d).*2).

(** ** Vocabulary of the replay property *)

(** The log of the server is in the order of its timestamps. *)
Definition timeSorted (log : list VersionInfo) : Prop :=
  StronglySorted (fun u v => le (Timestamp u) (Timestamp v)) log.

(** [REFERENCES paths(id)]: every row of [versions] has its row of [paths]. *)
Definition referential (d : DB) : Prop :=
  forall id version, is_Some (versions d !! (id, version)) ->
                     is_Some (selectPath d id).

(** The layout gives back the timestamps of the log. *)
Definition roundTrips `{Lib} (log : list VersionInfo) : Prop :=
  Forall (fun v => Parse (Format (Timestamp v)) = Some (Timestamp v)) log.

(** The store [d] is [d0] with rows added for records of the log that are
    not before [since]. *)
Definition grownFrom `{Lib} (log : list VersionInfo) (since : Time) (d0 d : DB) : Prop :=
  (forall q i, selectPathID d0 q = Some i -> selectPathID d q = Some i)
  /\ (forall i q, selectPath d0 i = Some q -> selectPath d i = Some q)
  /\ (forall k t, versions d0 !! k = Some t -> versions d !! k = Some t)
  /\ (forall k t, versions d !! k = Some t ->
        versions d0 !! k = Some t
        \/ exists v, v ∈ log /\ le since (Timestamp v) /\ t = Format (Timestamp v)).

(** The loop has the log in the store up to its cursor: every record from
    the first cursor [c0] on that is before the cursor has its pair in the
    store, and so has the cursor when it is set. *)
Definition caughtUp (log : list VersionInfo) (c0 : VersionInfo) (st : State) : Prop :=
  le (Timestamp c0) (Timestamp (last st))
  /\ (forall v, v ∈ log -> le (Timestamp c0) (Timestamp v) ->
        Before (Timestamp v) (Timestamp (last st)) = true ->
        keyTaken (committed (conn st)) v)
  /\ (cursorSet (last st) -> keyTaken (committed (conn st)) (last st)).

(** ** Vocabulary of the further properties *)

(** The constraints of the schema, together. *)
Definition wellFormed (d : DB) : Prop :=
  primaryKey d /\ uniquePath d /\ referential d.

(** The key of the row of [versions] a record is written to, by name. *)
Definition pairOf (v : VersionInfo) : string * string := (Path v, Version v).

(** Every timestamp text of the store can be read. *)
Definition parseable `{Lib} (d : DB) : Prop :=
  forall k t, versions d !! k = Some t -> is_Some (Parse t).

(** The records of the server's answers carry instants RFC 3339 can write. *)
Definition answersRepresentable (w : World) : Prop :=
  forall n since limit vs,
    GetVersions w n since limit = Some vs ->
    Forall (fun v => representable (Timestamp v)) vs.

(** The number of records in a list of batches. *)
Definition records (batches : list (list VersionInfo)) : nat :=
  sum_list (length <$> batches).

(** The store at the end of the loop. *)
Definition reached (r : Step) : DB :=
  match r with
  | Continue st => committed (conn st)
  | Stop _ c => committed c
  end.

(** The layout gives back the timestamps of every answer of the server. *)
Definition answersRoundTrip `{Lib} (w : World) : Prop :=
  forall n since limit vs, GetVersions w n since limit = Some vs -> roundTrips vs.

(** The timestamps of the last records of a list of batches. *)
Definition endsOf (batches : list (list VersionInfo)) : list Time :=
  (fun b => Timestamp (default zeroInfo (list.last b))) <$> batches.

(** The progress tables a run printed. *)
Definition reports (evs : list Event) : list Report :=
  omap (fun e => match e with EvProgress r => Some r | _ => None end) evs.

(** An instant as a count of nanoseconds. *)
Definition nanoseconds (t : Time) : Z := sec t * Second + nsec t.

(** The timestamps of the server's answers lie between two instants. *)
Definition answersWithin (w : World) (lo hi : Z) : Prop :=
  forall n since limit vs,
    GetVersions w n since limit = Some vs ->
    Forall (fun v => lo <= nanoseconds (Timestamp v) <= hi) vs.

(** The loop's account of the time covered: the nanoseconds between the
    instant [base] and the cursor, which lies between [lo] and [hi]. *)
Definition accounted (lo hi base : Z) (st : State) : Prop :=
  cursorSet (last st)
  /\ lo <= nanoseconds (Timestamp (last st)) <= hi
  /\ covered st = nanoseconds (Timestamp (last st)) - base.

(** The log of the server is in the strict order of its timestamps. *)
Definition strictlySorted (log : list VersionInfo) : Prop :=
  StronglySorted (fun u v => Before (Timestamp u) (Timestamp v) = true) log.

(** Every record of the log is later than the zero time. *)
Definition afterZero (log : list VersionInfo) : Prop :=
  Forall (fun v => Before zero (Timestamp v) = true) log.

(** The timestamps of the log are in UTC, as the index writes them: each
    decodes to the nil Location, so that two decodings of a record are
    [==]. *)
Definition inUTC (log : list VersionInfo) : Prop :=
  Forall (fun v => loc (Timestamp v) = UTC) log.

(** The loop has written a part of the log: the store holds its records,
    inserted in their order into the empty store, no transaction is open,
    and the cursor is the last of them. *)
Definition mirrored `{Lib} (written : list VersionInfo) (st : State) : Prop :=
  exists d, modindex.insertRows sqlite.empty written = (d, None)
            /\ conn st = mkConn d None
            /\ last st = default zeroInfo (list.last written).

(** The next batch: what the server sends of the rest of the log, the
    cursor apart. *)
Definition nextBatch (written remaining : list VersionInfo) : list VersionInfo :=
  take (if written is [] then Z.to_nat 2000 else Z.to_nat 1999) remaining.

(** ** Package strings

    [HasPrefix] and [TrimPrefix] are the library's, on bytes. [ToLower] maps
    runes through the case tables of Unicode and is a parameter; on a string
    of ASCII bytes it is [ASCII.ToLower] below, the library's path for such
    strings. *)

Module strings.

Class Lib : Type := {
  ToLower : string -> string        (* strings.ToLower(s) *)
}.

(** [len(s) >= len(prefix) && s[:len(prefix)] == prefix] *)
Fixpoint HasPrefix (s prefix : string) : bool :=
  match prefix, s with
  | EmptyString, _ => true
  | String b prefix', String a s' => Ascii.eqb a b && HasPrefix s' prefix'
  | String _ _, EmptyString => false
  end.

(** [s[n:]], for [n] within the string. *)
Fixpoint from (n : nat) (s : string) : string :=
  match n, s with
  | S n', String _ s' => from n' s'
  | _, _ => s
  end.

Definition TrimPrefix (s prefix : string) : string :=
  if HasPrefix s prefix then from (String.length prefix) s else s.

End strings.

(** [strings.ToLower] on a string of ASCII bytes: each upper-case letter
    is replaced by its lower-case letter. *)

Module ASCII.

(** [c < utf8.RuneSelf] for every byte. *)
Fixpoint isASCII (s : string) : bool :=
  match s with
  | EmptyString => true
  | String c s' => (N_of_ascii c <? 128)%N && isASCII s'
  end.

(** ['A' <= c && c <= 'Z'], then [c += 'a' - 'A']. *)
Definition lower (c : ascii) : ascii :=
  let n := N_of_ascii c in
  if ((65 <=? n) && (n <=? 90))%N then ascii_of_N (n + 32) else c.

Fixpoint ToLower (s : string) : string :=
  match s with
  | EmptyString => EmptyString
  | String c s' => String (lower c) (ToLower s')
  end.

Definition lib : strings.Lib := {| strings.ToLower := ToLower |}.

End ASCII.

(** ** Package modname (src/modname/modname.go) *)

Module modname.

Definition Canonicalize `{strings.Lib} (s : string) : string :=
  let s := strings.ToLower s in
  if strings.HasPrefix s "www.github.com/" then strings.TrimPrefix s "www."
  else s.

End modname.

(** ** The commands [lookup-mods] and [normalize-index]
    (src/cmd/modhunt/main.go, lines 106-228 and 349-541)

    Both walk the table [paths] in batches, in the order of its ids.
    [lookup-mods] prints every path with the latest of its versions.
    [normalize-index] adds the table [modules(id INTEGER PRIMARY KEY ASC,
    module TEXT NOT NULL UNIQUE)] and the column [module_id INTEGER REFERENCES
    modules(id)] of [paths], and gives every path the module its normalized
    name stands for; its store is modelled by these two tables, [versions] is
    not touched. *)

Module modhunt.

Record DB : Type := mkDB {
  paths : list (Z * string * option Z);        (* id, path, module_id *)
  modules : list (Z * string)                  (* id, module *)
}.

Inductive error : Type :=
| ErrInsertModule              (* insert module failed *)
| ErrExecUpdate.               (* exec update failed *)

(** What the two commands write to stdout; the percentage of a progress
    line is the quotient of the two numbers it is printed with. *)
Inductive Line : Type :=
| LookingUp (total : Z)                  (* looking up %d paths *)
| Lookup (count total : Z)               (* lookup %.2f%% (%d/%d) *)
| Listed (path latest : string)          (* fmt.Println(r.Path, r.LatestVersion) *)
| LookedUp (total : Z)                   (* looked up %d/%d *)
| CleaningUp (total : Z)                 (* cleaning up %d paths *)
| Normalizing (count total : Z)          (* normalizing %.2f%% (%d/%d) *)
| Normalized (total : Z)                 (* normalized %d/%d *)
| CleaningUpModules                      (* cleaning up modules *)
| Deleted (affected : Z).                (* deleted %d unreferenced modules *)

Inductive Outcome : Type :=
| Finished                     (* return nil; for the loop, break *)
| Stopped (e : error)          (* return fmt.Errorf(...) *)
| Unfinished.                  (* the loop has not ended yet *)

(** The store of the index with the column added (lines 358-376, on a
    store that does not have it yet): [module_id] is [NULL] in every row. *)
Definition addColumn (d : sqlite.DB) : DB :=
  mkDB ((fun r => (r, None)) <$> sqlite.paths d) [].

(** [LIMIT n]: a negative [n] is no limit. *)
Definition limit {A} (n : Z) (l : list A) : list A :=
  if n <? 0 then l else take (Z.to_nat n) l.

(** [ORDER BY id] *)
Definition byID : relation (Z * string) := fun r r' => r.1 <= r'.1.

#[global] Instance byID_dec : RelDecision byID.
Proof. intros r r'. unfold byID. apply _. Defined.

#[global] Instance byID_trans : Transitive byID.
Proof. intros x y z. unfold byID. lia. Qed.

#[global] Instance byID_total : Total byID.
Proof. intros x y. unfold byID. lia. Qed.

(** [SELECT id, path FROM paths WHERE id > ? ORDER BY id LIMIT ?], on the
    two columns of the table. *)
Definition selectBatch (rows : list (Z * string)) (lastID batchSize : Z)
  : list (Z * string) :=
  limit batchSize (merge_sort byID (filter (fun r => lastID < r.1) rows)).

(** [SELECT id FROM modules WHERE module = ?] *)
Definition selectModuleID (d : DB) (name : string) : option Z :=
  fst <$> find (fun r => bool_decide (r.2 = name)) (modules d).

(** The rowid SQLite gives a new row: one more than the largest in use. *)
Definition nextID (d : DB) : Z :=
  match (modules d).*1 with
  | [] => 1
  | id :: ids => 1 + foldr Z.max id ids
  end.

(** [INSERT INTO modules (module) VALUES (?)], with [LastInsertId]. *)
Definition insertModule (d : DB) (name : string) : option (DB * Z) :=
  match selectModuleID d name with
  | Some _ => None                              (* UNIQUE(module) *)
  | None =>
      let id := nextID d in
      Some (mkDB (paths d) (modules d ++ [(id, name)]), id)
  end.

(** [UPDATE paths SET module_id = ? WHERE id = ?] *)
Definition updateModuleID (d : DB) (moduleID pathID : Z) : option DB :=
  if bool_decide (pathID ∈ (paths d).*1.*1)
     && negb (bool_decide (moduleID ∈ (modules d).*1))
  then None                                     (* REFERENCES modules(id) *)
  else Some (mkDB ((fun r => if bool_decide (r.1.1 = pathID)
                             then (r.1, Some moduleID) else r) <$> paths d)
                  (modules d)).

(** [DELETE FROM modules WHERE id NOT IN (SELECT module_id FROM paths WHERE
    module_id IS NOT NULL)], with [RowsAffected]. *)
Definition deleteUnreferenced (d : DB) : DB * Z :=
  let kept := filter (fun m => m.1 ∈ omap snd (paths d)) (modules d) in
  (mkDB (paths d) kept,
   Z.of_nat (length (modules d)) - Z.of_nat (length kept)).

(** What [goVersionLess] and its caller take from golang.org/x/mod and from
    package sort; an error of a function of [module] is [None]. *)
Class Versions : Type := {
  IsValid : string -> bool;                      (* semver.IsValid(v) *)
  Prerelease : string -> string;                 (* semver.Prerelease(v) *)
  Compare : string -> string -> Z;               (* semver.Compare(v, w) *)
  IsPseudoVersion : string -> bool;              (* module.IsPseudoVersion(v) *)
  PseudoVersionBase : string -> option string;   (* module.PseudoVersionBase(v) *)
  PseudoVersionTime : string -> option Time;     (* module.PseudoVersionTime(v) *)
  PseudoVersionRev : string -> option string;    (* module.PseudoVersionRev(v) *)
  Slice : list string -> (string -> string -> bool) -> list string
                                                 (* sort.Slice(x, less): x afterwards *)
}.

Definition vtStable : Z := 0.
Definition vtPrerelease : Z := 1.
Definition vtPseudo : Z := 2.
Definition vtInvalid : Z := 3.

(** [SELECT version FROM versions WHERE path_id = ?] *)
Definition selectVersions (d : sqlite.DB) (pathID : Z) : list string :=
  omap (fun r : Z * string * string =>
          if bool_decide (r.1.1 = pathID) then Some r.1.2 else None)
       (map_to_list (sqlite.versions d)).

Section Lookup.
Context `{Versions}.

Definition classifyVersion (v : string) : Z :=
  if negb (IsValid v) then vtInvalid
  else if IsPseudoVersion v then vtPseudo
  else if negb (bool_decide (Prerelease v = "")) then vtPrerelease
  else vtStable.

(** [pseudoLess]: base version, then time, then revision; [None] for an
    error. *)
Definition pseudoLess (a b : string) : option bool :=
  match PseudoVersionBase a with
  | None => None
  | Some baseA =>
      match PseudoVersionBase b with
      | None => None
      | Some baseB =>
          let c := Compare baseA baseB in
          if negb (c =? 0) then Some (c <? 0)
          else
            match PseudoVersionTime a with
            | None => None
            | Some timeA =>
                match PseudoVersionTime b with
                | None => None
                | Some timeB =>
                    if negb (bool_decide (timeA = timeB))
                    then Some (Before timeA timeB)
                    else
                      match PseudoVersionRev a with
                      | None => None
                      | Some revA =>
                          match PseudoVersionRev b with
                          | None => None
                          | Some revB => Some (String.ltb revA revB)
                          end
                      end
                end
            end
      end
  end.

Definition goVersionLess (a b : string) : bool :=
  let aType := classifyVersion a in
  let bType := classifyVersion b in
  if negb (aType =? bType) then aType <? bType
  else if (aType =? vtStable) || (aType =? vtPrerelease) then Compare a b <? 0
  else if aType =? vtPseudo
       then match pseudoLess a b with
            | Some less => less            (* err == nil && less *)
            | None => false
            end
  else false.

(** Lines 166-187: the versions of the path sorted with [goVersionLess],
    and the last of them, the empty string when the path has none. *)
Definition latestVersion (d : sqlite.DB) (pathID : Z) : string :=
  default "" (list.last (Slice (selectVersions d pathID) goVersionLess)).

(** [lookupBatch]: what it prints and the id it returns; its errors are
    those of the queries, which an open store does not give. The function
    returns at line 218: no module is looked up. *)
Definition lookupBatch (d : sqlite.DB) (batchSize lastID : Z) : list Line * Z :=
  let batch := selectBatch (sqlite.paths d) lastID batchSize in
  let lines := (fun r => Listed r.2 (latestVersion d r.1)) <$> batch in
  match batch with
  | [] => (lines, 0)
  | first :: _ => (lines, (default first (list.last batch)).1)
  end.

(** The [for] loop of [lookupAllPaths], unrolled at most [fuel] times. *)
Fixpoint lookupEach (fuel : nat) (d : sqlite.DB) (batchSize total count lastID : Z)
  : list Line * Outcome :=
  match fuel with
  | O => ([], Unfinished)
  | S fuel' =>
      let line := Lookup count total in
      let count := wrap64 (count + batchSize) in
      let '(lines, lastID') := lookupBatch d batchSize lastID in
      if lastID' =? 0 then (line :: lines, Finished)
      else
        let '(more, r) := lookupEach fuel' d batchSize total count lastID' in
        (line :: lines ++ more, r)
  end.

Definition lookupAllPaths (fuel : nat) (d : sqlite.DB) (batchSize : Z)
  : list Line * Outcome :=
  let total := Z.of_nat (length (sqlite.paths d)) in
  match lookupEach fuel d batchSize total 0 0 with
  | (lines, Finished) => ([LookingUp total] ++ lines ++ [LookedUp total], Finished)
  | (lines, r) => ([LookingUp total] ++ lines, r)
  end.

End Lookup.

Section WithLib.
Context `{strings.Lib}.

(** Lines 521-541; the branch of [gopkg.in/] is empty. *)
Definition normalizeModuleName (original : string) : string :=
  let name := strings.ToLower original in
  if strings.HasPrefix name "www.github.com/" then strings.TrimPrefix name "www."
  else if strings.HasPrefix original "gopkg.in/" then name
  else name.

(** Lines 478-500, the loop over the batch inside the transaction. *)
Fixpoint updateRows (tx : DB) (batch : list (Z * string)) : DB * option error :=
  match batch with
  | [] => (tx, None)
  | pathRow :: rest =>
      let moduleName := normalizeModuleName pathRow.2 in
      let found :=
        match selectModuleID tx moduleName with
        | Some moduleID => Some (tx, moduleID)
        | None => insertModule tx moduleName
        end in
      match found with
      | None => (tx, Some ErrInsertModule)
      | Some (tx1, moduleID) =>
          match updateModuleID tx1 moduleID pathRow.1 with
          | None => (tx1, Some ErrExecUpdate)
          | Some tx2 => updateRows tx2 rest
          end
      end
  end.

(** [processBatch]: the store it leaves, the id it returns and its error.
    After an error the transaction is rolled back. *)
Definition processBatch (d : DB) (batchSize lastID : Z) : DB * Z * option error :=
  match selectBatch ((paths d).*1) lastID batchSize with
  | [] => (d, 0, None)
  | (first :: _) as batch =>
      match updateRows d batch with
      | (_, Some e) => (d, 0, Some e)
      | (tx, None) => (tx, (default first (list.last batch)).1, None)
      end
  end.

(** The [for] loop of [processAllRecords], unrolled at most [fuel] times. *)
Fixpoint eachBatch (fuel : nat) (d : DB) (batchSize total count lastID : Z)
  : list Line * DB * Outcome :=
  match fuel with
  | O => ([], d, Unfinished)
  | S fuel' =>
      let line := Normalizing count total in
      let count := wrap64 (count + batchSize) in
      match processBatch d batchSize lastID with
      | (d', _, Some e) => ([line], d', Stopped e)
      | (d', lastID', None) =>
          if lastID' =? 0 then ([line], d', Finished)
          else
            let '(lines, d'', r) := eachBatch fuel' d' batchSize total count lastID' in
            (line :: lines, d'', r)
      end
  end.

Definition processAllRecords (fuel : nat) (d : DB) (batchSize : Z)
  : list Line * DB * Outcome :=
  let total := Z.of_nat (length (paths d)) in
  match eachBatch fuel d batchSize total 0 0 with
  | (lines, d1, Finished) =>
      let '(d2, affected) := deleteUnreferenced d1 in
      ([CleaningUp total] ++ lines
         ++ [Normalized total; CleaningUpModules; Deleted affected],
       d2, Finished)
  | (lines, d1, r) => ([CleaningUp total] ++ lines, d1, r)
  end.

End WithLib.
End modhunt.

(** ** Vocabulary of normalization *)

(** [PRIMARY KEY] of [paths], in the store with modules. *)
Definition pathKey (d : modhunt.DB) : Prop := NoDup ((modhunt.paths d).*1.*1).

(** [PRIMARY KEY] and [UNIQUE] of [modules]. *)
Definition moduleKeys (d : modhunt.DB) : Prop :=
  NoDup ((modhunt.modules d).*1) /\ NoDup ((modhunt.modules d).*2).

(** The row of [paths] points to the module that its normalized path
    names. *)
Definition normalized `{strings.Lib} (d : modhunt.DB) (r : Z * string * option Z) : Prop :=
  exists m, r.2 = Some m
            /\ (m, modhunt.normalizeModuleName r.1.2) ∈ modhunt.modules d.

(** Every module is the module of some path. *)
Definition allReferenced (d : modhunt.DB) : Prop :=
  forall m, m ∈ modhunt.modules d ->
            exists r, r ∈ modhunt.paths d /\ r.2 = Some m.1.

(** The ids of [paths] are positive, as SQLite gives them. *)
Definition positiveIDs (d : sqlite.DB) : Prop :=
  Forall (fun r => 0 < r.1) (sqlite.paths d).

(** The paths a run of [lookup-mods] lists, with the version beside each. *)
Definition listed (lines : list modhunt.Line) : list (string * string) :=
  omap (fun l => match l with
                 | modhunt.Listed p v => Some (p, v)
                 | _ => None
                 end) lines.

(** The rows of [paths] beyond [lastID], in the order of their ids. *)
Definition beyond (rows : list (Z * string)) (lastID : Z) : list (Z * string) :=
  merge_sort modhunt.byID (filter (fun r => lastID < r.1) rows).

(** What the rows of a batch do to the table inside the transaction. *)
Definition rowsUpdated `{strings.Lib} (batch : list (Z * string)) (tx' : modhunt.DB)
    (r r' : Z * string * option Z) : Prop :=
  r'.1 = r.1
  /\ (r.1.1 ∉ batch.*1 -> r' = r)
  /\ (r.1.1 ∈ batch.*1 -> (forall p, (r.1.1, p) ∈ batch -> p = r.1.2) ->
      normalized tx' r').

(** The rows up to [lastID] are done: a row of a positive id up to
    [lastID] points to its module, every other row is as it was in [d0]. *)
Definition upTo `{strings.Lib} (d0 : modhunt.DB) (lastID : Z) (d : modhunt.DB) : Prop :=
  Forall2 (fun r0 r =>
             r.1 = r0.1
             /\ (r0.1.1 <= 0 \/ lastID < r0.1.1 -> r = r0)
             /\ (0 < r0.1.1 <= lastID -> normalized d r))
          (modhunt.paths d0) (modhunt.paths d).

(** No byte of the string is an upper-case letter. *)
Fixpoint noUpper (s : string) : bool :=
  match s with
  | EmptyString => true
  | String c s' =>
      negb ((65 <=? N_of_ascii c) && (N_of_ascii c <=? 90))%N && noUpper s'
  end.

(** The counts of the progress lines of a run, in order. *)
Definition counters (lines : list modhunt.Line) : list Z :=
  omap (fun l => match l with
                 | modhunt.Lookup c _ | modhunt.Normalizing c _ => Some c
                 | _ => None
                 end) lines.

(** The number of batches of size [b] that [n] rows make. *)
Definition batches (n b : Z) : Z := (n + b - 1) / b.

(** [b] is not less than [a]. *)
Definition notAfter (less : string -> string -> bool) : relation string :=
  fun a b => less b a = false.

#[global] Instance notAfter_dec less : RelDecision (notAfter less).
Proof. intros a b. unfold notAfter. apply _. Defined.

(** What [sort.Slice] promises when [less] is an order: the slice holds
    what it held, and no element is less than one before it. *)
Definition sortedBy (less : string -> string -> bool) (x out : list string) : Prop :=
  out ≡ₚ x /\ StronglySorted (notAfter less) out.

(** ** Sample data of the two commands *)

Module demo.

(** A table of four paths; the first and the third are one module, and so
    are the second and the fourth. *)
Definition table : modhunt.DB :=
  modhunt.mkDB [(1, "Example.com/A", None);
                (2, "www.GitHub.com/x/y", None);
                (3, "example.com/a", None);
                (4, "github.com/X/Y", None)] [].

(** The store of an index with two paths and three versions. *)
Definition mirror : DB :=
  mkDB [(1, "example.com/a"); (2, "example.com/c")]
       {[ (1, "v1.0.0") := "2019-04-10T19:08:52.997264Z";
          (1, "v1.1.0") := "2019-04-10T19:09:00Z";
          (2, "v0.1.0") := "2019-04-10T21:10:00.5Z" ]}.

(** A stand-in for golang.org/x/mod and for [sort.Slice] that is right on the
    versions of the samples: a version is valid when it starts with [v], a
    pseudo-version when it is longer than twenty bytes, and versions compare
    as their texts do; the sort is a merge sort. *)
Definition versions : modhunt.Versions :=
  {| modhunt.IsValid := fun v => strings.HasPrefix v "v";
     modhunt.Prerelease := fun _ => "";
     modhunt.Compare := fun a b => match String.compare a b with
                                   | Lt => -1 | Eq => 0 | Gt => 1
                                   end;
     modhunt.IsPseudoVersion := fun v => (20 <? String.length v)%nat;
     modhunt.PseudoVersionBase := fun v => Some v;
     modhunt.PseudoVersionTime := fun _ => Some zero;
     modhunt.PseudoVersionRev := fun v => Some v;
     modhunt.Slice := fun x less => merge_sort (notAfter less) x |}.

(** A path with a release and a pseudo-version of an earlier commit. *)
Definition tagged : DB :=
  mkDB [(1, "example.com/a")]
       {[ (1, "v1.2.0") := "2019-04-10T19:08:52Z";
          (1, "v0.0.0-20190101000000-0123456789ab") := "2019-01-01T00:00:00Z" ]}.

End demo.

(** * Properties *)

(** ** The tables *)

Section Store.

Lemma selectPathID_Some d p id :
  selectPathID d p = Some id -> (id, p) ∈ paths d.
Proof.
  unfold selectPathID. destruct (find _ _) as [[i q]|] eqn:E; [|done].
  intros [= <-]. apply find_some in E as [Hin Hq].
  apply bool_decide_eq_true in Hq; simpl in Hq; subst.
  by apply list_elem_of_In.
Qed.

Lemma selectPath_is_Some d id p :
  (id, p) ∈ paths d -> is_Some (selectPath d id).
Proof.
  intros Hin. unfold selectPath.
  destruct (find _ _) as [r|] eqn:E; [by eexists|].
  apply list_elem_of_In in Hin.
  eapply find_none in E; [|exact Hin]. simpl in E.
  by apply bool_decide_eq_false in E.
Qed.

Lemma selectPathID_app d p x :
  selectPathID (mkDB (paths d ++ [x]) (versions d)) p =
  match selectPathID d p with
  | Some id => Some id
  | None => if bool_decide (x.2 = p) then Some x.1 else None
  end.
Proof.
  unfold selectPathID; simpl. induction (paths d) as [|r l IH]; simpl.
  - by destruct (bool_decide _).
  - destruct (bool_decide (r.2 = p)); [done|]. apply IH.
Qed.

End Store.

Section Paths.

Lemma selectPathID_None_insertPath d p :
  selectPathID d p = None ->
  insertPath d p = Some (mkDB (paths d ++ [(nextID d, p)]) (versions d), nextID d).
Proof. unfold insertPath. by intros ->. Qed.

Lemma insertPath_Some d p d' id :
  insertPath d p = Some (d', id) ->
  selectPathID d p = None /\ id = nextID d
  /\ d' = mkDB (paths d ++ [(id, p)]) (versions d).
Proof.
  unfold insertPath. destruct (selectPathID d p); [done|].
  by intros [= <- <-].
Qed.

Lemma foldr_max_le (l : list Z) a x : x = a \/ x ∈ l -> x <= foldr Z.max a l.
Proof.
  induction l as [|y l IH]; cbn [foldr].
  - intros [->|?%elem_of_nil]; [lia|done].
  - intros [->|[->|Hin]%elem_of_cons]; [|lia|].
    + specialize (IH (or_introl eq_refl)). lia.
    + specialize (IH (or_intror Hin)). lia.
Qed.

Lemma nextID_fresh d id p : (id, p) ∈ paths d -> id < nextID d.
Proof.
  intros Hin. unfold nextID.
  assert (Hid : id ∈ (paths d).*1).
  { apply list_elem_of_fmap. by exists (id, p). }
  destruct ((paths d).*1) as [|a ids]; [by apply elem_of_nil in Hid|].
  assert (id <= foldr Z.max a ids); [|lia].
  apply foldr_max_le. apply elem_of_cons in Hid as [->|?]; auto.
Qed.

Lemma resolvePath_Some d p :
  exists d' id, resolvePath d p = Some (d', id)
    /\ selectPathID d' p = Some id
    /\ (id, p) ∈ paths d'
    /\ versions d' = versions d
    /\ (exists extra, paths d' = paths d ++ extra)
    /\ (forall q i, selectPathID d q = Some i -> selectPathID d' q = Some i).
Proof.
  unfold resolvePath. destruct (selectPathID d p) as [id|] eqn:E.
  - exists d, id. repeat split; try done.
    + by apply selectPathID_Some.
    + exists []. by rewrite app_nil_r.
  - rewrite (selectPathID_None_insertPath _ _ E).
    eexists _, _. split; [done|]. repeat split.
    + rewrite selectPathID_app, E. simpl. by rewrite bool_decide_eq_true_2.
    + simpl. apply elem_of_app. right. by apply list_elem_of_singleton.
    + by eexists.
    + intros q i Hq. by rewrite selectPathID_app, Hq.
Qed.

End Paths.

(** ** The two writers *)

Section Writers.
Context `{Lib}.

Lemma insertVersion_Some d id ver ts d' :
  insertVersion d id ver ts = Some d' <->
  is_Some (selectPath d id) /\ versions d !! (id, ver) = None
  /\ d' = mkDB (paths d) (<[(id, ver) := ts]> (versions d)).
Proof.
  unfold insertVersion. destruct (selectPath d id) as [p|].
  - destruct (versions d !! (id, ver)) as [t|].
    + split; [done|]. by intros (_ & ? & _).
    + split; [intros [= <-]; eauto|]. by intros (_ & _ & ->).
  - split; [done|]. by intros ([? ?] & _).
Qed.

Lemma insertOrReplaceVersion_Some d id ver ts d' :
  insertOrReplaceVersion d id ver ts = Some d' <->
  is_Some (selectPath d id)
  /\ d' = mkDB (paths d) (<[(id, ver) := ts]> (versions d)).
Proof.
  unfold insertOrReplaceVersion. destruct (selectPath d id) as [p|].
  - split; [intros [= <-]; eauto|]. by intros (_ & ->).
  - split; [done|]. by intros ([? ?] & _).
Qed.

Lemma insert_then_replace d id ver ts d' :
  insertVersion d id ver ts = Some d' ->
  insertOrReplaceVersion d id ver ts = Some d'.
Proof.
  intros (? & _ & ->)%insertVersion_Some.
  by apply insertOrReplaceVersion_Some.
Qed.

Lemma keyTaken_resolvePath d p d' id v :
  resolvePath d p = Some (d', id) -> keyTaken d v -> keyTaken d' v.
Proof.
  intros Hr (i & Hi & Hv).
  destruct (resolvePath_Some d p) as (d1 & id1 & Hr1 & _ & _ & Hvs & _ & Hst).
  rewrite Hr in Hr1. injection Hr1 as <- <-.
  exists i. split; [by apply Hst|]. by rewrite Hvs.
Qed.

(** A batch that holds a record whose pair is taken cannot be written by
    plain inserts. *)
Lemma insertRows_taken tx vs v :
  v ∈ vs -> keyTaken tx v -> is_Some (modindex.insertRows tx vs).2.
Proof.
  revert tx. induction vs as [|u rest IH]; intros tx Hin Hk.
  { by apply elem_of_nil in Hin. }
  cbn [modindex.insertRows].
  destruct (resolvePath_Some tx (Path u)) as (tx1 & id & Hr & Hsel & _ & Hvs & _ & Hst).
  rewrite Hr.
  pose proof (keyTaken_resolvePath _ _ _ _ _ Hr Hk) as Hk1.
  destruct (insertVersion tx1 id (Version u) (Format (Timestamp u))) as [tx2|] eqn:Hins;
    [|by eexists].
  apply insertVersion_Some in Hins as (_ & Hfree & ->).
  apply elem_of_cons in Hin as [->|Hin].
  - destruct Hk1 as (i & Hi & Hv). rewrite Hsel in Hi. injection Hi as <-.
    rewrite Hfree in Hv. by destruct Hv.
  - apply IH; [done|]. destruct Hk1 as (i & Hi & Hv).
    exists i. split; [done|]. simpl.
    destruct (decide ((id, Version u) = (i, Version v))) as [->|Hne].
    + rewrite lookup_insert_eq. by eexists.
    + by rewrite lookup_insert_ne.
Qed.

(** What a batch of plain inserts that succeeds leaves behind. *)
Lemma insertRows_ok tx vs tx' :
  modindex.insertRows tx vs = (tx', None) ->
  (exists extra, paths tx' = paths tx ++ extra)
  /\ (forall q i, selectPathID tx q = Some i -> selectPathID tx' q = Some i)
  /\ (forall k t, versions tx !! k = Some t -> versions tx' !! k = Some t)
  /\ (forall v, v ∈ vs -> stored tx' v).
Proof.
  revert tx. induction vs as [|u rest IH]; intros tx.
  - cbn. intros [= <-]. repeat split; try done.
    + exists []. by rewrite app_nil_r.
    + by intros v ?%elem_of_nil.
  - cbn [modindex.insertRows].
    destruct (resolvePath_Some tx (Path u)) as (tx1 & id & Hr & Hsel & _ & Hvs & [e1 He1] & Hst).
    rewrite Hr.
    destruct (insertVersion tx1 id (Version u) (Format (Timestamp u))) as [tx2|] eqn:Hins;
      [|done].
    apply insertVersion_Some in Hins as (_ & Hfree & ->).
    intros Hrest. destruct (IH _ Hrest) as ([e2 He2] & Hst2 & Hvs2 & Hall).
    simpl in *. repeat split.
    + exists (e1 ++ e2). by rewrite He2, He1, app_assoc.
    + intros q i Hq. apply Hst2. unfold selectPathID in *. simpl. by apply Hst.
    + intros k t Hk. apply Hvs2. rewrite <- Hvs in Hk.
      destruct (decide ((id, Version u) = k)) as [<-|Hne]; [congruence|].
      by rewrite lookup_insert_ne.
    + intros v [->|Hin]%elem_of_cons; [|by apply Hall].
      exists id. split.
      * apply Hst2. unfold selectPathID in *. simpl. done.
      * apply Hvs2. by rewrite lookup_insert_eq.
Qed.

End Writers.

Section Inline.
Context `{Lib}.

Lemma sameRecord_eq v u : sameRecord v u = true <-> v = u.
Proof.
  unfold sameRecord. rewrite !andb_true_iff, !bool_decide_eq_true.
  destruct v, u; simpl. split; [intros [[-> ->] ->]; done|by intros [= -> -> ->]].
Qed.

(** Past the first record the inline loop writes every record, and no
    statement of it fails. *)
Lemma writeRows_rest last p vs tx cov :
  let r := indexcmd.writeRows last (Some p) vs tx cov in
  indexcmd.txErr r = None /\ indexcmd.txWritten r = vs /\ indexcmd.txStderr r = [].
Proof.
  revert p tx cov. induction vs as [|v rest IH]; intros p tx cov; [done|].
  cbn [indexcmd.writeRows]. rewrite bool_decide_eq_false_2 by done.
  cbn [andb].
  destruct (resolvePath_Some tx (Path v)) as (tx1 & id & Hr & _ & Hin & _).
  rewrite Hr.
  destruct (selectPath_is_Some _ _ _ Hin) as [q Hq].
  unfold insertOrReplaceVersion. rewrite Hq.
  match goal with |- context [indexcmd.writeRows last (Some v) rest ?t ?c] =>
    destruct (IH v t c) as (He & Hw & Hs) end.
  cbn. rewrite He, Hw, Hs. done.
Qed.

(** The rows written do not depend on the span counter nor on which record
    came before. *)
Lemma writeRows_db last p p' vs tx cov cov' :
  indexcmd.txDB (indexcmd.writeRows last (Some p) vs tx cov)
  = indexcmd.txDB (indexcmd.writeRows last (Some p') vs tx cov').
Proof.
  revert p p' tx cov cov'. induction vs as [|v rest IH]; intros; [done|].
  cbn [indexcmd.writeRows]. rewrite !bool_decide_eq_false_2 by done.
  cbn [andb].
  destruct (resolvePath tx (Path v)) as [[tx1 id]|]; [|done].
  destruct (insertOrReplaceVersion tx1 id _ _); [|done].
  cbn. apply IH.
Qed.

(** Where plain inserts succeed, inserting or replacing writes the same rows. *)
Lemma writeRows_insertRows last p vs tx cov tx' :
  modindex.insertRows tx vs = (tx', None) ->
  indexcmd.txDB (indexcmd.writeRows last (Some p) vs tx cov) = tx'.
Proof.
  revert p tx cov. induction vs as [|v rest IH]; intros p tx cov.
  - by intros [= <-].
  - cbn [modindex.insertRows indexcmd.writeRows].
    rewrite bool_decide_eq_false_2 by done. cbn [andb].
    destruct (resolvePath tx (Path v)) as [[tx1 id]|]; [|done].
    destruct (insertVersion tx1 id _ _) as [tx2|] eqn:Hins; [|done].
    rewrite (insert_then_replace _ _ _ _ _ Hins). cbn. apply IH.
Qed.

(** At the first record the inline loop makes the choice that
    [versionsToInsert] makes. *)
Lemma writeRows_first last v rest tx cov :
  exists toInsert bug cov',
    modindex.versionsToInsert last (v :: rest) = Some (toInsert, bug)
    /\ let r := indexcmd.writeRows last None (v :: rest) tx cov in
       indexcmd.txErr r = None /\ indexcmd.txWritten r = toInsert /\ indexcmd.txStderr r = bug
       /\ indexcmd.txDB r = indexcmd.txDB (indexcmd.writeRows last (Some v) toInsert tx cov').
Proof.
  unfold modindex.versionsToInsert. cbn [indexcmd.writeRows].
  rewrite bool_decide_eq_true_2 by done. cbn [andb].
  destruct (IsZero (Timestamp last)); cbn [negb andb];
    [|destruct (sameRecord v last)].
  - exists (v :: rest), [], cov. split; [done|].
    cbn [indexcmd.writeRows]. rewrite bool_decide_eq_false_2 by done. cbn [andb].
    destruct (resolvePath_Some tx (Path v)) as (tx1 & id & Hr & _ & Hin & _).
    rewrite Hr. destruct (selectPath_is_Some _ _ _ Hin) as [q Hq].
    unfold insertOrReplaceVersion. rewrite Hq.
    match goal with |- context [indexcmd.writeRows last (Some v) rest ?t ?c] =>
      destruct (writeRows_rest last v rest t c) as (He & Hw & Hs) end.
    cbn. rewrite He, Hw, Hs. repeat split; try done.
    apply writeRows_db.
  - exists rest, [], cov. split; [done|].
    destruct (writeRows_rest last v rest tx cov) as (He & Hw & Hs).
    cbn. by rewrite He, Hw, Hs.
  - exists (v :: rest), [EvStderr (bugLine last v)], cov. split; [done|].
    cbn [indexcmd.writeRows]. rewrite bool_decide_eq_false_2 by done. cbn [andb].
    destruct (resolvePath_Some tx (Path v)) as (tx1 & id & Hr & _ & Hin & _).
    rewrite Hr. destruct (selectPath_is_Some _ _ _ Hin) as [q Hq].
    unfold insertOrReplaceVersion. rewrite Hq.
    match goal with |- context [indexcmd.writeRows last (Some v) rest ?t ?c] =>
      destruct (writeRows_rest last v rest t c) as (He & Hw & Hs) end.
    cbn. rewrite He, Hw, Hs. repeat split; try done.
    apply writeRows_db.
Qed.

End Inline.

(** ** One iteration *)

Section Iteration.
Context `{Lib}.

Lemma inserts_app evs evs' : inserts (evs ++ evs') = inserts evs ++ inserts evs'.
Proof. apply omap_app. Qed.

Lemma observable_app evs evs' :
  observable (evs ++ evs') = observable evs ++ observable evs'.
Proof. apply omap_app. Qed.

Lemma fetches_app evs evs' : fetches (evs ++ evs') = fetches evs ++ fetches evs'.
Proof. apply omap_app. Qed.

Lemma versionsToInsert_same last v rest :
  cursorSet last -> sameRecord v last = true ->
  modindex.versionsToInsert last (v :: rest) = Some (rest, []).
Proof. unfold modindex.versionsToInsert, cursorSet. by intros -> ->. Qed.

Lemma versionsToInsert_other last v rest :
  cursorSet last -> sameRecord v last = false ->
  modindex.versionsToInsert last (v :: rest)
  = Some (v :: rest, [EvStderr (bugLine last v)]).
Proof. unfold modindex.versionsToInsert, cursorSet. by intros -> ->. Qed.

Lemma upToDateTest_true last vs :
  indexcmd.upToDateTest last vs = true <-> vs = [] \/ vs = [last].
Proof.
  destruct vs as [|v [|u rest]]; simpl.
  - split; [by left|done].
  - rewrite sameRecord_eq. split; [intros ->; by right|].
    by intros [?|[= ->]].
  - split; [done|]. by intros [?|?].
Qed.

(** The table of an iteration holds no other event. *)
Lemma progress_quiet (o : option Report) :
  let evs := match o with Some r => [EvProgress r] | None => [] end in
  inserts evs = [] /\ observable evs = [] /\ fetches evs = [].
Proof. by destruct o. Qed.

End Iteration.

Ltac quiet_progress :=
  repeat match goal with
  | |- context [match ?o with Some r => [EvProgress r] | None => [] end] =>
      destruct o
  end.

Section Merge.
Context `{Lib}.

(** C2. When the cursor is set and the first fetched record equals it on
    path, version and timestamp, the merge drops that record: what is
    written is the rest of the fetched list, in order, by the refactored
    engine and by the inline one. *)
Theorem C2_overlap_record_dropped w start n st v rest :
  cursorSet (last st) ->
  sameRecord v (last st) = true ->
  GetVersions w n (Timestamp (last st)) 2000 = Some (v :: rest) ->
  modindex.versionsToInsert (last st) (v :: rest) = Some (rest, [])
  /\ inserts (modindex.iteration w start n st).1
     = (if rest is [] then [] else [rest])
  /\ inserts (indexcmd.iteration w start n st).1
     = (if rest is [] then [] else [rest]).
Proof.
  intros Hset Hsame Hget.
  pose proof (versionsToInsert_same _ _ rest Hset Hsame) as Hvti.
  split; [done|]. split.
  - unfold modindex.iteration. rewrite Hget, Hvti.
    destruct rest as [|u rest'].
    + by quiet_progress.
    + destruct (modindex.insertVersions _ _) as [c [e|]]; by quiet_progress.
  - unfold indexcmd.iteration. rewrite Hget.
    destruct rest as [|u rest'].
    + cbn [indexcmd.upToDateTest]. rewrite Hsame. by quiet_progress.
    + cbn [indexcmd.upToDateTest].
      destruct (writeRows_first (last st) v (u :: rest') (committed (conn st))
                  (covered st)) as (ti & bug & cov' & Hv & He & Hw & Hs & _).
      rewrite Hvti in Hv. injection Hv as <- <-.
      rewrite He, Hw, Hs. by quiet_progress.
Qed.

End Merge.

Section Termination.
Context `{Lib}.

(** With the cursor set, an empty answer of the server makes the
    refactored engine evaluate [versions[0]] on an empty slice. *)
Lemma modindex_empty_fetch_panics w start n st :
  cursorSet (last st) ->
  GetVersions w n (Timestamp (last st)) 2000 = Some [] ->
  (modindex.iteration w start n st).2 = Stop Panicked (conn st).
Proof.
  intros Hset Hget. unfold modindex.iteration, modindex.versionsToInsert.
  by rewrite Hget, Hset.
Qed.

(** The two answers that end the refactored engine's loop: nothing while
    the cursor is unset, the cursor's record alone while it is set. *)
Lemma modindex_up_to_date w start n st vs :
  GetVersions w n (Timestamp (last st)) 2000 = Some vs ->
  (vs = [] /\ IsZero (Timestamp (last st)) = true)
  \/ (vs = [last st] /\ cursorSet (last st)) ->
  let r := modindex.iteration w start n st in
  r.2 = Stop Done (conn st)
  /\ observable r.1 = [EvFetch (Timestamp (last st)) 2000; EvStdout upToDate].
Proof.
  intros Hget Hvs. unfold modindex.iteration, modindex.versionsToInsert.
  rewrite Hget.
  destruct Hvs as [[-> Hz]|[-> Hset]].
  - rewrite Hz. by quiet_progress.
  - rewrite Hset. assert (sameRecord (last st) (last st) = true) as ->
      by by apply sameRecord_eq.
    by quiet_progress.
Qed.

(** The inline engine ends its loop on both answers, whatever the cursor. *)
Lemma indexcmd_up_to_date w start n st vs :
  GetVersions w n (Timestamp (last st)) 2000 = Some vs ->
  vs = [] \/ vs = [last st] ->
  let r := indexcmd.iteration w start n st in
  r.2 = Stop Done (conn st)
  /\ observable r.1 = [EvFetch (Timestamp (last st)) 2000; EvStdout upToDate].
Proof.
  intros Hget Hvs%upToDateTest_true. unfold indexcmd.iteration.
  rewrite Hget, Hvs. by quiet_progress.
Qed.

End Termination.

(** C1. A store that holds one record, a server that answers with no
    record: the refactored engine fetches once and panics, where the inline
    engine fetches once, prints that the index is up to date and returns
    [nil]; neither writes. *)
Theorem C1_empty_fetch_with_cursor_panics :
  let r := modindex.SynchronizeDatabase (H := rfc3339.lib)
             (sample.always []) sample.start 3 sample.storeA in
  let r' := indexcmd.updateCmd (H := rfc3339.lib)
              (sample.always []) sample.start 3 sample.storeA in
  exit r = Panicked /\ fetches (events r) = [sample.t1] /\ store r = sample.storeA
  /\ exit r' = Done /\ fetches (events r') = [sample.t1] /\ inserts (events r') = []
  /\ store r' = sample.storeA.
Proof. vm_compute. repeat split. Qed.

(** ** The cursor across iterations *)

Section TimeOrder.

Lemma le_refl t : le t t.
Proof. unfold le. lia. Qed.

Lemma le_trans t u v : le t u -> le u v -> le t v.
Proof. unfold le. lia. Qed.

Lemma Before_false t u : Before t u = false <-> le u t.
Proof.
  unfold Before, le. rewrite orb_false_iff, andb_false_iff.
  rewrite !Z.ltb_ge, bool_decide_eq_false. lia.
Qed.

End TimeOrder.

Section Loop.
Context `{Lib}.

Lemma versionsToInsert_subseteq last vs toInsert bug :
  modindex.versionsToInsert last vs = Some (toInsert, bug) ->
  toInsert ⊆ vs.
Proof.
  unfold modindex.versionsToInsert.
  destruct (IsZero _); [by intros [= <- <-]|].
  destruct vs as [|v rest]; [done|].
  destruct (sameRecord v last); intros [= <- <-]; [|done].
  simpl. rewrite drop_0. set_solver.
Qed.

(** What an iteration that goes on has done. *)
Lemma iteration_Continue w start n st evs st' :
  modindex.iteration w start n st = (evs, Continue st') ->
  exists vs toInsert bug first,
    GetVersions w n (Timestamp (last st)) 2000 = Some vs
    /\ modindex.versionsToInsert (last st) vs = Some (toInsert, bug)
    /\ head toInsert = Some first
    /\ list.last toInsert = Some (last st')
    /\ modindex.insertVersions (conn st) toInsert = (conn st', None)
    /\ covered st' = modindex.coveredAfter (last st) (covered st) first (last st')
    /\ observable evs = [EvFetch (Timestamp (last st)) 2000] ++ observable bug
                         ++ [EvInsert toInsert]
    /\ inserts evs = [toInsert].
Proof.
  unfold modindex.iteration.
  destruct (GetVersions w n _ 2000) as [vs|] eqn:Hget; [|done].
  destruct (modindex.versionsToInsert (last st) vs) as [[toInsert bug]|] eqn:Hvti;
    [|done].
  destruct toInsert as [|first rest]; [done|].
  destruct (modindex.insertVersions (conn st) (first :: rest)) as [c [e|]] eqn:Hins;
    [done|].
  intros [= <- <-]. exists vs, (first :: rest), bug, first. cbn [last conn covered].
  assert (Hl : list.last (first :: rest)
               = Some (default first (list.last (first :: rest)))).
  { destruct (list.last (first :: rest)) eqn:E; [done|].
    apply (proj1 (last_None _)) in E. discriminate. }
  repeat split; try done.
  - quiet_progress; unfold observable; simpl; by rewrite omap_app.
  - assert (inserts bug = []) as Hb.
    { revert Hvti. unfold modindex.versionsToInsert.
      destruct (IsZero _); [by intros [= _ <-]|].
      destruct vs as [|v0 ?]; [done|].
      destruct (sameRecord _ _); intros ?; by simplify_eq. }
    quiet_progress; unfold inserts in *; simpl; by rewrite omap_app, Hb.
Qed.





End Loop.

(** ** Batches are written whole or not at all *)

Section Atomic.
Context `{Lib}.

Lemma insertVersions_None c vs c' :
  modindex.insertVersions c vs = (c', None) ->
  modindex.insertRows (committed c) vs = (committed c', None) /\ pending c' = None.
Proof.
  unfold modindex.insertVersions.
  destruct (modindex.insertRows (committed c) vs) as [tx [e|]]; [done|].
  by intros [= <-].
Qed.

(** A write that fails leaves the committed store as it was; the rows it
    had written are in the transaction that stays open. *)
Lemma insertVersions_Some c vs c' e :
  modindex.insertVersions c vs = (c', Some e) ->
  committed c' = committed c
  /\ pending c' = Some (modindex.insertRows (committed c) vs).1.
Proof.
  unfold modindex.insertVersions.
  destruct (modindex.insertRows (committed c) vs) as [tx [e'|]]; [|done].
  by intros [= <- <-].
Qed.

Lemma stored_insertRows tx vs tx' v :
  modindex.insertRows tx vs = (tx', None) -> stored tx v -> stored tx' v.
Proof.
  intros (_ & Hsel & Hrows & _)%insertRows_ok (id & Hid & Hv).
  exists id. split; [by apply Hsel|by apply Hrows].
Qed.

(** An iteration that stops on an error has committed nothing. *)
Lemma iteration_Failed w start n st evs e c :
  modindex.iteration w start n st = (evs, Stop (Failed e) c) ->
  committed c = committed (conn st).
Proof.
  unfold modindex.iteration.
  destruct (GetVersions w n _ 2000) as [vs|]; [|by intros [= _ _ <-]].
  destruct (modindex.versionsToInsert (last st) vs) as [[toInsert bug]|]; [|done].
  destruct toInsert as [|first rest]; [done|].
  destruct (modindex.insertVersions (conn st) (first :: rest)) as [c' [e'|]] eqn:Hins;
    [|done].
  intros [= _ _ <-]. by apply insertVersions_Some in Hins as [? _].
Qed.

(** Every batch that a run has committed is in the store, row by row. *)
Lemma loop_committed w start k n st evs st' :
  modindex.loop w start k n st = (evs, Continue st') ->
  (forall v, stored (committed (conn st)) v -> stored (committed (conn st')) v)
  /\ (forall batch v, batch ∈ inserts evs -> v ∈ batch ->
        stored (committed (conn st')) v).
Proof.
  revert n st evs. induction k as [|k IH]; intros n st evs.
  - intros [= <- <-]. split; [done|]. by intros batch v ?%elem_of_nil.
  - cbn [modindex.loop].
    destruct (modindex.iteration w start n st) as [e1 [s1|e c]] eqn:Hit; [|done].
    destruct (modindex.loop w start k (S n) s1) as [e2 r] eqn:Hl.
    intros [= <- ->]. destruct (IH _ _ _ Hl) as [Hkeep Hnew].
    apply iteration_Continue in Hit
      as (vs & ti & bug & first & _ & _ & _ & _ & Hins & _ & _ & Hi).
    apply insertVersions_None in Hins as [Hrows _].
    split.
    + intros v Hv. apply Hkeep. by eapply stored_insertRows.
    + intros batch v. rewrite inserts_app, Hi, elem_of_app, list_elem_of_singleton.
      intros [->|Hb] Hv; [|by eapply Hnew].
      apply Hkeep. apply insertRows_ok in Hrows as (_ & _ & _ & Hall). by apply Hall.
Qed.

(** C4. When the run stops on an error, the store is the one the last
    committed batch left: it holds nothing the failing batch wrote (a pair
    of that batch is in the store only if it was there before), and every
    record of the batches committed before is still in it. *)
Theorem C4_failed_batch_leaves_nothing w start fuel n st evs e c :
  modindex.loop w start fuel n st = (evs, Stop (Failed e) c) ->
  exists k evs' st' evs'',
    (k < fuel)%nat
    /\ modindex.loop w start k n st = (evs', Continue st')
    /\ modindex.iteration w start (n + k) st' = (evs'', Stop (Failed e) c)
    /\ evs = evs' ++ evs''
    /\ Close c = committed (conn st')
    /\ (forall v, keyTaken (Close c) v -> keyTaken (committed (conn st')) v)
    /\ (forall batch v, batch ∈ inserts evs' -> v ∈ batch -> stored (Close c) v).
Proof.
  revert n st evs. induction fuel as [|fuel IH]; intros n st evs; [done|].
  cbn [modindex.loop].
  destruct (modindex.iteration w start n st) as [e1 [s1|e' c']] eqn:Hit.
  - destruct (modindex.loop w start fuel (S n) s1) as [e2 r] eqn:Hl.
    intros [= <- ->].
    destruct (IH _ _ _ Hl) as (k & evs' & st' & evs'' & Hk & Hlk & Hfail & -> & Hc & Ht & Hb).
    exists (S k), (e1 ++ evs'), st', evs''. repeat split; try done.
    + lia.
    + cbn [modindex.loop]. by rewrite Hit, Hlk.
    + by replace (n + S k)%nat with (S n + k)%nat by lia.
    + by rewrite app_assoc.
    + intros batch v Hbatch Hv. rewrite Hc.
      destruct (loop_committed w start (S k) n st (e1 ++ evs') st') as [_ Hnew].
      { cbn [modindex.loop]. by rewrite Hit, Hlk. }
      by eapply Hnew.
  - intros ?; simplify_eq.
    exists 0%nat, [], st, evs. rewrite Nat.add_0_r.
    pose proof (iteration_Failed _ _ _ _ _ _ _ Hit) as Hc.
    repeat split; try done.
    + lia.
    + unfold Close. by rewrite Hc.
    + by intros batch v ?%elem_of_nil.
Qed.

End Atomic.

(** ** A pair that is already in the store *)

Section Replace.
Context `{Lib}.

Lemma primaryKey_unique d id p q :
  primaryKey d -> (id, p) ∈ paths d -> (id, q) ∈ paths d -> p = q.
Proof.
  unfold primaryKey. induction (paths d) as [|[i r] l IH]; cbn.
  - by intros _ ?%elem_of_nil.
  - intros [Hni Hnd]%NoDup_cons [Hp|Hp]%elem_of_cons [Hq|Hq]%elem_of_cons.
    + congruence.
    + injection Hp as <- <-. destruct Hni. apply list_elem_of_fmap. by exists (id, q).
    + injection Hq as <- <-. destruct Hni. apply list_elem_of_fmap. by exists (id, p).
    + by apply IH.
Qed.

Lemma primaryKey_resolvePath d p d' id :
  primaryKey d -> resolvePath d p = Some (d', id) -> primaryKey d'.
Proof.
  unfold resolvePath, primaryKey. destruct (selectPathID d p) as [i|] eqn:E.
  - by intros ? [= <- _].
  - rewrite (selectPathID_None_insertPath _ _ E). intros Hnd [= <- _]. cbn.
    rewrite fmap_app. apply NoDup_app. split; [done|]. split; [|apply NoDup_singleton].
    intros i [[j q] [-> Hin]]%list_elem_of_fmap ?%list_elem_of_singleton. cbn in *.
    apply nextID_fresh in Hin. lia.
Qed.

(** Writing records of other pairs leaves a row as it is. *)
Lemma writeRows_preserves last p vs tx cov u :
  primaryKey tx -> stored tx u ->
  (forall x, x ∈ vs -> ~ samePair x u) ->
  primaryKey (indexcmd.txDB (indexcmd.writeRows last (Some p) vs tx cov))
  /\ stored (indexcmd.txDB (indexcmd.writeRows last (Some p) vs tx cov)) u.
Proof.
  revert p tx cov. induction vs as [|v rest IH]; intros p tx cov Hpk Hst Hne; [done|].
  cbn [indexcmd.writeRows]. rewrite bool_decide_eq_false_2 by done. cbn [andb].
  destruct (resolvePath_Some tx (Path v)) as (tx1 & id & Hr & Hsel & Hin & Hvs & _ & Hstab).
  rewrite Hr. pose proof (primaryKey_resolvePath _ _ _ _ Hpk Hr) as Hpk1.
  destruct (selectPath_is_Some _ _ _ Hin) as [q Hq].
  unfold insertOrReplaceVersion. rewrite Hq. cbn [indexcmd.txDB].
  apply IH.
  - done.
  - destruct Hst as (i & Hi & Hrow). exists i. split; [by apply Hstab|].
    cbn. rewrite lookup_insert_ne; [by rewrite Hvs|].
    intros [= -> Hver]. apply (Hne v); [by left|]. split; [|done].
    apply Hstab in Hi. apply selectPathID_Some in Hi.
    by eapply primaryKey_unique.
  - intros x Hx. apply Hne. by right.
Qed.

(** The row of a pair holds what the last record written for it brought. *)
Lemma writeRows_stored last p vs tx cov pre u post :
  primaryKey tx -> vs = pre ++ u :: post ->
  (forall x, x ∈ post -> ~ samePair x u) ->
  stored (indexcmd.txDB (indexcmd.writeRows last (Some p) vs tx cov)) u.
Proof.
  revert p tx cov pre. induction vs as [|v rest IH]; intros p tx cov pre Hpk Hvs Hne.
  { by destruct pre. }
  cbn [indexcmd.writeRows]. rewrite bool_decide_eq_false_2 by done. cbn [andb].
  destruct (resolvePath_Some tx (Path v)) as (tx1 & id & Hr & Hsel & Hin & Hvers & _ & Hstab).
  rewrite Hr. pose proof (primaryKey_resolvePath _ _ _ _ Hpk Hr) as Hpk1.
  destruct (selectPath_is_Some _ _ _ Hin) as [q Hq].
  unfold insertOrReplaceVersion. rewrite Hq. cbn [indexcmd.txDB].
  destruct pre as [|v' pre']; injection Hvs as -> ->.
  - apply writeRows_preserves; [done| |done].
    exists id. split; [done|]. cbn. by rewrite lookup_insert_eq.
  - by eapply IH.
Qed.

(** C3, as the code has it. For a batch that holds a record whose pair is
    taken in the store: [insertVersions] of the refactored engine inserts
    plainly, so it fails and the store stays as it was; the transaction of
    the inline engine inserts or replaces, so it does not fail and the row
    of a pair carries the timestamp of the last record written for it. *)
Theorem C3_replace_inline_plain_refactored d batch v :
  v ∈ batch -> keyTaken d v -> primaryKey d ->
  (exists c e, modindex.insertVersions (Open d) batch = (c, Some e) /\ Close c = d)
  /\ (forall last cov,
        let r := indexcmd.writeRows last None batch d cov in
        indexcmd.txErr r = None
        /\ forall pre u post,
             indexcmd.txWritten r = pre ++ u :: post ->
             (forall x, x ∈ post -> ~ samePair x u) ->
             stored (indexcmd.txDB r) u).
Proof.
  intros Hin Hk Hpk. split.
  - destruct (modindex.insertVersions (Open d) batch) as [c [e|]] eqn:Hins.
    + exists c, e. split; [done|]. by apply insertVersions_Some in Hins as [? _].
    + apply insertVersions_None in Hins as [Hrows _].
      destruct (insertRows_taken (committed (Open d)) batch v Hin Hk) as [e He].
      by rewrite Hrows in He.
  - intros last cov. destruct batch as [|b rest]; [by apply elem_of_nil in Hin|].
    destruct (writeRows_first last b rest d cov)
      as (ti & bug & cov' & _ & He & Hw & _ & Hdb).
    cbv zeta. split; [done|]. intros pre u post Hpre Hne.
    rewrite Hdb. eapply writeRows_stored; [done| |done]. by rewrite <- Hw.
Qed.

End Replace.

(** C3, as the claim has it, fails on the refactored engine: the store holds
    the pair of [recA]; writing the batch that brings it again with a later
    timestamp fails on the primary key, and the row keeps the old timestamp. *)
Lemma C3_counterexample :
  keyTaken sample.storeA sample.recA'
  /\ (modindex.insertVersions (H := rfc3339.lib) (Open sample.storeA) [sample.recA']).2
     = Some ErrInsertVersion
  /\ versions (Close (modindex.insertVersions (H := rfc3339.lib)
                        (Open sample.storeA) [sample.recA']).1) !! (1, "v1.0.0")
     = Some (rfc3339.Format sample.t1).
Proof.
  split; [|split; vm_compute; reflexivity].
  exists 1. split; [reflexivity|]. vm_compute. by eexists.
Qed.

(** ** The progress table *)

Section Progress.
Context `{Lib}.

Lemma wrap64_small z : minInt64 <= z <= maxInt64 -> wrap64 z = z.
Proof.
  unfold wrap64, minInt64, maxInt64. intros Hz.
  rewrite Z.mod_small; lia.
Qed.

(** C8, as the code has it. When the cursor is set the table is printed;
    the remaining run time is on it exactly when the covered span is at
    least one whole hour, and is then the open hours times the elapsed
    nanoseconds, wrapped to 64 bits, divided by the covered hours with
    truncation (the exact quotient when the product fits); with a covered
    span of zero or of negative hours it is left out. The inline engine
    prints the same table. *)
Theorem C8_estimate_when_span_positive w start n st :
  cursorSet (last st) ->
  exists r rest,
    modindex.printProgress (last st) start (covered st) (Now w n) = Some r
    /\ indexcmd.progress (last st) start (covered st) (Now w n) = Some r
    /\ (modindex.iteration w start n st).1 = EvProgress r :: rest
    /\ Duration r = Sub (Now w n) start
    /\ HoursDone r = Hours (covered st)
    /\ HoursOpen r = Hours (Sub (Now w n) (Timestamp (last st)))
    /\ (0 < HoursDone r ->
          Remaining r
          = Some (Z.quot (wrap64 (HoursOpen r * Duration r)) (HoursDone r)))
    /\ (0 < HoursDone r ->
          minInt64 <= HoursOpen r * Duration r <= maxInt64 ->
          Remaining r = Some (Z.quot (HoursOpen r * Duration r) (HoursDone r)))
    /\ (HoursDone r <= 0 -> Remaining r = None).
Proof.
  intros Hset.
  assert (exists r, modindex.printProgress (last st) start (covered st) (Now w n)
                    = Some r) as [r Hr].
  { unfold modindex.printProgress. rewrite Hset. by eexists. }
  assert (exists rest, (modindex.iteration w start n st).1 = EvProgress r :: rest)
    as [rest Hrest].
  { unfold modindex.iteration. rewrite Hr.
    destruct (GetVersions w n _ 2000) as [vs|]; [|by eexists].
    destruct (modindex.versionsToInsert _ _) as [[[|first ti] bug]|];
      [by eexists| |by eexists].
    destruct (modindex.insertVersions _ _) as [c [e|]]; by eexists. }
  exists r, rest. split; [done|]. split; [done|]. split; [done|].
  revert Hr. unfold modindex.printProgress. rewrite Hset. intros [= <-].
  cbn [Duration HoursDone HoursOpen Remaining].
  repeat split.
  - intros Hpos. by rewrite (proj2 (Z.ltb_lt _ _) Hpos).
  - intros Hpos Hfit. rewrite (proj2 (Z.ltb_lt _ _) Hpos). by rewrite wrap64_small.
  - intros Hneg. by rewrite (proj2 (Z.ltb_ge _ _) Hneg).
Qed.

End Progress.

(** C8, as the claim has it, fails where the covered span is negative. The
    first answer of the server is out of order, [recC] before the earlier
    [recA]; the second table reports minus two hours done, a span that is not
    zero, and no remaining run time. *)
Lemma C8_counterexample :
  events (modindex.SynchronizeDatabase (H := rfc3339.lib)
            (sample.scripted [[sample.recC; sample.recA]; [sample.recA]])
            sample.start 3 sqlite.empty) !! 2%nat
  = Some (EvProgress (mkReport 600000000000 (sample.clock 1) sample.t1
                        (-2) 58189 None)).
Proof. vm_compute. reflexivity. Qed.

(** ** The two engines side by side *)

Section Agree.
Context `{Lib}.

Lemma versionsToInsert_last last vs toInsert bug :
  modindex.versionsToInsert last vs = Some (toInsert, bug) ->
  toInsert <> [] -> list.last toInsert = list.last vs.
Proof.
  unfold modindex.versionsToInsert.
  destruct (IsZero _); [by intros [= <- <-]|].
  destruct vs as [|v rest]; [done|].
  destruct (sameRecord v last); intros ?; simplify_eq; [|done].
  cbn. rewrite drop_0. destruct rest; [done|]. intros _. by rewrite last_cons_cons.
Qed.

Lemma insertRows_error tx vs e :
  (modindex.insertRows tx vs).2 = Some e ->
  e = ErrInsertPath \/ e = ErrInsertVersion.
Proof.
  revert tx. induction vs as [|v rest IH]; intros tx; [done|].
  cbn [modindex.insertRows].
  destruct (resolvePath tx (Path v)) as [[tx1 id]|]; [|intros [= <-]; by left].
  destruct (insertVersion tx1 id _ _) as [tx2|]; [apply IH|intros [= <-]; by right].
Qed.

Lemma insertVersions_error c vs c' e :
  modindex.insertVersions c vs = (c', Some e) ->
  e = ErrInsertPath \/ e = ErrInsertVersion.
Proof.
  unfold modindex.insertVersions.
  destruct (modindex.insertRows (committed c) vs) as [tx [e'|]] eqn:E; [|done].
  intros [= _ <-]. apply (insertRows_error (committed c) vs). by rewrite E.
Qed.

Lemma observable_progress (o : option Report) evs :
  observable (match o with Some r => [EvProgress r] | None => [] end ++ evs)
  = observable evs.
Proof. by destruct o. Qed.

(** One iteration of each engine, from the same connection and cursor. *)
Lemma iteration_agree w start n s s' evs r :
  answersTimed w -> sameCursor s s' ->
  modindex.iteration w start n s = (evs, r) ->
  (forall e c, r = Stop e c -> shared e) ->
  exists evs' r',
    indexcmd.iteration w start n s' = (evs', r')
    /\ observable evs' = observable evs
    /\ sameStep r r'.
Proof.
  intros Hw [Hc Hl]. unfold modindex.iteration, indexcmd.iteration.
  rewrite <- Hc, <- Hl.
  destruct (GetVersions w n _ 2000) as [vs|] eqn:Hget.
  2:{ intros [= <- <-] _. eexists _, _. split; [done|].
      by rewrite !observable_progress. }
  apply Hw in Hget.
  destruct (modindex.versionsToInsert (last s) vs) as [[toInsert bug]|] eqn:Hvti.
  2:{ intros [= _ <-] Hsh. by destruct (Hsh _ _ eq_refl) as [? _]. }
  destruct toInsert as [|first rest].
  - (* nothing to insert: both engines say the index is up to date *)
    intros [= <- <-] _.
    assert (indexcmd.upToDateTest (last s) vs = true) as ->.
    { revert Hvti. unfold modindex.versionsToInsert.
      destruct (IsZero _); [by intros [= -> _]|].
      destruct vs as [|v [|u l]]; [done| |].
      - cbn. by destruct (sameRecord v (last s)).
      - by destruct (sameRecord v (last s)). }
    assert (bug = []) as ->.
    { revert Hvti. unfold modindex.versionsToInsert.
      destruct (IsZero _); [by intros [= _ <-]|].
      destruct vs as [|v l]; [done|].
      by destruct (sameRecord v (last s)); intros ?; simplify_eq. }
    eexists _, _. split; [done|]. by rewrite !observable_progress.
  - (* a batch to insert *)
    destruct vs as [|v l].
    { apply versionsToInsert_subseteq in Hvti.
      exfalso. eapply not_elem_of_nil, Hvti. by left. }
    assert (indexcmd.upToDateTest (last s) (v :: l) = false) as ->.
    { destruct l as [|u l]; [|done]. cbn.
      destruct (sameRecord v (last s)) eqn:Hsame; [|done].
      apply sameRecord_eq in Hsame as ->.
      apply Forall_cons in Hget as [Hset _]. unfold cursorSet in Hset.
      revert Hvti. unfold modindex.versionsToInsert. rewrite Hset.
      assert (sameRecord (last s) (last s) = true) as -> by by apply sameRecord_eq.
      done. }
    destruct (writeRows_first (last s) v l (committed (conn s)) (covered s'))
      as (ti & bug' & cov' & Hv & He & Hw' & Hs & Hdb).
    rewrite Hvti in Hv. injection Hv as <- <-.
    rewrite He, Hw', Hs.
    destruct (modindex.insertVersions (conn s) (first :: rest)) as [c [e|]] eqn:Hins.
    + intros [= _ <-] Hsh. destruct (Hsh _ _ eq_refl) as (_ & Hv & Hp).
      by apply insertVersions_error in Hins as [-> | ->].
    + intros [= <- <-] _.
      apply insertVersions_None in Hins as [Hrows Hpend].
      eexists _, _. split; [done|]. split.
      * by rewrite !observable_progress.
      * unfold sameStep, sameCursor. cbn [conn last]. split.
        -- rewrite Hdb. erewrite writeRows_insertRows by exact Hrows.
           destruct c as [cd cp]. cbn in *. by subst.
        -- rewrite <- (versionsToInsert_last _ _ _ _ Hvti) by done.
           destruct (list.last (first :: rest)) eqn:E; [done|].
           apply (proj1 (last_None _)) in E. discriminate.
Qed.

Lemma loop_agree w start fuel n s s' evs r :
  answersTimed w -> sameCursor s s' ->
  modindex.loop w start fuel n s = (evs, r) ->
  (forall e c, r = Stop e c -> shared e) ->
  exists evs' r',
    indexcmd.loop w start fuel n s' = (evs', r')
    /\ observable evs' = observable evs
    /\ sameStep r r'.
Proof.
  intros Hw. revert n s s' evs r.
  induction fuel as [|fuel IH]; intros n s s' evs r Hss.
  - intros [= <- <-] _. by eexists _, _.
  - cbn [modindex.loop indexcmd.loop].
    destruct (modindex.iteration w start n s) as [e1 r1] eqn:Hit.
    destruct r1 as [s1|e c].
    + destruct (modindex.loop w start fuel (S n) s1) as [e2 r2] eqn:Hl.
      intros [= <- <-] Hsh.
      destruct (iteration_agree _ _ _ _ _ _ _ Hw Hss Hit) as (e1' & r1' & -> & Ho & Hst);
        [done|].
      destruct r1' as [s1'|]; [|done].
      destruct (IH _ _ _ _ _ Hst Hl Hsh) as (e2' & r2' & -> & Ho2 & Hst2).
      eexists _, _. split; [done|]. by rewrite !observable_app, Ho, Ho2.
    + intros [= <- <-] Hsh.
      destruct (iteration_agree _ _ _ _ _ _ _ Hw Hss Hit) as (e1' & r1' & -> & Ho & Hst);
        [done|].
      destruct r1' as [|e' c']; [done|]. destruct Hst as [<- <-].
      by eexists _, _.
Qed.

(** C9, as the code has it. Over answers of the server that carry no zero
    timestamp, a run of the refactored engine that neither panics nor
    fails in its writer is matched by the inline engine: the same calls,
    the same lines, the same batches written, the same end and the same
    store. *)
Theorem C9_engines_agree_on_shared_runs w start fuel d :
  answersTimed w ->
  shared (exit (modindex.SynchronizeDatabase w start fuel d)) ->
  let r := modindex.SynchronizeDatabase w start fuel d in
  let r' := indexcmd.updateCmd w start fuel d in
  observable (events r') = observable (events r)
  /\ inserts (events r') = inserts (events r)
  /\ exit r' = exit r
  /\ store r' = store r.
Proof.
  intros Hw. unfold modindex.SynchronizeDatabase, indexcmd.updateCmd.
  change (indexcmd.lastRow d) with (modindex.lastVersionInfo d).
  destruct (modindex.lastVersionInfo d) as [l [e|]]; [done|].
  destruct (modindex.loop w start fuel 0 (mkState (Open d) l 0)) as [evs r] eqn:Hl.
  intros Hsh.
  destruct (loop_agree w start fuel 0%nat _ (mkState (Open d) l 0) evs r Hw
              (conj eq_refl eq_refl) Hl) as (evs' & r' & -> & Ho & Hst).
  { intros e c ->. exact Hsh. }
  assert (Hins : forall a b, observable a = observable b -> inserts a = inserts b).
  { clear. intros a b E.
    assert (Hio : forall x, inserts x = inserts (observable x)).
    { unfold inserts, observable.
      induction x as [|[] x IHx]; cbn; congruence. }
    by rewrite (Hio a), (Hio b), E. }
  destruct r as [s|e c], r' as [s'|e' c']; try done; cbn in *.
  - destruct Hst as [-> _]. auto.
  - destruct Hst as [-> ->]. auto.
Qed.

End Agree.

(** C9, as the claim has it, fails: the first answer of the server brings
    the pair of [recA] twice. The refactored engine stops on the primary key
    and leaves the store empty; the inline engine replaces the row, goes on
    and ends with one row. *)
Lemma C9_counterexample :
  let w := sample.scripted [[sample.recA; sample.recA']] in
  let r := modindex.SynchronizeDatabase (H := rfc3339.lib) w sample.start 3 sqlite.empty in
  let r' := indexcmd.updateCmd (H := rfc3339.lib) w sample.start 3 sqlite.empty in
  exit r = Failed ErrInsertVersion /\ store r = sqlite.empty
  /\ exit r' = Done
  /\ versions (store r') !! (1, "v1.0.0") = Some (rfc3339.Format sample.t3).
Proof. vm_compute. repeat split. Qed.

(** ** The layout round-trips *)

Section RFC3339.
Import rfc3339.

Lemma yearOf_spec n :
  daysBefore (yearOf n) <= n < daysBefore (yearOf n + 1).
Proof.
  unfold yearOf.
  set (y := 400 * n / 146097 + 1).
  assert (Hy : 146097 * (y - 1) <= 400 * n < 146097 * y).
  { unfold y. pose proof (Z.mul_div_le (400 * n) 146097).
    pose proof (Z.mul_succ_div_gt (400 * n) 146097). lia. }
  clearbody y.
  destruct (Z.ltb_spec n (daysBefore y)); [|destruct (Z.leb_spec (daysBefore (y + 1)) n)].
  - unfold daysBefore in *. split; [|replace (y - 1 + 1 - 1) with (y - 1) by lia; lia].
    Z.div_mod_to_equations; lia.
  - unfold daysBefore in *. split; [lia|]. Z.div_mod_to_equations; lia.
  - lia.
Qed.

Lemma daysBefore_succ y :
  daysBefore (y + 1) = daysBefore y + (if isLeap y then 366 else 365).
Proof.
  unfold daysBefore, isLeap. replace (y + 1 - 1) with y by lia.
  destruct (Z.eqb_spec (y mod 4) 0), (Z.eqb_spec (y mod 100) 0),
    (Z.eqb_spec (y mod 400) 0); cbn; Z.div_mod_to_equations; lia.
Qed.

Ltac month_table :=
  cbn in *;
  repeat match goal with
  | |- context [daysBeforeMonth (?a + 1) ?l] =>
      let v := eval vm_compute in (daysBeforeMonth (a + 1) l) in
      change (daysBeforeMonth (a + 1) l) with v
  end.

Lemma monthOf_spec doy (leap : bool) :
  0 <= doy < 365 + (if leap then 1 else 0) ->
  let m := monthOf doy leap in
  1 <= m <= 12
  /\ daysBeforeMonth m leap <= doy < daysBeforeMonth (m + 1) leap.
Proof.
  intros Hd. unfold monthOf. cbn [find].
  repeat match goal with
  | |- context [if ?a <=? ?b then _ else _] =>
      destruct (Z.leb_spec a b); [destruct leap; month_table; lia|]
  end.
  destruct leap; month_table; lia.
Qed.

Lemma daysIn_eq m y :
  daysIn m y = daysBeforeMonth (m + 1) (isLeap y) - daysBeforeMonth m (isLeap y).
Proof. reflexivity. Qed.

Lemma digitVal_digitChar k : 0 <= k <= 9 -> digitVal (digitChar k) = Some k.
Proof.
  intros Hk.
  assert (k = 0 \/ k = 1 \/ k = 2 \/ k = 3 \/ k = 4 \/ k = 5 \/ k = 6 \/ k = 7
          \/ k = 8 \/ k = 9) as Hc by lia.
  repeat (destruct Hc as [->|Hc]; [reflexivity|]). by subst.
Qed.

Lemma append_cons a (s r : string) : String a s +:+ r = String a (s +:+ r).
Proof. reflexivity. Qed.

Lemma append_nil (r : string) : EmptyString +:+ r = r.
Proof. reflexivity. Qed.

Lemma num2_pad2 n rest : 0 <= n < 100 -> num2 (pad2 n +:+ rest) = Some (n, rest).
Proof.
  intros Hn. unfold pad2, num2. rewrite !append_cons, append_nil.
  rewrite !digitVal_digitChar by (Z.div_mod_to_equations; lia).
  cbn. do 2 f_equal. Z.div_mod_to_equations; lia.
Qed.

Lemma append_assoc (a b c : string) : (a +:+ b) +:+ c = a +:+ (b +:+ c).
Proof. induction a as [|x a IH]; [done|]. by rewrite !append_cons, IH. Qed.

Lemma num4_pad4 n rest : 0 <= n <= 9999 -> num4 (pad4 n +:+ rest) = Some (n, rest).
Proof.
  intros Hn. unfold pad4, num4. rewrite append_assoc.
  rewrite num2_pad2 by (Z.div_mod_to_equations; lia). cbn.
  rewrite num2_pad2 by (Z.div_mod_to_equations; lia). cbn.
  do 2 f_equal. Z.div_mod_to_equations; lia.
Qed.

Lemma yearText_pad4 y : 0 <= y <= 9999 -> yearText y = pad4 y.
Proof.
  intros Hy. unfold yearText, wide.
  destruct (Z.ltb_spec y 0); [lia|]. destruct (Z.leb_spec y 9999); [done|lia].
Qed.

Lemma inRange_ok lo x hi : lo <= x <= hi -> inRange lo x hi = Some tt.
Proof.
  intros Hx. unfold inRange.
  destruct (Z.leb_spec lo x), (Z.leb_spec x hi); try lia. done.
Qed.

(** *** The fraction *)

Lemma trimZeros_zeros ds : exists k, ds = trimZeros ds ++ replicate k 0.
Proof.
  induction ds as [|d rest [k IH]]; [by exists 0%nat|].
  cbn [trimZeros]. destruct (trimZeros rest) as [|x l] eqn:E.
  - cbn in IH. destruct (Z.eqb_spec d 0) as [->|Hd].
    + exists (S k). cbn. by rewrite IH.
    + exists k. cbn. by rewrite IH.
  - exists k. cbn. by rewrite IH.
Qed.

Lemma value_zeros ds k : value (ds ++ replicate k 0) = value ds * 10 ^ Z.of_nat k.
Proof.
  unfold value. induction k as [|k IH].
  - cbn. rewrite app_nil_r. lia.
  - rewrite replicate_S_end, app_assoc, foldl_app. cbn [foldl].
    rewrite IH. rewrite Nat2Z.inj_succ, Z.pow_succ_r by lia. lia.
Qed.

Lemma nanos_trimZeros ds :
  (length ds <= 9)%nat ->
  nanos (trimZeros ds) = value ds * 10 ^ (9 - Z.of_nat (length ds)).
Proof.
  intros Hlen. destruct (trimZeros_zeros ds) as [k Hk].
  remember (trimZeros ds) as t eqn:Ht. clear Ht. subst ds.
  rewrite length_app, length_replicate in *.
  unfold nanos. rewrite take_ge by lia. 
  rewrite value_zeros, <- Z.mul_assoc, <- Z.pow_add_r by lia.
  do 2 f_equal. lia.
Qed.

Lemma value_digits9 ns : 0 <= ns < 1000000000 -> value (digits9 ns) = ns.
Proof.
  intros Hns. unfold value, digits9. cbn [foldl].
  Z.div_mod_to_equations. lia.
Qed.

Lemma digitsOf_digitsText ds :
  Forall (fun d => 0 <= d <= 9) ds ->
  digitsOf (digitsText ds +:+ "Z") = (ds, "Z"%string).
Proof.
  induction 1 as [|d ds Hd _ IH]; [done|].
  cbn [digitsText]. rewrite append_cons. cbn [digitsOf].
  by rewrite digitVal_digitChar, IH.
Qed.

Lemma fraction_fracText ns :
  0 <= ns < 1000000000 -> fraction (fracText ns +:+ "Z") = (ns, "Z"%string).
Proof.
  intros Hns. unfold fracText.
  assert (Hall : Forall (fun d => 0 <= d <= 9) (digits9 ns)).
  { unfold digits9. repeat constructor; Z.div_mod_to_equations; lia. }
  pose proof (nanos_trimZeros (digits9 ns)) as Hn.
  rewrite value_digits9 in Hn by done. cbn [length digits9] in Hn.
  specialize (Hn ltac:(lia)). change (9 - Z.of_nat 9) with 0 in Hn.
  rewrite Z.pow_0_r, Z.mul_1_r in Hn.
  destruct (trimZeros_zeros (digits9 ns)) as [k Hk].
  assert (Htrim : Forall (fun d => 0 <= d <= 9) (trimZeros (digits9 ns))).
  { rewrite Hk in Hall. by apply Forall_app in Hall as [? _]. }
  destruct (trimZeros (digits9 ns)) as [|d ds] eqn:E.
  - rewrite append_nil. cbn. f_equal. rewrite <- Hn. reflexivity.
  - rewrite append_cons. cbn [fraction]. change (Ascii.eqb "." ".") with true. cbn iota.
    rewrite (digitsOf_digitsText (d :: ds)) by done. by rewrite Hn.
Qed.

Lemma daysBefore_mono a b : a <= b -> daysBefore a <= daysBefore b.
Proof. unfold daysBefore. intros. Z.div_mod_to_equations. lia. Qed.

Lemma expect_cons c rest : expect c (String c rest) = Some rest.
Proof. cbn. by rewrite Ascii.eqb_refl. Qed.

Lemma Parse_Format t : representable t -> Parse (Format t) = Some t.
Proof.
  intros (Hsec & Hns & Hloc). unfold Format. rewrite Hloc. cbn [offsetOf].
  change (zoneText 0) with "Z". rewrite Z.add_0_r.
  set (days := sec t / 86400). set (sod := sec t mod 86400).
  set (y := yearOf days). set (doy := days - daysBefore y).
  set (m := monthOf doy (isLeap y)).
  set (d := doy - daysBeforeMonth m (isLeap y) + 1).
  assert (Hdays : daysBefore 0 <= days < daysBefore 10000).
  { unfold days. Z.div_mod_to_equations. lia. }
  assert (Hsod : 0 <= sod < 86400) by (unfold sod; Z.div_mod_to_equations; lia).
  pose proof (yearOf_spec days) as Hy. fold y in Hy.
  assert (Hyr : 0 <= y <= 9999).
  { split.
    - destruct (Z.le_gt_cases 0 y) as [|Hlt]; [done|].
      pose proof (daysBefore_mono (y + 1) 0 ltac:(lia)). lia.
    - destruct (Z.le_gt_cases y 9999) as [|Hgt]; [done|].
      pose proof (daysBefore_mono 10000 y ltac:(lia)). lia. }
  assert (Hdoy : 0 <= doy < 365 + (if isLeap y then 1 else 0)).
  { unfold doy. rewrite daysBefore_succ in Hy. destruct (isLeap y); lia. }
  destruct (monthOf_spec doy (isLeap y) Hdoy) as [Hm Hmd]. fold m in Hm, Hmd.
  assert (Hd : 1 <= d <= daysIn m y) by (rewrite daysIn_eq; unfold d; lia).
  assert (Hd31 : daysIn m y <= 31).
  { rewrite daysIn_eq.
    assert (m = 1 \/ m = 2 \/ m = 3 \/ m = 4 \/ m = 5 \/ m = 6 \/ m = 7 \/ m = 8
            \/ m = 9 \/ m = 10 \/ m = 11 \/ m = 12) as Hc by lia.
    clear -Hc. generalize dependent m. intros m Hc.
    repeat (destruct Hc as [->|Hc]; [destruct (isLeap y); vm_compute; discriminate|]).
    subst. destruct (isLeap y); vm_compute; discriminate. }
  unfold Parse.
  rewrite yearText_pad4, num4_pad4 by done. cbn [mbind option_bind].
  rewrite append_cons, append_nil, expect_cons. cbn [mbind option_bind].
  rewrite num2_pad2 by lia. cbn [mbind option_bind].
  rewrite append_cons, append_nil, expect_cons. cbn [mbind option_bind].
  rewrite num2_pad2 by lia. cbn [mbind option_bind].
  rewrite append_cons, append_nil, expect_cons. cbn [mbind option_bind].
  rewrite num2_pad2 by (Z.div_mod_to_equations; lia). cbn [mbind option_bind].
  rewrite append_cons, append_nil, expect_cons. cbn [mbind option_bind].
  rewrite num2_pad2 by (Z.div_mod_to_equations; lia). cbn [mbind option_bind].
  rewrite append_cons, append_nil, expect_cons. cbn [mbind option_bind].
  rewrite num2_pad2 by (Z.div_mod_to_equations; lia). cbn [mbind option_bind].
  rewrite !inRange_ok by (try lia; Z.div_mod_to_equations; lia).
  cbn [mbind option_bind].
  rewrite fraction_fracText by done.
  rewrite bool_decide_eq_true_2 by done.
  destruct t as [s ns l]. cbn [sec nsec loc] in *. subst l. f_equal. f_equal.
  unfold d, doy, days, sod in *. Z.div_mod_to_equations. lia.
Qed.

(** What [Parse] reads, [ParseZoned] reads as the same value. *)
Lemma ParseZoned_Parse place s t : Parse s = Some t -> ParseZoned place s = Some t.
Proof.
  unfold Parse, ParseZoned. intros Hp.
  repeat match type of Hp with
         | (?o ≫= _) = _ =>
             let x := fresh "x" in
             destruct o as [x|]; [|done];
             lazymatch type of x with
             | (_ * _)%type => destruct x as [? ?]
             | _ => idtac
             end;
             cbn [mbind option_bind] in Hp |- *
         end.
  destruct (fraction _) as [ns s']. by case_bool_decide.
Qed.

Lemma ParseZoned_Format place t :
  representable t -> rfc3339.ParseZoned place (rfc3339.Format t) = Some t.
Proof. intros Hrep. by apply ParseZoned_Parse, Parse_Format. Qed.

End RFC3339.

(** ** The cursor after a restart *)

Section Cursor.
Context `{Lib}.

Lemma maxRow_elem_of rows r : maxRow rows = Some r -> r ∈ rows.
Proof.
  revert r. induction rows as [|x rest IH]; intros r; [done|].
  cbn [maxRow]. destruct (maxRow rest) as [m|].
  - destruct (String.ltb m.2 x.2); intros [= <-]; [by left|].
    right. by apply IH.
  - intros [= <-]. by left.
Qed.

Lemma selectPath_Some d id p : selectPath d id = Some p -> (id, p) ∈ paths d.
Proof.
  unfold selectPath. destruct (find _ _) as [[i q]|] eqn:E; [|done].
  intros [= <-]. apply find_some in E as [Hin Hq].
  apply bool_decide_eq_true in Hq; cbn in Hq; subst.
  by apply list_elem_of_In.
Qed.

Lemma joined_elem_of d p ver text :
  (p, ver, text) ∈ joined d ->
  exists id, versions d !! (id, ver) = Some text /\ (id, p) ∈ paths d.
Proof.
  unfold joined. intros ([[id ver'] text'] & Hin & Hrow)%list_elem_of_omap.
  apply elem_of_map_to_list in Hin. cbn in Hrow.
  destruct (selectPath d id) as [q|] eqn:Hq; [|done].
  injection Hrow as -> -> ->. exists id. split; [done|].
  by apply selectPath_Some.
Qed.

Lemma joined_intro d id ver text q :
  versions d !! (id, ver) = Some text -> selectPath d id = Some q ->
  (q, ver, text) ∈ joined d.
Proof.
  intros Hrow Hq. unfold joined. apply list_elem_of_omap.
  exists ((id, ver), text). split; [by apply elem_of_map_to_list|].
  cbn. by rewrite Hq.
Qed.

Lemma maxRow_None rows : maxRow rows = None -> rows = [].
Proof.
  destruct rows as [|x rest]; [done|]. cbn [maxRow].
  destruct (maxRow rest) as [m|]; [|done]. by destruct (String.ltb m.2 x.2).
Qed.

Lemma uniquePath_unique d i j p :
  uniquePath d -> (i, p) ∈ paths d -> (j, p) ∈ paths d -> i = j.
Proof.
  unfold uniquePath. induction (paths d) as [|[k q] l IH]; cbn.
  - by intros _ ?%elem_of_nil.
  - intros [Hni Hnd]%NoDup_cons [Hi|Hi]%elem_of_cons [Hj|Hj]%elem_of_cons.
    + congruence.
    + injection Hi as <- <-. destruct Hni. apply list_elem_of_fmap. by exists (j, p).
    + injection Hj as <- <-. destruct Hni. apply list_elem_of_fmap. by exists (i, p).
    + by apply IH.
Qed.

Lemma selectPathID_None d p : selectPathID d p = None -> p ∉ (paths d).*2.
Proof.
  unfold selectPathID. destruct (find _ _) as [r|] eqn:E; [done|].
  intros _ [[i q] [-> Hin]]%list_elem_of_fmap.
  apply list_elem_of_In in Hin. eapply find_none in E; [|exact Hin].
  cbn in E. by apply bool_decide_eq_false in E.
Qed.

Lemma uniquePath_resolvePath d p d' id :
  uniquePath d -> resolvePath d p = Some (d', id) -> uniquePath d'.
Proof.
  unfold resolvePath, uniquePath. destruct (selectPathID d p) as [i|] eqn:E.
  - by intros ? [= <- _].
  - rewrite (selectPathID_None_insertPath _ _ E). intros Hnd [= <- _]. cbn.
    rewrite fmap_app. apply NoDup_app. split; [done|]. split; [|apply NoDup_singleton].
    intros q Hq ->%list_elem_of_singleton. by apply selectPathID_None in E.
Qed.

Lemma uniquePath_insertRows tx vs :
  uniquePath tx -> uniquePath (modindex.insertRows tx vs).1.
Proof.
  revert tx. induction vs as [|v rest IH]; intros tx Hu; [done|].
  cbn [modindex.insertRows].
  destruct (resolvePath tx (Path v)) as [[tx1 id]|] eqn:Hr; [|done].
  pose proof (uniquePath_resolvePath _ _ _ _ Hu Hr) as Hu1.
  destruct (insertVersion tx1 id _ _) as [tx2|] eqn:Hins; [|done].
  apply IH. apply insertVersion_Some in Hins as (_ & _ & ->). done.
Qed.

(** The cursor a start reads is a row of the join, parsed. *)
Lemma lastVersionInfo_row d cur :
  modindex.lastVersionInfo d = (cur, None) ->
  joined d = []
  \/ exists id text,
       versions d !! (id, Version cur) = Some text
       /\ (id, Path cur) ∈ paths d
       /\ Parse text = Some (Timestamp cur).
Proof.
  unfold modindex.lastVersionInfo.
  destruct (maxRow (joined d)) as [[[p ver] text]|] eqn:E;
    [|intros _; left; by apply maxRow_None].
  destruct (Parse text) as [t|] eqn:Hp; [|done].
  intros [= <-]. right. apply maxRow_elem_of, joined_elem_of in E as (id & Hrow & Hin).
  by exists id, text.
Qed.

(** The row of a record that was written, read back as the cursor, gives
    the record back when the layout round-trips on its timestamp. *)
Lemma cursor_read_back d batch c v cur :
  uniquePath d ->
  modindex.insertVersions (Open d) batch = (c, None) ->
  v ∈ batch ->
  Parse (Format (Timestamp v)) = Some (Timestamp v) ->
  modindex.lastVersionInfo (Close c) = (cur, None) ->
  samePair cur v ->
  cur = v.
Proof.
  intros Hu Hins Hv Hrt Hlast [Hp Hver].
  apply insertVersions_None in Hins as [Hrows _]. cbn [Open committed] in Hrows.
  pose proof (uniquePath_insertRows d batch Hu) as Hu'. rewrite Hrows in Hu'.
  apply insertRows_ok in Hrows as (_ & _ & _ & Hall).
  destruct (Hall v Hv) as (idv & Hidv & Hrowv).
  apply selectPathID_Some in Hidv.
  apply lastVersionInfo_row in Hlast as [Hnone|(id & text & Hrow & Hin & Hparse)].
  - destruct (selectPath_is_Some _ _ _ Hidv) as [q Hq].
    pose proof (joined_intro _ _ _ _ _ Hrowv Hq) as Hj.
    unfold Close in Hnone. rewrite Hnone in Hj. by apply elem_of_nil in Hj.
  - unfold Close in *. rewrite Hp in Hin.
    assert (id = idv) as -> by by eapply uniquePath_unique.
    rewrite Hver, Hrowv in Hrow. injection Hrow as <-.
    rewrite Hrt in Hparse. injection Hparse as Ht.
    destruct cur, v; cbn in *; congruence.
Qed.

End Cursor.

Section ZonedCursor.
Context (place : Z -> positive).

(** C10, for the timestamps of the index. A record whose timestamp is in
    UTC, with a year of four digits, is formatted into its row by
    [insertVersions]; when [lastVersionInfo] reads that row back as the
    cursor, parsing gives the timestamp back with its nil Location, the
    cursor is [==] to the record, and the overlap check on a fetched list
    that starts with the record drops it. *)
Theorem C10_utc_timestamp_round_trip d batch c v cur rest :
  uniquePath d ->
  modindex.insertVersions (H := rfc3339.zoned place) (Open d) batch = (c, None) ->
  v ∈ batch ->
  representable (Timestamp v) ->
  cursorSet v ->
  modindex.lastVersionInfo (H := rfc3339.zoned place) (Close c) = (cur, None) ->
  samePair cur v ->
  rfc3339.ParseZoned place (rfc3339.Format (Timestamp v)) = Some (Timestamp v)
  /\ cur = v
  /\ sameRecord v cur = true
  /\ modindex.versionsToInsert (H := rfc3339.zoned place) cur (v :: rest)
     = Some (rest, []).
Proof.
  intros Hu Hins Hv Hrep Hset Hlast Hpair.
  pose proof (ParseZoned_Format place _ Hrep) as Hrt. split; [done|].
  assert (cur = v) as ->.
  { eapply (cursor_read_back (H := rfc3339.zoned place)); eauto. }
  split; [done|]. split; [by apply sameRecord_eq|].
  apply versionsToInsert_same; [done|]. by apply sameRecord_eq.
Qed.

End ZonedCursor.

(** C10, as the claim has it, fails for a timestamp that is not in UTC. The
    record carries 19:08:52.997264+05:30 and the Location that the decoding
    of the answer allocated. Its row holds that text. At the next start
    [time.Parse] gives the cursor a Location of its own: the cursor denotes
    the instant of the record and is not [==] to it. When the server sends
    the record again the overlap check fails, the line on stderr names one
    text twice, the record goes to the writer with the rest, and the run
    ends on the primary key. *)
Lemma C10_counterexample :
  let lib := rfc3339.zoned sample.parsed in
  let w := sample.always [sample.recZ; sample.recB] in
  let written := modindex.insertVersions (H := lib) (Open sqlite.empty) [sample.recZ] in
  let d := Close written.1 in
  let cur := (modindex.lastVersionInfo (H := lib) d).1 in
  let text := "example.com/a@v1.0.0@2019-04-10T19:08:52.997264+05:30" in
  written.2 = None
  /\ versions d !! (1, "v1.0.0") = Some "2019-04-10T19:08:52.997264+05:30"
  /\ (modindex.lastVersionInfo (H := lib) d).2 = None
  /\ samePair cur sample.recZ
  /\ sec (Timestamp cur) = sec (Timestamp sample.recZ)
  /\ nsec (Timestamp cur) = nsec (Timestamp sample.recZ)
  /\ Timestamp cur <> Timestamp sample.recZ
  /\ sameRecord sample.recZ cur = false
  /\ modindex.versionsToInsert (H := lib) cur [sample.recZ; sample.recB]
     = Some ([sample.recZ; sample.recB],
             [EvStderr ("BUG: index: expected list to start with " +:+ text
                        +:+ " but got " +:+ text +:+ nl)])
  /\ exit (modindex.SynchronizeDatabase (H := lib) w sample.start 5 d)
     = Failed ErrInsertVersion.
Proof.
  vm_compute. repeat split; try reflexivity. discriminate.
Qed.

(** The row that is read back is the largest in the order of the text, which
    is not the order of time: half a second past [12:00:00] is written
    [12:00:00.5Z], below [12:00:00Z]. *)
Remark lastVersionInfo_not_latest :
  let early := mkVersionInfo "example.com/a" "v1.0.0" (mkTime 63690537600 0 UTC) in
  let late := mkVersionInfo "example.com/a" "v1.1.0" (mkTime 63690537600 500000000 UTC) in
  let c := (modindex.insertVersions (H := rfc3339.lib) (Open sqlite.empty)
              [early; late]).1 in
  modindex.lastVersionInfo (H := rfc3339.lib) (Close c) = (early, None).
Proof. vm_compute. reflexivity. Qed.

(** ** Replaying a run *)

Section Served.
Context (now : nat -> Time).

Lemma served_answer log n since limit vs :
  GetVersions (served now log) n since limit = Some vs ->
  vs = take (Z.to_nat limit)
         (filter (fun v => Before (Timestamp v) since = false) log).
Proof. by intros [= <-]. Qed.

Lemma served_elem_of log n since limit vs v :
  GetVersions (served now log) n since limit = Some vs -> v ∈ vs ->
  v ∈ log /\ le since (Timestamp v).
Proof.
  intros ->%served_answer Hin.
  assert (Hf : v ∈ filter (fun v => Before (Timestamp v) since = false) log).
  { by eapply subseteq_take. }
  apply list_elem_of_filter in Hf as [Hb ?]. split; [done|]. by apply Before_false.
Qed.


Lemma StronglySorted_filter {A} (R : relation A) (P : A -> Prop)
    `{forall x, Decision (P x)} l :
  StronglySorted R l -> StronglySorted R (filter P l).
Proof.
  induction 1 as [|x l Hs IH Hall]; [constructor|].
  rewrite filter_cons. destruct (decide (P x)); [|done].
  constructor; [done|]. apply Forall_forall. intros y [_ Hy]%list_elem_of_filter.
  rewrite Forall_forall in Hall. by apply Hall.
Qed.

(** A record of the log from [since] on that the answer leaves out is not
    before any record of the answer. *)
Lemma served_left_out log n since limit vs v x :
  timeSorted log ->
  GetVersions (served now log) n since limit = Some vs ->
  v ∈ log -> le since (Timestamp v) -> v ∉ vs -> x ∈ vs ->
  le (Timestamp x) (Timestamp v).
Proof.
  intros Hs ->%served_answer Hv Hle Hout Hx.
  set (l := filter (fun v => Before (Timestamp v) since = false) log) in *.
  assert (Hl : v ∈ l).
  { apply list_elem_of_filter. split; [by apply Before_false|done]. }
  assert (Hsl : StronglySorted (fun u v => le (Timestamp u) (Timestamp v)) l).
  { by apply StronglySorted_filter. }
  rewrite <- (take_drop (Z.to_nat limit) l) in Hl, Hsl.
  apply elem_of_app in Hl as [Hl|Hl]; [done|].
  by eapply (StronglySorted_app_1_elem_of _ _ _ x v Hsl).
Qed.

Lemma take_nil_inv {A} (n : nat) (l : list A) :
  (1 <= n)%nat -> take n l = [] -> l = [].
Proof. destruct n; [lia|]. by destruct l. Qed.

Lemma take_singleton_inv {A} (n : nat) (l : list A) x :
  (2 <= n)%nat -> take n l = [x] -> l = [x].
Proof.
  destruct n as [|[|n]]; [lia|lia|]. destruct l as [|a [|b l]]; cbn; try done.
Qed.

(** An empty answer: the log holds nothing from [since] on. *)
Lemma served_nothing log n since v :
  GetVersions (served now log) n since 2000 = Some [] ->
  v ∈ log -> ~ le since (Timestamp v).
Proof.
  intros Hget%served_answer Hv Hle. symmetry in Hget.
  apply take_nil_inv in Hget; [|lia].
  assert (Hf : v ∈ filter (fun v => Before (Timestamp v) since = false) log).
  { apply list_elem_of_filter. split; [by apply Before_false|done]. }
  rewrite Hget in Hf. by apply elem_of_nil in Hf.
Qed.

(** An answer of one record: the log holds nothing else from [since] on. *)
Lemma served_single log n since x v :
  GetVersions (served now log) n since 2000 = Some [x] ->
  v ∈ log -> le since (Timestamp v) -> v = x.
Proof.
  intros Hget%served_answer Hv Hle. symmetry in Hget.
  apply take_singleton_inv in Hget; [|lia].
  assert (Hf : v ∈ filter (fun v => Before (Timestamp v) since = false) log).
  { apply list_elem_of_filter. split; [by apply Before_false|done]. }
  rewrite Hget in Hf. by apply list_elem_of_singleton in Hf.
Qed.

End Served.

Section Growth.
Context `{Lib} (now : nat -> Time).

Lemma selectPath_app d i q extra :
  selectPath d i = Some q ->
  selectPath (mkDB (paths d ++ extra) (versions d)) i = Some q.
Proof.
  unfold selectPath. cbn. induction (paths d) as [|r l IH]; [done|]. cbn.
  destruct (bool_decide (r.1 = i)); [done|]. apply IH.
Qed.

Lemma selectPath_paths d d' i :
  paths d' = paths d -> selectPath d' i = selectPath d i.
Proof. unfold selectPath. by intros ->. Qed.

(** The rows after a batch of plain inserts: those there were, and one
    for each record of the batch. *)
Lemma insertRows_rows tx vs tx' :
  modindex.insertRows tx vs = (tx', None) ->
  (forall i q, selectPath tx i = Some q -> selectPath tx' i = Some q)
  /\ (forall k t, versions tx' !! k = Some t ->
        versions tx !! k = Some t
        \/ exists v, v ∈ vs /\ t = Format (Timestamp v)).
Proof.
  revert tx. induction vs as [|u rest IH]; intros tx.
  - intros [= <-]. split; [done|]. by left.
  - cbn [modindex.insertRows].
    destruct (resolvePath_Some tx (Path u))
      as (tx1 & id & Hr & _ & _ & Hvs & [e1 He1] & _).
    rewrite Hr.
    destruct (insertVersion tx1 id (Version u) (Format (Timestamp u))) as [tx2|] eqn:Hins;
      [|done].
    apply insertVersion_Some in Hins as (_ & _ & ->).
    intros Hrest. destruct (IH _ Hrest) as [Hp Hrows]. split.
    + intros i q Hq. apply Hp. rewrite (selectPath_paths tx1) by done.
      replace tx1 with (mkDB (paths tx ++ e1) (versions tx)).
      * by apply selectPath_app.
      * destruct tx1 as [p1 v1]. cbn in *. by subst.
    + intros k t Hk. destruct (Hrows k t Hk) as [Hold|(v & Hv & ->)].
      * cbn in Hold. destruct (decide ((id, Version u) = k)) as [<-|Hne].
        -- rewrite lookup_insert_eq in Hold. injection Hold as <-.
           right. exists u. split; [by left|done].
        -- rewrite lookup_insert_ne in Hold by done. left. by rewrite <- Hvs.
      * right. exists v. split; [by right|done].
Qed.

Lemma keyTaken_insertRows tx vs tx' v :
  modindex.insertRows tx vs = (tx', None) -> keyTaken tx v -> keyTaken tx' v.
Proof.
  intros (_ & Hsel & Hrows & _)%insertRows_ok (id & Hid & [t Hv]).
  exists id. split; [by apply Hsel|]. exists t. by apply Hrows.
Qed.

Lemma stored_keyTaken d v : stored d v -> keyTaken d v.
Proof. intros (id & Hid & Hv). exists id. split; [done|by eexists]. Qed.

Lemma grownFrom_refl log since d : grownFrom log since d d.
Proof. repeat split; try done. by left. Qed.

Lemma grownFrom_insertRows log since d0 d vs d' :
  grownFrom log since d0 d ->
  modindex.insertRows d vs = (d', None) ->
  (forall v, v ∈ vs -> v ∈ log /\ le since (Timestamp v)) ->
  grownFrom log since d0 d'.
Proof.
  intros (G1 & G2 & G3 & G4) Hrows Hvs.
  pose proof (insertRows_ok _ _ _ Hrows) as (_ & Hsel & Hkeep & _).
  pose proof (insertRows_rows _ _ _ Hrows) as [Hpath Hnew].
  repeat split.
  - intros q i Hq. by apply Hsel, G1.
  - intros i q Hq. by apply Hpath, G2.
  - intros k t Hk. by apply Hkeep, G3.
  - intros k t Hk. destruct (Hnew k t Hk) as [Hold|(v & Hv & ->)].
    + by apply G4.
    + right. exists v. destruct (Hvs v Hv). done.
Qed.

Lemma versionsToInsert_cases last vs toInsert bug v :
  modindex.versionsToInsert last vs = Some (toInsert, bug) -> v ∈ vs ->
  v ∈ toInsert \/ (v = last /\ cursorSet last).
Proof.
  unfold modindex.versionsToInsert, cursorSet.
  destruct (IsZero _); [intros [= <- _]; by left|].
  destruct vs as [|x rest]; [done|].
  destruct (sameRecord x last) eqn:Hsame; intros [= <- _]; [|by left].
  cbn. rewrite drop_0. intros [->|?]%elem_of_cons; [|by left].
  right. by apply sameRecord_eq in Hsame.
Qed.

Lemma Before_not_le t u : Before t u = true -> ~ le u t.
Proof. intros Hb Hle%Before_false. congruence. Qed.

(** An iteration that commits keeps the loop caught up with the log. *)
Lemma caughtUp_step log c0 d0 start n st evs st' :
  timeSorted log ->
  caughtUp log c0 st ->
  grownFrom log (Timestamp c0) d0 (committed (conn st)) ->
  modindex.iteration (served now log) start n st = (evs, Continue st') ->
  caughtUp log c0 st'
  /\ grownFrom log (Timestamp c0) d0 (committed (conn st')).
Proof.
  intros Hs (I1 & I2 & I3) Hg
    (vs & ti & bug & first & Hget & Hvti & _ & Hl & Hins & _)%iteration_Continue.
  apply insertVersions_None in Hins as [Hrows _].
  pose proof (insertRows_ok _ _ _ Hrows) as (_ & _ & _ & Hnew).
  assert (Hti : forall v, v ∈ ti -> v ∈ log /\ le (Timestamp (last st)) (Timestamp v)).
  { intros v Hv. eapply served_elem_of; [exact Hget|].
    by eapply versionsToInsert_subseteq. }
  assert (Hf : last st' ∈ ti) by by apply last_Some_elem_of.
  destruct (Hti _ Hf) as [Hflog Hfle].
  split; [split; [|split]|].
  - by eapply le_trans.
  - intros v Hv Hc0 Hb.
    destruct (Before (Timestamp v) (Timestamp (last st))) eqn:Hbl.
    { eapply keyTaken_insertRows; [exact Hrows|]. by apply I2. }
    apply Before_false in Hbl.
    destruct (decide (v ∈ vs)) as [Hin|Hout].
    + destruct (versionsToInsert_cases _ _ _ _ _ Hvti Hin) as [Hvt|[-> Hset]].
      * by apply stored_keyTaken, Hnew.
      * eapply keyTaken_insertRows; [exact Hrows|]. by apply I3.
    + exfalso. apply (Before_not_le _ _ Hb).
      eapply served_left_out; [exact Hs|exact Hget|done|done|done|].
      by eapply versionsToInsert_subseteq.
  - intros _. by apply stored_keyTaken, Hnew.
  - eapply grownFrom_insertRows; [exact Hg|exact Hrows|].
    intros v Hv. destruct (Hti v Hv) as [? ?]. split; [done|]. by eapply le_trans.
Qed.

End Growth.

Section TextOrder.

Lemma ltb_trans a b c :
  String.ltb a b = true -> String.ltb b c = true -> String.ltb a c = true.
Proof.
  unfold String.ltb.
  destruct (String.compare a b) eqn:Hab; try done.
  destruct (String.compare b c) eqn:Hbc; try done. intros _ _.
  apply String_as_OT.cmp_lt in Hab, Hbc.
  pose proof (String_as_OT.lt_trans _ _ _ Hab Hbc) as Hac.
  apply String_as_OT.cmp_lt in Hac. unfold String_as_OT.cmp in Hac. by rewrite Hac.
Qed.

Lemma ltb_antisym a b :
  String.ltb a b = false -> String.ltb b a = false -> a = b.
Proof.
  unfold String.ltb. rewrite (String.compare_antisym b a).
  destruct (String.compare a b) eqn:Hab; cbn; try done.
  intros _ _. by apply String.compare_eq_iff.
Qed.

Lemma ltb_irrefl a : String.ltb a a = false.
Proof.
  unfold String.ltb. pose proof (String.compare_antisym a a) as Ha.
  destruct (String.compare a a); done.
Qed.

(** No row is above the one [ORDER BY timestamp DESC LIMIT 1] returns. *)
Lemma maxRow_max rows m r :
  maxRow rows = Some m -> r ∈ rows -> String.ltb m.2 r.2 = false.
Proof.
  revert m. induction rows as [|x rest IH]; intros m; [done|].
  cbn [maxRow]. destruct (maxRow rest) as [m'|] eqn:E.
  - destruct (String.ltb m'.2 x.2) eqn:Hlt; intros [= <-] [->|Hr]%elem_of_cons.
    + apply ltb_irrefl.
    + specialize (IH _ eq_refl Hr).
      destruct (String.ltb x.2 r.2) eqn:Hxr; [|done].
      by rewrite (ltb_trans _ _ _ Hlt Hxr) in IH.
    + done.
    + by apply IH.
  - apply maxRow_None in E as ->. intros [= <-] [->|Hr]%elem_of_cons.
    + apply ltb_irrefl.
    + by apply elem_of_nil in Hr.
Qed.

End TextOrder.

Section Replay.
Context `{Lib} (now : nat -> Time).

Lemma joined_elem_of' d p ver text :
  (p, ver, text) ∈ joined d ->
  exists id, versions d !! (id, ver) = Some text /\ selectPath d id = Some p.
Proof.
  unfold joined. intros ([[id ver'] text'] & Hin & Hrow)%list_elem_of_omap.
  apply elem_of_map_to_list in Hin. cbn in Hrow.
  destruct (selectPath d id) as [q|] eqn:Hq; [|done].
  injection Hrow as -> -> ->. by exists id.
Qed.

Lemma joined_grown log since d0 d r :
  grownFrom log since d0 d -> r ∈ joined d0 -> r ∈ joined d.
Proof.
  intros (_ & G2 & G3 & _). destruct r as [[p ver] text].
  intros (id & Hrow & Hp)%joined_elem_of'.
  eapply joined_intro; [by apply G3|by apply G2].
Qed.

(** The cursor read from the grown store is not before the cursor read
    from the store it has grown from. *)
Lemma lastVersionInfo_grown log d0 d c0 c2 :
  referential d0 -> roundTrips log ->
  modindex.lastVersionInfo d0 = (c0, None) ->
  grownFrom log (Timestamp c0) d0 d ->
  modindex.lastVersionInfo d = (c2, None) ->
  le (Timestamp c0) (Timestamp c2).
Proof.
  intros Href Hrt H0 Hg H2. revert H0 H2. unfold modindex.lastVersionInfo.
  destruct (maxRow (joined d)) as [[[p2 ver2] text2]|] eqn:E2.
  2:{ apply maxRow_None in E2.
      destruct (maxRow (joined d0)) as [r0|] eqn:E0.
      - apply maxRow_elem_of in E0. eapply joined_grown in E0; [|exact Hg].
        rewrite E2 in E0. by apply elem_of_nil in E0.
      - intros [= <-] [= <-]. apply le_refl. }
  destruct (Parse text2) as [t2|] eqn:Hp2; [|done].
  intros H0 [= <-]. cbn [Timestamp].
  pose proof (maxRow_elem_of _ _ E2) as Hin2.
  apply joined_elem_of' in Hin2 as (id & Hrow & Hpath).
  destruct Hg as (G1 & G2 & G3 & G4).
  destruct (G4 _ _ Hrow) as [Hold|(v & Hv & Hle & ->)].
  - (* an old row: it was in the join before, below the old cursor's row *)
    destruct (Href id ver2) as [q Hq]; [by eexists|].
    pose proof (joined_intro _ _ _ _ _ Hold Hq) as Hj0.
    destruct (maxRow (joined d0)) as [[[p0 ver0] text0]|] eqn:E0.
    2:{ apply maxRow_None in E0. rewrite E0 in Hj0. by apply elem_of_nil in Hj0. }
    pose proof (maxRow_max _ _ _ E0 Hj0) as Hmax0. cbn in Hmax0.
    assert (Hj2 : (p0, ver0, text0) ∈ joined d).
    { eapply joined_grown; [by repeat split|]. by apply maxRow_elem_of. }
    pose proof (maxRow_max _ _ _ E2 Hj2) as Hmax2. cbn in Hmax2.
    pose proof (ltb_antisym _ _ Hmax0 Hmax2) as ->.
    rewrite Hp2 in H0. injection H0 as <-. apply le_refl.
  - (* a new row: the timestamp of a record of the log, round-tripped *)
    unfold roundTrips in Hrt. rewrite Forall_forall in Hrt. rewrite (Hrt v Hv) in Hp2.
    by injection Hp2 as <-.
Qed.

(** What the start reads as the cursor, when set, has its pair in the store. *)
Lemma lastVersionInfo_keyTaken d c :
  uniquePath d -> modindex.lastVersionInfo d = (c, None) -> cursorSet c ->
  keyTaken d c.
Proof.
  intros Hu Hlast Hset. revert Hlast. unfold modindex.lastVersionInfo.
  destruct (maxRow (joined d)) as [[[p ver] text]|] eqn:E.
  2:{ intros [= <-]. done. }
  destruct (Parse text) as [t|]; [|done]. intros [= <-]. cbn.
  apply maxRow_elem_of, joined_elem_of' in E as (id & Hrow & Hp).
  apply selectPath_Some in Hp.
  destruct (selectPathID d p) as [id'|] eqn:Hid.
  - exists id'. split; [done|]. cbn.
    assert (id' = id) as ->; [|by eexists].
    apply selectPathID_Some in Hid. by eapply uniquePath_unique.
  - apply selectPathID_None in Hid. destruct Hid.
    apply list_elem_of_fmap. by exists (id, p).
Qed.

(** An iteration that ends the loop: the log holds nothing from the cursor
    on but the cursor. *)
Lemma iteration_Done log start n st evs c :
  modindex.iteration (served now log) start n st = (evs, Stop Done c) ->
  c = conn st
  /\ forall v, v ∈ log -> le (Timestamp (last st)) (Timestamp v) ->
               v = last st /\ cursorSet (last st).
Proof.
  unfold modindex.iteration.
  destruct (GetVersions (served now log) n _ 2000) as [vs|] eqn:Hget; [|done].
  destruct (modindex.versionsToInsert (last st) vs) as [[ti bug]|] eqn:Hvti; [|done].
  destruct ti as [|first rest].
  2:{ by destruct (modindex.insertVersions _ _) as [c' [e|]]. }
  intros [= _ <-]. split; [done|]. intros v Hv Hle.
  revert Hvti. unfold modindex.versionsToInsert.
  destruct (IsZero (Timestamp (last st))) eqn:Hz.
  - intros [= -> _]. by destruct (served_nothing _ _ _ _ _ Hget Hv).
  - destruct vs as [|x [|y l]]; [done| |].
    + destruct (sameRecord x (last st)) eqn:Hsame; [|done]. intros _.
      apply sameRecord_eq in Hsame as ->. split; [|done].
      by eapply served_single.
    + by destruct (sameRecord x (last st)).
Qed.

(** A run that ends with [Done] was caught up with the log all along. *)
Lemma loop_Done log c0 d0 start fuel n st evs c :
  timeSorted log ->
  caughtUp log c0 st ->
  grownFrom log (Timestamp c0) d0 (committed (conn st)) ->
  modindex.loop (served now log) start fuel n st = (evs, Stop Done c) ->
  grownFrom log (Timestamp c0) d0 (committed c)
  /\ forall v, v ∈ log -> le (Timestamp c0) (Timestamp v) -> keyTaken (committed c) v.
Proof.
  intros Hs. revert n st evs. induction fuel as [|fuel IH]; intros n st evs Hc Hg; [done|].
  cbn [modindex.loop].
  destruct (modindex.iteration (served now log) start n st) as [e1 [s1|e c']] eqn:Hit.
  - destruct (modindex.loop (served now log) start fuel (S n) s1) as [e2 r] eqn:Hl.
    intros [= _ ->].
    destruct (caughtUp_step _ _ _ _ _ _ _ _ _ Hs Hc Hg Hit) as [Hc1 Hg1].
    by eapply IH.
  - intros [= _ -> ->].
    apply iteration_Done in Hit as [-> Hend]. split; [done|].
    destruct Hc as (I1 & I2 & I3). intros v Hv Hle.
    destruct (Before (Timestamp v) (Timestamp (last st))) eqn:Hb; [by apply I2|].
    apply Before_false in Hb. destruct (Hend v Hv Hb) as [-> Hset]. by apply I3.
Qed.

(** From a store that has every pair the server can answer with, the
    first iteration stops and commits nothing. *)
Lemma iteration_replay log start n d c2 cov evs r :
  (forall v, v ∈ log -> le (Timestamp c2) (Timestamp v) -> keyTaken d v) ->
  modindex.iteration (served now log) start n (mkState (Open d) c2 cov) = (evs, r) ->
  exists e c, r = Stop e c /\ committed c = d.
Proof.
  intros Hall. unfold modindex.iteration. cbn [last conn covered].
  destruct (GetVersions (served now log) n _ 2000) as [vs|] eqn:Hget; [|done].
  destruct (modindex.versionsToInsert c2 vs) as [[ti bug]|] eqn:Hvti;
    [|intros [= _ <-]; by eexists _, _].
  destruct ti as [|first rest]; [intros [= _ <-]; by eexists _, _|].
  assert (Hk : keyTaken d first).
  { assert (Hin : first ∈ vs).
    { eapply versionsToInsert_subseteq; [exact Hvti|by left]. }
    destruct (served_elem_of now log n (Timestamp c2) 2000 vs first Hget Hin).
    by apply Hall. }
  destruct (modindex.insertVersions (Open d) (first :: rest)) as [c [e|]] eqn:Hins.
  - intros [= _ <-]. eexists _, _. split; [done|].
    by apply insertVersions_Some in Hins as [? _].
  - apply insertVersions_None in Hins as [Hrows _].
    destruct (insertRows_taken d (first :: rest) first) as [e He]; [by left|done|].
    cbn [Open committed] in Hrows. by rewrite Hrows in He.
Qed.

(** C7. The server holds a log in the order of its timestamps and answers
    from it; the layout gives the timestamps of the log back. A run that
    ends with [Done], then a second run over the same log: the second run
    leaves the store as the first one left it, so it adds no row. *)
Theorem C7_replay_adds_no_row log start1 start2 fuel1 fuel2 d0 :
  timeSorted log -> roundTrips log ->
  uniquePath d0 -> referential d0 ->
  exit (modindex.SynchronizeDatabase (served now log) start1 fuel1 d0) = Done ->
  let d1 := store (modindex.SynchronizeDatabase (served now log) start1 fuel1 d0) in
  let r2 := modindex.SynchronizeDatabase (served now log) start2 fuel2 d1 in
  store r2 = d1
  /\ size (versions (store r2)) = size (versions d1)
  /\ forall batch, batch ∈ inserts (events r2) -> exists e, exit r2 = Failed e.
Proof.
  intros Hs Hrt Hu Href. unfold modindex.SynchronizeDatabase at 1 2.
  destruct (modindex.lastVersionInfo d0) as [c0 [e0|]] eqn:H0; [done|].
  destruct (modindex.loop (served now log) start1 fuel1 0 (mkState (Open d0) c0 0))
    as [evs1 [s1|e1 c1]] eqn:Hl1; [done|].
  cbn [finish exit store]. intros ->.
  destruct (loop_Done log c0 d0 start1 fuel1 0%nat (mkState (Open d0) c0 0)
              evs1 c1 Hs) as [Hg Hall]; [| |exact Hl1|].
  { split; [apply le_refl|]. split.
    - intros v _ Hle Hb. by destruct (Before_not_le _ _ Hb).
    - intros Hset. by apply lastVersionInfo_keyTaken. }
  { apply grownFrom_refl. }
  unfold Close. set (d1 := committed c1) in *.
  assert (Hstore : store (modindex.SynchronizeDatabase (served now log) start2 fuel2 d1) = d1
            /\ forall batch,
                 batch ∈ inserts (events (modindex.SynchronizeDatabase
                                            (served now log) start2 fuel2 d1)) ->
                 exists e, exit (modindex.SynchronizeDatabase
                                   (served now log) start2 fuel2 d1) = Failed e).
  { unfold modindex.SynchronizeDatabase.
    destruct (modindex.lastVersionInfo d1) as [c2 [e2|]] eqn:H2.
    { split; [done|]. by intros batch ?%elem_of_nil. }
    pose proof (lastVersionInfo_grown _ _ _ _ _ Href Hrt H0 Hg H2) as Hle.
    destruct fuel2 as [|fuel2].
    { split; [done|]. by intros batch ?%elem_of_nil. }
    cbn [modindex.loop].
    destruct (modindex.iteration (served now log) start2 0 (mkState (Open d1) c2 0))
      as [evs2 r] eqn:Hit.
    pose proof Hit as Hit'.
    apply iteration_replay in Hit as (e & c & -> & Hc).
    2:{ intros v Hv Hv2. apply Hall; [done|]. by eapply le_trans. }
    cbn [finish store events exit]. split; [done|].
    intros batch Hb. destruct e as [|e| |]; [| by eexists | |].
    - exfalso. revert Hit' Hb. unfold modindex.iteration. cbn [last conn covered].
      destruct (GetVersions _ _ _ _) as [vs|]; [|done].
      destruct (modindex.versionsToInsert c2 vs) as [[[|f ti] bug]|] eqn:Hvti; [| |done].
      + intros [= <- _]. 
        assert (inserts bug = []) as Hbug.
        { revert Hvti. unfold modindex.versionsToInsert.
          destruct (IsZero _); [by intros [= _ <-]|].
          destruct vs as [|v0 ?]; [done|].
          destruct (sameRecord _ _); intros ?; by simplify_eq. }
        quiet_progress; unfold inserts in *; cbn; rewrite omap_app, Hbug; cbn;
          by intros ?%elem_of_nil.
      + by destruct (modindex.insertVersions _ _) as [c' [e'|]].
    - exfalso. revert Hit' Hb. unfold modindex.iteration. cbn [last conn covered].
      destruct (GetVersions _ _ _ _) as [vs|]; [|done].
      destruct (modindex.versionsToInsert c2 vs) as [[[|f ti] bug]|] eqn:Hvti.
      + done.
      + by destruct (modindex.insertVersions _ _) as [c' [e'|]].
      + intros [= <- _]. quiet_progress; by intros ?%elem_of_nil.
    - exfalso. revert Hit'. unfold modindex.iteration. cbn [last conn covered].
      destruct (GetVersions _ _ _ _) as [vs|]; [|done].
      destruct (modindex.versionsToInsert c2 vs) as [[[|f ti] bug]|] eqn:Hvti; try done.
      by destruct (modindex.insertVersions _ _) as [c' [e'|]]. }
  destruct Hstore as [Hst Hins]. split; [done|]. split; [by rewrite Hst|done].
Qed.

End Replay.

(** ** The theorems at sample inputs *)

Lemma C2_witness :
  cursorSet (last sample.atA)
  /\ sameRecord sample.recA (last sample.atA) = true
  /\ modindex.versionsToInsert (H := rfc3339.lib) (last sample.atA)
       [sample.recA; sample.recB] = Some ([sample.recB], [])
  /\ inserts (modindex.iteration (H := rfc3339.lib)
                (sample.always [sample.recA; sample.recB]) sample.start 0 sample.atA).1
     = [[sample.recB]]
  /\ inserts (indexcmd.iteration (H := rfc3339.lib)
                (sample.always [sample.recA; sample.recB]) sample.start 0 sample.atA).1
     = [[sample.recB]].
Proof.
  assert (Hset : cursorSet (last sample.atA)) by reflexivity.
  assert (Hsame : sameRecord sample.recA (last sample.atA) = true) by reflexivity.
  split; [exact Hset|]. split; [exact Hsame|].
  exact (C2_overlap_record_dropped (H := rfc3339.lib)
           (sample.always [sample.recA; sample.recB]) sample.start 0 sample.atA
           sample.recA [sample.recB] Hset Hsame eq_refl).
Defined.

Lemma C3_witness :
  sample.recA' ∈ [sample.recA']
  /\ keyTaken sample.storeA sample.recA'
  /\ primaryKey sample.storeA
  /\ (exists c e,
        modindex.insertVersions (H := rfc3339.lib) (Open sample.storeA) [sample.recA']
        = (c, Some e) /\ Close c = sample.storeA)
  /\ (forall last cov,
        let r := indexcmd.writeRows (H := rfc3339.lib) last None [sample.recA']
                   sample.storeA cov in
        indexcmd.txErr r = None
        /\ forall pre u post,
             indexcmd.txWritten r = pre ++ u :: post ->
             (forall x, x ∈ post -> ~ samePair x u) ->
             stored (H := rfc3339.lib) (indexcmd.txDB r) u).
Proof.
  assert (Hin : sample.recA' ∈ [sample.recA']) by (by left).
  assert (Hk : keyTaken sample.storeA sample.recA').
  { exists 1. split; [reflexivity|]. vm_compute. by eexists. }
  assert (Hpk : primaryKey sample.storeA) by apply NoDup_singleton.
  split; [exact Hin|]. split; [exact Hk|]. split; [exact Hpk|].
  exact (C3_replace_inline_plain_refactored (H := rfc3339.lib)
           sample.storeA [sample.recA'] sample.recA' Hin Hk Hpk).
Defined.

Lemma C4_witness :
  let run := modindex.loop (H := rfc3339.lib) (sample.scripted sample.script)
               sample.start 3 0 sample.atStart in
  let c := match run.2 with Stop _ c => c | Continue st => conn st end in
  run = (run.1, Stop (Failed ErrInsertVersion) c)
  /\ exists k evs' st' evs'',
       (k < 3)%nat
       /\ modindex.loop (H := rfc3339.lib) (sample.scripted sample.script)
            sample.start k 0 sample.atStart = (evs', Continue st')
       /\ modindex.iteration (H := rfc3339.lib) (sample.scripted sample.script)
            sample.start (0 + k) st' = (evs'', Stop (Failed ErrInsertVersion) c)
       /\ run.1 = evs' ++ evs''
       /\ Close c = committed (conn st')
       /\ (forall v, keyTaken (Close c) v -> keyTaken (committed (conn st')) v)
       /\ (forall batch v, batch ∈ inserts evs' -> v ∈ batch ->
             stored (H := rfc3339.lib) (Close c) v).
Proof.
  intros run c.
  assert (Hrun : run = (run.1, Stop (Failed ErrInsertVersion) c))
    by (vm_compute; reflexivity).
  split; [exact Hrun|].
  exact (C4_failed_batch_leaves_nothing (H := rfc3339.lib)
           (sample.scripted sample.script) sample.start 3 0 sample.atStart
           run.1 ErrInsertVersion c Hrun).
Defined.


Lemma roundTrips_representable log :
  Forall (fun v => representable (Timestamp v)) log ->
  roundTrips (H := rfc3339.lib) log.
Proof. intros Hall. eapply Forall_impl; [exact Hall|]. intros v Hv. by apply Parse_Format. Qed.

Lemma C7_witness :
  timeSorted sample.log
  /\ roundTrips (H := rfc3339.lib) sample.log
  /\ uniquePath sqlite.empty
  /\ referential sqlite.empty
  /\ exit (modindex.SynchronizeDatabase (H := rfc3339.lib) (served sample.clock sample.log)
             sample.start 5 sqlite.empty) = Done
  /\ let d1 := store (modindex.SynchronizeDatabase (H := rfc3339.lib)
                        (served sample.clock sample.log) sample.start 5 sqlite.empty) in
     let r2 := modindex.SynchronizeDatabase (H := rfc3339.lib) (served sample.clock sample.log)
                 sample.start 5 d1 in
     store r2 = d1
     /\ size (versions (store r2)) = size (versions d1)
     /\ forall batch, batch ∈ inserts (events r2) -> exists e, exit r2 = Failed e.
Proof.
  assert (Hs : timeSorted sample.log).
  { unfold timeSorted, sample.log.
    repeat (constructor; [|repeat constructor; unfold le; cbn; lia]). constructor. }
  assert (Hrt : roundTrips (H := rfc3339.lib) sample.log).
  { apply roundTrips_representable.
    repeat constructor; vm_compute; congruence. }
  assert (Hu : uniquePath sqlite.empty) by apply NoDup_nil_2.
  assert (Href : referential sqlite.empty).
  { intros id ver [t Ht]. cbn in Ht. by rewrite lookup_empty in Ht. }
  assert (Hdone : exit (modindex.SynchronizeDatabase (H := rfc3339.lib)
                          (served sample.clock sample.log) sample.start 5 sqlite.empty) = Done)
    by (vm_compute; reflexivity).
  split; [exact Hs|]. split; [exact Hrt|]. split; [exact Hu|]. split; [exact Href|].
  split; [exact Hdone|].
  exact (C7_replay_adds_no_row (H := rfc3339.lib) sample.clock sample.log
           sample.start sample.start
           5 5 sqlite.empty Hs Hrt Hu Href Hdone).
Defined.

Lemma C8_witness :
  cursorSet (last sample.atA_covered)
  /\ exists r rest,
       modindex.printProgress (H := rfc3339.lib) sample.recA sample.start
         (12600 * Second) (sample.clock 6) = Some r
       /\ (modindex.iteration (H := rfc3339.lib) (sample.always []) sample.start 6
             sample.atA_covered).1 = EvProgress r :: rest
       /\ HoursDone r = 3
       /\ Remaining r = Some (Z.quot (58189 * 3600000000000) 3).
Proof.
  assert (Hset : cursorSet (last sample.atA_covered)) by reflexivity.
  split; [exact Hset|].
  destruct (C8_estimate_when_span_positive (H := rfc3339.lib) (sample.always [])
              sample.start 6 sample.atA_covered Hset)
    as (r & rest & Hr & _ & Hit & Hd & Hdone & Hopen & _ & Hrem & _).
  exists r, rest. split; [exact Hr|]. split; [exact Hit|].
  assert (Hdone' : HoursDone r = 3) by (rewrite Hdone; reflexivity).
  split; [exact Hdone'|].
  rewrite Hrem; rewrite ?Hopen, ?Hd, ?Hdone'.
  - reflexivity.
  - reflexivity.
  - vm_compute. split; congruence.
Defined.

Lemma answersTimed_scripted script :
  Forall (Forall cursorSet) script -> answersTimed (sample.scripted script).
Proof.
  intros Hall n since limit vs [= <-].
  destruct (script !! n) as [vs|] eqn:E; cbn; [|constructor].
  rewrite Forall_forall in Hall. apply Hall. by eapply list_elem_of_lookup_2.
Qed.

Lemma C9_witness :
  let w := sample.scripted [[sample.recA; sample.recB];
                            [sample.recB; sample.recC]; [sample.recC]] in
  answersTimed w
  /\ shared (exit (modindex.SynchronizeDatabase (H := rfc3339.lib) w sample.start 5
                     sqlite.empty))
  /\ let r := modindex.SynchronizeDatabase (H := rfc3339.lib) w sample.start 5
                sqlite.empty in
     let r' := indexcmd.updateCmd (H := rfc3339.lib) w sample.start 5 sqlite.empty in
     observable (events r') = observable (events r)
     /\ inserts (events r') = inserts (events r)
     /\ exit r' = exit r
     /\ store r' = store r.
Proof.
  intros w.
  assert (Hw : answersTimed w).
  { apply answersTimed_scripted. repeat constructor. }
  assert (Hsh : shared (exit (modindex.SynchronizeDatabase (H := rfc3339.lib) w
                                sample.start 5 sqlite.empty))).
  { vm_compute. repeat split; discriminate. }
  split; [exact Hw|]. split; [exact Hsh|].
  exact (C9_engines_agree_on_shared_runs (H := rfc3339.lib) w sample.start 5
           sqlite.empty Hw Hsh).
Defined.

Lemma C10_witness :
  let lib := rfc3339.zoned sample.parsed in
  let c := (modindex.insertVersions (H := lib) (Open sqlite.empty)
              [sample.recA; sample.recB]).1 in
  uniquePath sqlite.empty
  /\ modindex.insertVersions (H := lib) (Open sqlite.empty)
       [sample.recA; sample.recB] = (c, None)
  /\ sample.recB ∈ [sample.recA; sample.recB]
  /\ representable (Timestamp sample.recB)
  /\ cursorSet sample.recB
  /\ modindex.lastVersionInfo (H := lib) (Close c) = (sample.recB, None)
  /\ samePair sample.recB sample.recB
  /\ rfc3339.ParseZoned sample.parsed (rfc3339.Format (Timestamp sample.recB))
     = Some (Timestamp sample.recB)
  /\ sample.recB = sample.recB
  /\ sameRecord sample.recB sample.recB = true
  /\ modindex.versionsToInsert (H := lib) sample.recB
       [sample.recB; sample.recC] = Some ([sample.recC], []).
Proof.
  intros lib c.
  assert (Hu : uniquePath sqlite.empty) by apply NoDup_nil_2.
  assert (Hins : modindex.insertVersions (H := lib) (Open sqlite.empty)
                   [sample.recA; sample.recB] = (c, None)) by (vm_compute; reflexivity).
  assert (Hin : sample.recB ∈ [sample.recA; sample.recB]) by (right; left).
  assert (Hrep : representable (Timestamp sample.recB)).
  { vm_compute. repeat split; congruence. }
  assert (Hset : cursorSet sample.recB) by reflexivity.
  assert (Hlast : modindex.lastVersionInfo (H := lib) (Close c)
                  = (sample.recB, None)) by (vm_compute; reflexivity).
  assert (Hpair : samePair sample.recB sample.recB) by (split; reflexivity).
  split; [exact Hu|]. split; [exact Hins|]. split; [exact Hin|]. split; [exact Hrep|].
  split; [exact Hset|]. split; [exact Hlast|]. split; [exact Hpair|].
  exact (C10_utc_timestamp_round_trip sample.parsed sqlite.empty
           [sample.recA; sample.recB] c sample.recB sample.recB [sample.recC]
           Hu Hins Hin Hrep Hset Hlast Hpair).
Defined.

(** A replay need not end well. Two records half a second apart: the first
    run ends with [Done]; the second reads the earlier record as its cursor,
    is served the later one again, and stops on the primary key. *)
Remark replay_can_fail :
  let early := mkVersionInfo "example.com/a" "v1.0.0" (mkTime 63690537600 0 UTC) in
  let late := mkVersionInfo "example.com/a" "v1.1.0" (mkTime 63690537600 500000000 UTC) in
  let r1 := modindex.SynchronizeDatabase (H := rfc3339.lib) (served sample.clock [early; late])
              sample.start 5 sqlite.empty in
  let r2 := modindex.SynchronizeDatabase (H := rfc3339.lib) (served sample.clock [early; late])
              sample.start 5 (store r1) in
  exit r1 = Done /\ exit r2 = Failed ErrInsertVersion /\ store r2 = store r1.
Proof. vm_compute. repeat split. Qed.

(** ** The scenarios of the spec, run *)

(** An empty store; the first answer brings two versions of one path, the
    second the last of them alone: the loop ends after two calls and the
    store has two rows under one path. *)
Example scenario_two_versions :
  let r := modindex.SynchronizeDatabase (H := rfc3339.lib)
             (sample.scripted [[sample.recA; sample.recB]; [sample.recB]])
             sample.start 5 sqlite.empty in
  exit r = Done
  /\ fetches (events r) = [zero; sample.t2]
  /\ inserts (events r) = [[sample.recA; sample.recB]]
  /\ paths (store r) = [(1, "example.com/a")]
  /\ size (versions (store r)) = 2%nat.
Proof. vm_compute. repeat split. Qed.

(** The answers [A, B] and then [B, C]: the overlap is written once. *)
Example scenario_overlap :
  let r := modindex.SynchronizeDatabase (H := rfc3339.lib)
             (sample.scripted [[sample.recA; sample.recB];
                               [sample.recB; sample.recC]; [sample.recC]])
             sample.start 5 sqlite.empty in
  exit r = Done
  /\ inserts (events r) = [[sample.recA; sample.recB]; [sample.recC]]
  /\ size (versions (store r)) = 3%nat.
Proof. vm_compute. repeat split. Qed.

(** Ten records whose seventh repeats the pair of the third: the write
    fails at the seventh, six rows are in the transaction left open, none in
    the store. *)
Example scenario_seventh_fails :
  let rec n := mkVersionInfo "example.com/a" (pretty n) (mkTime (63690520000 + n) 0 UTC) in
  let batch := [rec 1; rec 2; rec 3; rec 4; rec 5; rec 6;
                mkVersionInfo "example.com/a" (pretty 3) (mkTime 63690520007 0 UTC);
                rec 8; rec 9; rec 10] in
  let r := modindex.insertVersions (H := rfc3339.lib) (Open sqlite.empty) batch in
  r.2 = Some ErrInsertVersion
  /\ (size <$> (versions <$> pending r.1)) = Some 6%nat
  /\ Close r.1 = sqlite.empty.
Proof. vm_compute. repeat split. Qed.

(** The record the two engines treat differently while the cursor is unset:
    one that equals the zero value of [VersionInfo]. The inline engine takes
    it for the cursor and stops; the refactored engine writes it. *)
Remark zero_record_differs :
  let w := sample.always [zeroInfo] in
  inserts (events (indexcmd.updateCmd (H := rfc3339.lib) w sample.start 1 sqlite.empty))
  = []
  /\ inserts (events (modindex.SynchronizeDatabase (H := rfc3339.lib) w sample.start 1
                        sqlite.empty))
     = [[zeroInfo]].
Proof. vm_compute. repeat split. Qed.

(** * Further properties *)

(** ** Lists *)

Section Lists.

Lemma filter_all {A} (P : A -> Prop) `{!forall x, Decision (P x)} (l : list A) :
  (forall x, x ∈ l -> P x) -> filter P l = l.
Proof.
  induction l as [|x l IH]; intros Hall; [done|].
  rewrite filter_cons, decide_True by (apply Hall; by left).
  rewrite IH; [done|]. intros y Hy. apply Hall. by right.
Qed.

Lemma filter_none {A} (P : A -> Prop) `{!forall x, Decision (P x)} (l : list A) :
  (forall x, x ∈ l -> ~ P x) -> filter P l = [].
Proof.
  induction l as [|x l IH]; intros Hall; [done|].
  rewrite filter_cons, decide_False by (apply Hall; by left).
  apply IH. intros y Hy. apply Hall. by right.
Qed.

Lemma length_filter_less {A} (P Q : A -> Prop) `{!forall x, Decision (P x)}
    `{!forall x, Decision (Q x)} (l : list A) x :
  (forall y, P y -> Q y) -> x ∈ l -> Q x -> ~ P x ->
  (length (filter P l) < length (filter Q l))%nat.
Proof.
  intros Himp Hx HQ HP. rewrite <- (list_filter_filter_l P Q l Himp).
  apply length_filter_lt with x; [|done]. by apply list_elem_of_filter.
Qed.

End Lists.

Section Keys.
Context {A B : Type}.

Lemma fst_unique (l : list (A * B)) x y1 y2 :
  NoDup (l.*1) -> (x, y1) ∈ l -> (x, y2) ∈ l -> y1 = y2.
Proof.
  induction l as [|[a b] l IH]; cbn.
  - by intros _ ?%elem_of_nil.
  - intros [Hni Hnd]%NoDup_cons [Hp|Hp]%elem_of_cons [Hq|Hq]%elem_of_cons.
    + congruence.
    + injection Hp as <- <-. destruct Hni. apply list_elem_of_fmap. by exists (x, y2).
    + injection Hq as <- <-. destruct Hni. apply list_elem_of_fmap. by exists (x, y1).
    + by apply IH.
Qed.

Lemma snd_unique (l : list (A * B)) x1 x2 y :
  NoDup (l.*2) -> (x1, y) ∈ l -> (x2, y) ∈ l -> x1 = x2.
Proof.
  induction l as [|[a b] l IH]; cbn.
  - by intros _ ?%elem_of_nil.
  - intros [Hni Hnd]%NoDup_cons [Hp|Hp]%elem_of_cons [Hq|Hq]%elem_of_cons.
    + congruence.
    + injection Hp as <- <-. destruct Hni. apply list_elem_of_fmap. by exists (x2, y).
    + injection Hq as <- <-. destruct Hni. apply list_elem_of_fmap. by exists (x1, y).
    + by apply IH.
Qed.

Lemma Forall2_elem_of (R : A -> B -> Prop) l k :
  Forall2 R l k -> Forall2 (fun x y => x ∈ l /\ y ∈ k /\ R x y) l k.
Proof.
  intros [Hlen HR]%Forall2_same_length_lookup.
  apply Forall2_same_length_lookup. split; [done|].
  intros i x y Hx Hy. split; [by eapply list_elem_of_lookup_2|].
  split; [by eapply list_elem_of_lookup_2|by eapply HR].
Qed.

End Keys.

(** ** The constraints of the schema *)

Section Constraints.
Context `{Lib}.

Lemma referential_resolvePath d p d' id :
  referential d -> resolvePath d p = Some (d', id) -> referential d'.
Proof.
  intros Href Hr.
  destruct (resolvePath_Some d p) as (d1 & id1 & Hr1 & _ & _ & Hvs & [extra He] & _).
  rewrite Hr in Hr1. injection Hr1 as <- <-.
  intros i ver Hsome. rewrite Hvs in Hsome.
  destruct (Href i ver Hsome) as [q Hq]. exists q.
  rewrite (selectPath_paths (mkDB (paths d ++ extra) (versions d)) d') by done.
  by apply selectPath_app.
Qed.

Lemma referential_insert d id ver t :
  referential d -> is_Some (selectPath d id) ->
  referential (mkDB (paths d) (<[(id, ver) := t]> (versions d))).
Proof.
  intros Href Hid i v Hsome. cbn in Hsome.
  rewrite (selectPath_paths d) by done.
  destruct (decide ((id, ver) = (i, v))) as [[= <- <-]|Hne]; [done|].
  rewrite lookup_insert_ne in Hsome by done. by apply (Href i v).
Qed.

Lemma wellFormed_resolvePath d p d' id :
  wellFormed d -> resolvePath d p = Some (d', id) -> wellFormed d'.
Proof.
  intros (Hpk & Hu & Href) Hr. split; [|split].
  - by eapply primaryKey_resolvePath.
  - by eapply uniquePath_resolvePath.
  - by eapply referential_resolvePath.
Qed.

Lemma wellFormed_insert d id ver t :
  wellFormed d -> is_Some (selectPath d id) ->
  wellFormed (mkDB (paths d) (<[(id, ver) := t]> (versions d))).
Proof.
  intros (Hpk & Hu & Href) Hid. split; [done|]. split; [done|].
  by apply referential_insert.
Qed.

End Constraints.

(** A property of the store that the two statements of the writers keep is
    kept by every run. *)
Section Kept.
Context `{Lib}.
Context (P : DB -> Prop).
Hypothesis P_resolvePath :
  forall d p d' id, P d -> resolvePath d p = Some (d', id) -> P d'.
Hypothesis P_insert :
  forall d id ver t, P d -> is_Some (selectPath d id) ->
                     P (mkDB (paths d) (<[(id, ver) := t]> (versions d))).

(** The working copy of the plain writer has the property at every point,
    whether the batch goes through or stops. *)
Lemma kept_insertRows tx vs : P tx -> P (modindex.insertRows tx vs).1.
Proof.
  revert tx. induction vs as [|v rest IH]; intros tx Hwf; [done|].
  cbn [modindex.insertRows].
  destruct (resolvePath tx (Path v)) as [[tx1 id]|] eqn:Hr; [|done].
  pose proof (P_resolvePath _ _ _ _ Hwf Hr) as Hwf1.
  destruct (insertVersion tx1 id _ _) as [tx2|] eqn:Hins; [|done].
  apply IH. apply insertVersion_Some in Hins as (Hid & _ & ->).
  by apply P_insert.
Qed.

Lemma kept_writeRows last prev vs tx cov :
  P tx -> P (indexcmd.txDB (indexcmd.writeRows last prev vs tx cov)).
Proof.
  revert prev tx cov. induction vs as [|v rest IH]; intros prev tx cov Hwf; [done|].
  cbn [indexcmd.writeRows].
  destruct (bool_decide (prev = None) && negb (IsZero (Timestamp last))
            && sameRecord v last); [by apply IH|].
  destruct (resolvePath tx (Path v)) as [[tx1 id]|] eqn:Hr; [|done].
  pose proof (P_resolvePath _ _ _ _ Hwf Hr) as Hwf1.
  destruct (insertOrReplaceVersion tx1 id _ _) as [tx2|] eqn:Hins; [|done].
  cbn [indexcmd.txDB]. apply IH.
  apply insertOrReplaceVersion_Some in Hins as (Hid & ->).
  by apply P_insert.
Qed.

Lemma kept_iteration w start n st evs r :
  P (committed (conn st)) ->
  modindex.iteration w start n st = (evs, r) ->
  match r with
  | Continue st' => P (committed (conn st'))
  | Stop _ c => P (committed c)
  end.
Proof.
  intros Hwf. unfold modindex.iteration.
  destruct (GetVersions w n _ 2000) as [vs|]; [|by intros [= _ <-]].
  destruct (modindex.versionsToInsert (last st) vs) as [[ti bug]|]; [|by intros [= _ <-]].
  destruct ti as [|first rest]; [by intros [= _ <-]|].
  pose proof (kept_insertRows (committed (conn st)) (first :: rest) Hwf) as Hwf'.
  unfold modindex.insertVersions.
  destruct (modindex.insertRows (committed (conn st)) (first :: rest)) as [tx [e|]];
    by intros [= _ <-].
Qed.

Lemma kept_iteration_inline w start n st evs r :
  P (committed (conn st)) ->
  indexcmd.iteration w start n st = (evs, r) ->
  match r with
  | Continue st' => P (committed (conn st'))
  | Stop _ c => P (committed c)
  end.
Proof.
  intros Hwf. unfold indexcmd.iteration.
  destruct (GetVersions w n _ 2000) as [vs|]; [|by intros [= _ <-]].
  destruct (indexcmd.upToDateTest (last st) vs); [by intros [= _ <-]|].
  pose proof (kept_writeRows (last st) None vs (committed (conn st)) (covered st) Hwf)
    as Hwf'.
  destruct (indexcmd.txErr _); by intros [= _ <-].
Qed.

Lemma kept_loop w start fuel n st :
  P (committed (conn st)) ->
  P (store (finish (modindex.loop w start fuel n st)))
  /\ P (store (finish (indexcmd.loop w start fuel n st))).
Proof.
  revert n st. induction fuel as [|fuel IH]; intros n st Hwf; [done|].
  cbn [modindex.loop indexcmd.loop]. split.
  - destruct (modindex.iteration w start n st) as [evs [st'|e c]] eqn:Hit;
      apply kept_iteration in Hit; try done.
    destruct (IH (S n) st' Hit) as [Hm _].
    by destruct (modindex.loop w start fuel (S n) st') as [evs' [s|e c]].
  - destruct (indexcmd.iteration w start n st) as [evs [st'|e c]] eqn:Hit;
      apply kept_iteration_inline in Hit; try done.
    destruct (IH (S n) st' Hit) as [_ Hi].
    by destruct (indexcmd.loop w start fuel (S n) st') as [evs' [s|e c]].
Qed.

Lemma kept_runs w start fuel d :
  P d ->
  P (store (modindex.SynchronizeDatabase w start fuel d))
  /\ P (store (indexcmd.updateCmd w start fuel d)).
Proof.
  intros Hwf. unfold modindex.SynchronizeDatabase, indexcmd.updateCmd.
  change (indexcmd.lastRow d) with (modindex.lastVersionInfo d).
  destruct (modindex.lastVersionInfo d) as [l [e|]]; [done|].
  by apply kept_loop.
Qed.

End Kept.

(** X1. Both engines keep the constraints of the schema: whatever the server
    answers and however the run ends, the store they leave has unique path
    ids, unique paths, and a path row for every version row. *)
Theorem X1_engines_keep_constraints `{Lib} w start fuel d :
  wellFormed d ->
  wellFormed (store (modindex.SynchronizeDatabase w start fuel d))
  /\ wellFormed (store (indexcmd.updateCmd w start fuel d)).
Proof.
  apply kept_runs.
  - apply wellFormed_resolvePath.
  - intros d0 id ver t. apply wellFormed_insert.
Qed.

(** ** When a batch commits *)

Section PlainWriter.
Context `{Lib}.

Lemma stored_samePair d u v : stored d u -> pairOf u = pairOf v -> keyTaken d v.
Proof.
  intros (id & Hid & Hrow) [= Hp Hv]. exists id. rewrite <- Hp, <- Hv.
  split; [done|by eexists].
Qed.

(** A batch that goes through names no pair twice. *)
Lemma insertRows_NoDup tx vs tx' :
  modindex.insertRows tx vs = (tx', None) -> NoDup (pairOf <$> vs).
Proof.
  revert tx. induction vs as [|u rest IH]; intros tx; [constructor|].
  cbn [modindex.insertRows].
  destruct (resolvePath_Some tx (Path u)) as (tx1 & id & Hr & Hsel & _).
  rewrite Hr.
  destruct (insertVersion tx1 id (Version u) (Format (Timestamp u))) as [tx2|] eqn:Hins;
    [|done].
  intros Hrest. cbn. apply NoDup_cons. split; [|by eapply IH].
  intros (v & Hpair & Hv)%list_elem_of_fmap.
  destruct (insertRows_taken tx2 rest v Hv) as [e He]; [|by rewrite Hrest in He].
  apply insertVersion_Some in Hins as (_ & _ & ->).
  eapply (stored_samePair _ u); [|done].
  exists id. split; [done|]. cbn. by rewrite lookup_insert_eq.
Qed.

(** The fresh id of a new path has no row of [versions] yet. *)
Lemma nextID_no_rows d ver : referential d -> versions d !! (nextID d, ver) = None.
Proof.
  intros Href. destruct (versions d !! (nextID d, ver)) as [t|] eqn:E; [|done].
  destruct (Href (nextID d) ver) as [q Hq]; [by eexists|].
  apply selectPath_Some, nextID_fresh in Hq. lia.
Qed.

Lemma resolvePath_free d p ver d' id :
  referential d -> resolvePath d p = Some (d', id) ->
  (forall i, selectPathID d p = Some i -> versions d !! (i, ver) = None) ->
  versions d' !! (id, ver) = None.
Proof.
  intros Href. unfold resolvePath. destruct (selectPathID d p) as [i|] eqn:E.
  - intros [= <- <-] Hfree. by apply Hfree.
  - rewrite (selectPathID_None_insertPath _ _ E). intros [= <- <-] _. cbn.
    by apply nextID_no_rows.
Qed.

Lemma not_keyTaken_free d v i :
  ~ keyTaken d v -> selectPathID d (Path v) = Some i ->
  versions d !! (i, Version v) = None.
Proof.
  intros Hk Hi. destruct (versions d !! (i, Version v)) as [t|] eqn:E; [|done].
  destruct Hk. exists i. split; [done|by eexists].
Qed.

(** Writing the row of one record takes the pair of no record of another
    pair. *)
Lemma keyTaken_after_insert tx u tx1 id v :
  wellFormed tx -> resolvePath tx (Path u) = Some (tx1, id) ->
  pairOf u <> pairOf v -> ~ keyTaken tx v ->
  ~ keyTaken (mkDB (paths tx1)
                (<[(id, Version u) := Format (Timestamp u)]> (versions tx1))) v.
Proof.
  intros Hwf Hr Hne Hk (i & Hi & Hrow). cbn in Hrow.
  destruct (resolvePath_Some tx (Path u)) as (tx1' & id' & Hr' & Hsel & Hin & Hvs & _ & Hst).
  rewrite Hr in Hr'. injection Hr' as <- <-.
  pose proof (wellFormed_resolvePath _ _ _ _ Hwf Hr) as (Hpk1 & Hu1 & Href1).
  change (selectPathID _ (Path v)) with (selectPathID tx1 (Path v)) in Hi.
  destruct (decide ((id, Version u) = (i, Version v))) as [[= -> Hver]|Hneq].
  - apply Hne. unfold pairOf. f_equal; [|done].
    apply selectPathID_Some in Hi. by eapply primaryKey_unique.
  - rewrite lookup_insert_ne in Hrow by done. rewrite Hvs in Hrow.
    destruct (selectPathID tx (Path v)) as [j|] eqn:Hj.
    + pose proof (Hst _ _ Hj) as Hj1. rewrite Hi in Hj1. injection Hj1 as ->.
      apply Hk. by exists j.
    + (* the path of [v] is the one just inserted *)
      destruct Hwf as (_ & _ & Href).
      destruct (Href i (Version v) Hrow) as [q Hq].
      apply selectPath_Some in Hq.
      assert (Hq1 : (i, q) ∈ paths tx1).
      { destruct (resolvePath_Some tx (Path u)) as (? & ? & Hr2 & _ & _ & _ & [ex Hex] & _).
        rewrite Hr in Hr2. injection Hr2 as <- <-. rewrite Hex.
        apply elem_of_app. by left. }
      apply selectPathID_Some in Hi.
      pose proof (primaryKey_unique _ _ _ _ Hpk1 Hi Hq1) as <-.
      apply selectPathID_None in Hj. apply Hj.
      apply list_elem_of_fmap. by exists (i, Path v).
Qed.

Lemma insertRows_free tx vs :
  wellFormed tx ->
  (forall v, v ∈ vs -> ~ keyTaken tx v) -> NoDup (pairOf <$> vs) ->
  (modindex.insertRows tx vs).2 = None.
Proof.
  revert tx. induction vs as [|u rest IH]; intros tx Hwf Hfree Hnd; [done|].
  cbn [modindex.insertRows].
  destruct (resolvePath_Some tx (Path u)) as (tx1 & id & Hr & Hsel & Hin & Hvs & _ & Hst).
  rewrite Hr.
  pose proof (wellFormed_resolvePath _ _ _ _ Hwf Hr) as Hwf1.
  assert (Hrow : versions tx1 !! (id, Version u) = None).
  { destruct Hwf as (_ & _ & Href). eapply resolvePath_free; [done|exact Hr|].
    intros i Hi. apply not_keyTaken_free; [|done]. apply Hfree. by left. }
  destruct (selectPath_is_Some _ _ _ Hin) as [q Hq].
  unfold insertVersion. rewrite Hq, Hrow.
  cbn in Hnd. apply NoDup_cons in Hnd as [Hu Hnd].
  apply IH; [by apply wellFormed_insert; [|eexists]| |done].
  intros v Hv. apply (keyTaken_after_insert tx u tx1 id v Hwf Hr).
  - intros Hp. apply Hu. rewrite Hp. apply list_elem_of_fmap. by exists v.
  - apply Hfree. by right.
Qed.

(** X2. In a store that satisfies its constraints, [insertVersions] commits a
    batch exactly when no record of it names a pair that is taken in the
    store and no two records of it name the same pair. *)
Theorem X2_insertVersions_commits_iff d batch :
  wellFormed d ->
  (modindex.insertVersions (Open d) batch).2 = None
  <-> (forall v, v ∈ batch -> ~ keyTaken d v) /\ NoDup (pairOf <$> batch).
Proof.
  intros Hwf. unfold modindex.insertVersions. cbn [Open committed].
  destruct (modindex.insertRows d batch) as [tx [e|]] eqn:Hrows; cbn [snd].
  - split; [done|]. intros [Hfree Hnd].
    pose proof (insertRows_free d batch Hwf Hfree Hnd) as Hok.
    by rewrite Hrows in Hok.
  - split; [|done]. intros _. split.
    + intros v Hv Hk. destruct (insertRows_taken d batch v Hv Hk) as [e He].
      by rewrite Hrows in He.
    + by eapply insertRows_NoDup.
Qed.

Lemma insertRows_size tx vs tx' :
  modindex.insertRows tx vs = (tx', None) ->
  size (versions tx') = (size (versions tx) + length vs)%nat.
Proof.
  revert tx. induction vs as [|u rest IH]; intros tx.
  - intros [= <-]. cbn. lia.
  - cbn [modindex.insertRows].
    destruct (resolvePath_Some tx (Path u)) as (tx1 & id & Hr & _ & _ & Hvs & _).
    rewrite Hr.
    destruct (insertVersion tx1 id (Version u) (Format (Timestamp u))) as [tx2|] eqn:Hins;
      [|done].
    apply insertVersion_Some in Hins as (_ & Hfree & ->).
    intros Hrest. rewrite (IH _ Hrest). cbn.
    rewrite map_size_insert_None by done. rewrite Hvs. lia.
Qed.

(** X3. What a committed batch leaves: every record of it is in the store under
    its pair with its timestamp formatted, the rows and the paths that were
    there are as they were, and there is one more row per record. *)
Theorem X3_insertVersions_commit_effect c batch c' :
  modindex.insertVersions c batch = (c', None) ->
  pending c' = None
  /\ (forall v, v ∈ batch -> stored (Close c') v)
  /\ (forall k t, versions (committed c) !! k = Some t -> versions (Close c') !! k = Some t)
  /\ paths (committed c) `prefix_of` paths (Close c')
  /\ size (versions (Close c')) = (size (versions (committed c)) + length batch)%nat.
Proof.
  intros [Hrows Hp]%insertVersions_None. split; [done|].
  pose proof (insertRows_ok _ _ _ Hrows) as (Hext & _ & Hkeep & Hall).
  pose proof (insertRows_size _ _ _ Hrows) as Hsize.
  unfold Close. split; [done|]. split; [done|]. split; [|done].
  destruct Hext as [extra ->]. by exists extra.
Qed.

End PlainWriter.

(** ** How a run ends *)

Section Exits.
Context `{Lib}.

Lemma writeRows_no_error last prev vs tx cov :
  indexcmd.txErr (indexcmd.writeRows last prev vs tx cov) = None.
Proof.
  destruct prev as [p|]; [apply writeRows_rest|].
  destruct vs as [|v rest]; [done|].
  destruct (writeRows_first last v rest tx cov) as (ti & bug & cov' & _ & Herr & _).
  exact Herr.
Qed.

Lemma inline_iteration_Stop w start n st evs e c :
  indexcmd.iteration w start n st = (evs, Stop e c) ->
  (e = Done \/ e = Failed ErrGetVersions) /\ c = conn st.
Proof.
  unfold indexcmd.iteration.
  destruct (GetVersions w n _ 2000) as [vs|]; [|intros [= _ <- <-]; by split; [right|]].
  destruct (indexcmd.upToDateTest (last st) vs); [intros [= _ <- <-]; by split; [left|]|].
  by rewrite writeRows_no_error.
Qed.

Lemma inline_loop_Stop w start fuel n st evs e c :
  indexcmd.loop w start fuel n st = (evs, Stop e c) ->
  e = Done \/ e = Failed ErrGetVersions.
Proof.
  revert n st evs. induction fuel as [|fuel IH]; intros n st evs; [done|].
  cbn [indexcmd.loop].
  destruct (indexcmd.iteration w start n st) as [evs1 [st1|e1 c1]] eqn:Hit.
  - destruct (indexcmd.loop w start fuel (S n) st1) as [evs2 r2] eqn:Hl.
    intros [= _ ->]. by eapply IH.
  - intros [= _ <- _]. by apply inline_iteration_Stop in Hit as [? _].
Qed.

Lemma insertRows_no_path_error tx vs :
  (modindex.insertRows tx vs).2 <> Some ErrInsertPath.
Proof.
  revert tx. induction vs as [|u rest IH]; intros tx; [done|].
  cbn [modindex.insertRows].
  destruct (resolvePath_Some tx (Path u)) as (tx1 & id & -> & _).
  destruct (insertVersion tx1 id (Version u) (Format (Timestamp u))); [apply IH|done].
Qed.

Lemma iteration_no_path_error w start n st evs c :
  modindex.iteration w start n st <> (evs, Stop (Failed ErrInsertPath) c).
Proof.
  unfold modindex.iteration.
  destruct (GetVersions w n _ 2000) as [vs|]; [|done].
  destruct (modindex.versionsToInsert (last st) vs) as [[toInsert bug]|]; [|done].
  destruct toInsert as [|first rest]; [done|].
  unfold modindex.insertVersions.
  pose proof (insertRows_no_path_error (committed (conn st)) (first :: rest)) as Hne.
  destruct (modindex.insertRows (committed (conn st)) (first :: rest)) as [tx [e|]];
    [|done].
  intros [= _ -> _]. by apply Hne.
Qed.

Lemma loop_no_path_error w start fuel n st evs c :
  modindex.loop w start fuel n st <> (evs, Stop (Failed ErrInsertPath) c).
Proof.
  revert n st evs. induction fuel as [|fuel IH]; intros n st evs; [done|].
  cbn [modindex.loop].
  destruct (modindex.iteration w start n st) as [evs1 [st1|e1 c1]] eqn:Hit.
  - destruct (modindex.loop w start fuel (S n) st1) as [evs2 r2] eqn:Hl.
    intros [= _ ->]. by eapply IH.
  - intros [= -> -> ->]. by eapply iteration_no_path_error.
Qed.

(** X4. The ways a run can end. The uniqueness of [paths.path] stops neither
    engine, since the path is looked up before it is inserted; the inline
    engine is stopped by no constraint of the schema and by no empty answer:
    its runs end with the feed, with an error of the server, or at the
    start, before anything is fetched, on a timestamp of the store that
    cannot be read. *)
Theorem X4_engines_exits w start fuel d :
  exit (modindex.SynchronizeDatabase w start fuel d) <> Failed ErrInsertPath
  /\ let r := indexcmd.updateCmd w start fuel d in
     exit r = Done \/ exit r = Running \/ exit r = Failed ErrGetVersions
     \/ (exit r = Failed ErrParseTimestamp /\ events r = [] /\ store r = d).
Proof.
  split.
  - unfold modindex.SynchronizeDatabase, modindex.lastVersionInfo.
    destruct (maxRow (joined d)) as [[[p ver] text]|].
    + destruct (Parse text); [|done].
      destruct (modindex.loop _ _ _ _ _) as [evs [st|e c]] eqn:Hl; [done|].
      cbn. intros ->. by eapply loop_no_path_error.
    + destruct (modindex.loop _ _ _ _ _) as [evs [st|e c]] eqn:Hl; [done|].
      cbn. intros ->. by eapply loop_no_path_error.
  - unfold indexcmd.updateCmd, indexcmd.lastRow.
    assert (Hloop : forall l,
      let r := finish (indexcmd.loop w start fuel 0 (mkState (Open d) l 0)) in
      exit r = Done \/ exit r = Running \/ exit r = Failed ErrGetVersions
      \/ (exit r = Failed ErrParseTimestamp /\ events r = [] /\ store r = d)).
    { intros l. destruct (indexcmd.loop _ _ _ _ _) as [evs [st|e c]] eqn:Hl; cbn.
      - by right; left.
      - apply inline_loop_Stop in Hl as [-> | ->]; [by left|by right; right; left]. }
    destruct (maxRow (joined d)) as [[[p ver] text]|].
    + destruct (Parse text); [apply Hloop|]. cbn. by right; right; right.
    + apply Hloop.
Qed.

(** ** What a run leaves in the store *)

Lemma records_app a b : records (a ++ b) = (records a + records b)%nat.
Proof. unfold records. by rewrite fmap_app, sum_list_with_app. Qed.

Lemma inserts_fetch since limit evs :
  inserts (EvFetch since limit :: evs) = inserts evs.
Proof. done. Qed.

Lemma iteration_rows w start n st evs r :
  modindex.iteration w start n st = (evs, r) ->
  (forall e c, r = Stop e c -> e <> Failed ErrInsertVersion) ->
  size (versions (reached r))
  = (size (versions (committed (conn st))) + records (inserts evs))%nat
  /\ (forall v, stored (committed (conn st)) v -> stored (reached r) v)
  /\ (forall batch v, batch ∈ inserts evs -> v ∈ batch -> stored (reached r) v).
Proof.
  unfold modindex.iteration.
  set (progress := match modindex.printProgress _ _ _ _ with
                   | Some r => [EvProgress r] | None => [] end).
  assert (Hp : inserts progress = []).
  { subst progress. by destruct (modindex.printProgress _ _ _ _). }
  destruct (GetVersions w n _ 2000) as [vs|].
  2:{ intros [= <- <-] _. rewrite inserts_app, Hp. cbn. split; [lia|].
      split; [done|]. by intros batch v ?%elem_of_nil. }
  destruct (modindex.versionsToInsert (last st) vs) as [[toInsert bug]|] eqn:Hvti.
  2:{ intros [= <- <-] _. rewrite inserts_app, Hp. cbn. split; [lia|].
      split; [done|]. by intros batch v ?%elem_of_nil. }
  assert (Hbug : inserts bug = []).
  { revert Hvti. unfold modindex.versionsToInsert.
    destruct (IsZero (Timestamp (last st))); [by intros [= _ <-]|].
    destruct vs as [|v0 rest]; [done|].
    destruct (sameRecord v0 (last st)); by intros [= _ <-]. }
  destruct toInsert as [|first rest].
  { intros [= <- <-] _. rewrite !inserts_app, Hp, inserts_fetch, inserts_app, Hbug. cbn. split; [lia|].
    split; [done|]. by intros batch v ?%elem_of_nil. }
  destruct (modindex.insertVersions (conn st) (first :: rest)) as [c [e|]] eqn:Hins.
  - intros [= <- <-] Hne. exfalso.
    pose proof (insertRows_no_path_error (committed (conn st)) (first :: rest)) as Hnp.
    pose proof (insertVersions_error _ _ _ _ Hins) as He.
    revert Hins. unfold modindex.insertVersions.
    destruct (modindex.insertRows (committed (conn st)) (first :: rest)) as [tx [e'|]];
      [|done].
    intros [= _ ->]. destruct He as [-> | ->]; [done|]. by eapply Hne.
  - intros [= <- <-] _. rewrite !inserts_app, Hp, inserts_fetch, inserts_app, Hbug. cbn [reached conn committed].
    apply insertVersions_None in Hins as [Hrows _].
    pose proof (insertRows_size _ _ _ Hrows) as Hsize.
    pose proof (insertRows_ok _ _ _ Hrows) as (_ & _ & _ & Hall).
    split; [|split].
    + rewrite Hsize. unfold records. cbn. lia.
    + intros v. by apply stored_insertRows with (vs := first :: rest).
    + cbn. intros batch v ->%list_elem_of_singleton. apply Hall.
Qed.

Lemma loop_rows w start fuel n st evs r :
  modindex.loop w start fuel n st = (evs, r) ->
  (forall e c, r = Stop e c -> e <> Failed ErrInsertVersion) ->
  size (versions (reached r))
  = (size (versions (committed (conn st))) + records (inserts evs))%nat
  /\ (forall v, stored (committed (conn st)) v -> stored (reached r) v)
  /\ (forall batch v, batch ∈ inserts evs -> v ∈ batch -> stored (reached r) v).
Proof.
  revert n st evs. induction fuel as [|fuel IH]; intros n st evs.
  { intros [= <- <-] _. cbn. split; [lia|]. split; [done|].
    by intros batch v ?%elem_of_nil. }
  cbn [modindex.loop].
  destruct (modindex.iteration w start n st) as [evs1 [st1|e1 c1]] eqn:Hit.
  - destruct (modindex.loop w start fuel (S n) st1) as [evs2 r2] eqn:Hl.
    intros [= <- <-] Hne.
    destruct (iteration_rows _ _ _ _ _ _ Hit) as (S1 & K1 & A1); [done|].
    destruct (IH _ _ _ Hl Hne) as (S2 & K2 & A2).
    cbn [reached] in S1, K1, A1.
    rewrite inserts_app, records_app. split; [lia|]. split; [by auto|].
    intros batch v [Hb|Hb]%elem_of_app Hv; [|by eapply A2].
    apply K2. by eapply A1.
  - intros [= <- <-] Hne. by apply (iteration_rows _ _ _ _ _ _ Hit).
Qed.

(** X5. A run that does not end on the primary key of [versions] has written
    every batch it reports: each record of each batch is in the store it
    leaves, each record that was in the store is still there, and the table
    has grown by exactly one row per record. *)
Theorem X5_run_accounts_for_every_record w start fuel d :
  let r := modindex.SynchronizeDatabase w start fuel d in
  exit r <> Failed ErrInsertVersion ->
  size (versions (store r)) = (size (versions d) + records (inserts (events r)))%nat
  /\ (forall v, stored d v -> stored (store r) v)
  /\ (forall batch v, batch ∈ inserts (events r) -> v ∈ batch -> stored (store r) v).
Proof.
  unfold modindex.SynchronizeDatabase.
  destruct (modindex.lastVersionInfo d) as [l [e|]].
  { cbn. intros _. split; [lia|]. split; [done|]. by intros batch v ?%elem_of_nil. }
  destruct (modindex.loop w start fuel 0 (mkState (Open d) l 0)) as [evs r] eqn:Hl.
  intros Hne.
  destruct (loop_rows _ _ _ _ _ _ _ Hl) as (S1 & K1 & A1).
  { intros e c ->. exact Hne. }
  by destruct r.
Qed.

End Exits.

(** ** A list that does not start with the cursor *)

Section Violation.
Context `{Lib}.

(** The line of the report, spelled out. *)
Lemma bugLine_text last v :
  bugLine last v
  = "BUG: index: expected list to start with "
    +:+ Path last +:+ "@" +:+ Version last +:+ "@" +:+ Format (Timestamp last)
    +:+ " but got "
    +:+ Path v +:+ "@" +:+ Version v +:+ "@" +:+ Format (Timestamp v) +:+ nl.
Proof. unfold bugLine, DebugString. by rewrite !append_assoc. Qed.

(** A batch the plain writer does not commit stops on the insert into
    [versions]: a pair of the batch is in the store or comes twice. *)
Lemma insertRows_not_fresh tx vs :
  wellFormed tx ->
  ~ ((forall v, v ∈ vs -> ~ keyTaken tx v) /\ NoDup (pairOf <$> vs)) ->
  (modindex.insertRows tx vs).2 = Some ErrInsertVersion.
Proof.
  intros Hwf Hnot.
  destruct (modindex.insertRows tx vs) as [tx' [e|]] eqn:Hrows; cbn [snd].
  - destruct (insertRows_error tx vs e) as [->| ->]; [by rewrite Hrows| |done].
    destruct (insertRows_no_path_error tx vs). by rewrite Hrows.
  - destruct Hnot. split.
    + intros v Hv Hk. destruct (insertRows_taken tx vs v Hv Hk) as [e He].
      by rewrite Hrows in He.
    + by eapply insertRows_NoDup.
Qed.

(** C5, as the code has it. When the cursor is set and the first fetched
    record differs from it, both engines write the line that names the
    cursor and the record on stderr and hand the whole fetched list to their
    writer. The inline engine, whose writes replace, goes on with the last
    fetched record as its cursor. The refactored engine, over a store that
    satisfies the constraints of the schema, goes on in the same way when no
    pair of the list is in the store and none comes twice, and otherwise
    ends with the error of the insert into [versions], the store as it
    was. *)
Theorem C5_protocol_violation_reported w start n st v rest :
  cursorSet (last st) ->
  sameRecord v (last st) = false ->
  GetVersions w n (Timestamp (last st)) 2000 = Some (v :: rest) ->
  wellFormed (committed (conn st)) ->
  let line :=
    "BUG: index: expected list to start with "
    +:+ Path (last st) +:+ "@" +:+ Version (last st) +:+ "@"
    +:+ Format (Timestamp (last st))
    +:+ " but got "
    +:+ Path v +:+ "@" +:+ Version v +:+ "@" +:+ Format (Timestamp v) +:+ nl in
  let seen := [EvFetch (Timestamp (last st)) 2000; EvStderr line;
               EvInsert (v :: rest)] in
  let final := default v (list.last (v :: rest)) in
  let fresh :=
    (forall u, u ∈ v :: rest -> ~ keyTaken (committed (conn st)) u)
    /\ NoDup (pairOf <$> v :: rest) in
  observable (modindex.iteration w start n st).1 = seen
  /\ observable (indexcmd.iteration w start n st).1 = seen
  /\ (exists st', (indexcmd.iteration w start n st).2 = Continue st'
                  /\ last st' = final)
  /\ (fresh -> exists st', (modindex.iteration w start n st).2 = Continue st'
                           /\ last st' = final)
  /\ (~ fresh -> exists c, (modindex.iteration w start n st).2
                           = Stop (Failed ErrInsertVersion) c
                           /\ Close c = committed (conn st)).
Proof.
  intros Hset Hdiff Hget Hwf line seen final fresh.
  pose proof (versionsToInsert_other _ _ rest Hset Hdiff) as Hvti.
  assert (Hline : bugLine (last st) v = line) by apply bugLine_text.
  assert (Hup : indexcmd.upToDateTest (last st) (v :: rest) = false).
  { destruct rest; [exact Hdiff|done]. }
  destruct (writeRows_first (last st) v rest (committed (conn st)) (covered st))
    as (ti & bug & cov' & Hv & He & Hw & Hs & _).
  rewrite Hvti in Hv. injection Hv as <- <-.
  assert (Hfinal : default (last st) (list.last (v :: rest)) = final).
  { unfold final. rewrite last_cons. by destruct (list.last rest). }
  unfold modindex.iteration, indexcmd.iteration.
  rewrite Hget, Hvti, Hup, He, Hw, Hs, Hline.
  split; [|split; [|split; [|split]]].
  - destruct (modindex.insertVersions (conn st) (v :: rest)) as [c [e|]];
      by quiet_progress.
  - by quiet_progress.
  - eexists. split; [reflexivity|]. exact Hfinal.
  - intros [Hfree Hnd].
    pose proof (insertRows_free _ _ Hwf Hfree Hnd) as Hok.
    unfold modindex.insertVersions.
    destruct (modindex.insertRows (committed (conn st)) (v :: rest)) as [tx [e|]];
      [done|].
    eexists. split; reflexivity.
  - intros Hnot.
    pose proof (insertRows_not_fresh _ _ Hwf Hnot) as Hbad.
    unfold modindex.insertVersions.
    destruct (modindex.insertRows (committed (conn st)) (v :: rest)) as [tx [e|]];
      [|done].
    cbn [snd] in Hbad. injection Hbad as ->.
    eexists. split; reflexivity.
Qed.

End Violation.

(** C5, as the claim has it, fails on the refactored engine. The store holds
    [recA], which is the cursor, and the server answers with [recA'], the
    pair of [recA] under a later timestamp. The list does not start with the
    cursor: the engine writes its line and hands the list to the writer, the
    plain insert fails on the primary key, and the run is aborted. *)
Lemma C5_counterexample :
  let w := sample.always [sample.recA'] in
  modindex.lastVersionInfo (H := rfc3339.lib) sample.storeA = (sample.recA, None)
  /\ cursorSet sample.recA
  /\ sameRecord sample.recA' sample.recA = false
  /\ GetVersions w 0 (Timestamp sample.recA) 2000 = Some [sample.recA']
  /\ inserts (events (modindex.SynchronizeDatabase (H := rfc3339.lib) w sample.start 5
                        sample.storeA)) = [[sample.recA']]
  /\ exit (modindex.SynchronizeDatabase (H := rfc3339.lib) w sample.start 5
             sample.storeA) = Failed ErrInsertVersion.
Proof. vm_compute. repeat split; reflexivity. Qed.

(** ** A store that can be read back *)

Section Readable.
Context `{Lib}.

Lemma parseable_insert d id ver v :
  parseable d -> Parse (Format (Timestamp v)) = Some (Timestamp v) ->
  parseable (mkDB (paths d) (<[(id, ver) := Format (Timestamp v)]> (versions d))).
Proof.
  intros Hp Hv k t. cbn. destruct (decide (k = (id, ver))) as [->|Hne].
  - rewrite lookup_insert_eq. intros [= <-]. by eexists.
  - rewrite lookup_insert_ne by done. apply Hp.
Qed.

Lemma parseable_resolvePath d p d' id :
  parseable d -> resolvePath d p = Some (d', id) -> parseable d'.
Proof.
  intros Hp Hr k t.
  destruct (resolvePath_Some d p) as (d1 & id1 & Hr1 & _ & _ & Hvs & _).
  rewrite Hr in Hr1. injection Hr1 as <- <-. rewrite Hvs. apply Hp.
Qed.

Lemma parseable_insertRows tx vs :
  parseable tx -> roundTrips vs -> parseable (modindex.insertRows tx vs).1.
Proof.
  unfold roundTrips. revert tx. induction vs as [|u rest IH]; intros tx Hp Hrt; [done|].
  apply Forall_cons in Hrt as [Hu Hrt]. cbn [modindex.insertRows].
  destruct (resolvePath tx (Path u)) as [[tx1 id]|] eqn:Hr; [|done].
  pose proof (parseable_resolvePath _ _ _ _ Hp Hr) as Hp1.
  destruct (insertVersion tx1 id (Version u) (Format (Timestamp u))) as [tx2|] eqn:Hins;
    [|done].
  apply insertVersion_Some in Hins as (_ & _ & ->).
  apply IH; [|done]. by apply parseable_insert.
Qed.

Lemma parseable_writeRows last prev vs tx cov :
  parseable tx -> roundTrips vs ->
  parseable (indexcmd.txDB (indexcmd.writeRows last prev vs tx cov)).
Proof.
  unfold roundTrips. revert prev tx cov.
  induction vs as [|u rest IH]; intros prev tx cov Hp Hrt; [done|].
  apply Forall_cons in Hrt as [Hu Hrt]. cbn [indexcmd.writeRows].
  destruct (_ && sameRecord u last); [by apply IH|].
  destruct (resolvePath tx (Path u)) as [[tx1 id]|] eqn:Hr; [|done].
  pose proof (parseable_resolvePath _ _ _ _ Hp Hr) as Hp1.
  destruct (insertOrReplaceVersion tx1 id (Version u) (Format (Timestamp u)))
    as [tx2|] eqn:Hins; [|done].
  apply insertOrReplaceVersion_Some in Hins as (_ & ->).
  cbn [indexcmd.txDB]. apply IH; [|done]. by apply parseable_insert.
Qed.

Lemma versionsToInsert_roundTrips l vs toInsert bug :
  modindex.versionsToInsert l vs = Some (toInsert, bug) ->
  roundTrips vs -> roundTrips toInsert.
Proof.
  intros Hv. unfold roundTrips. rewrite !Forall_forall. intros Hall v Hin.
  apply Hall. by eapply versionsToInsert_subseteq.
Qed.

Lemma parseable_iteration w start n st evs r :
  answersRoundTrip w -> parseable (committed (conn st)) ->
  modindex.iteration w start n st = (evs, r) -> parseable (reached r).
Proof.
  intros Hw Hp. unfold modindex.iteration.
  destruct (GetVersions w n _ 2000) as [vs|] eqn:Hget; [|by intros [= _ <-]].
  apply Hw in Hget.
  destruct (modindex.versionsToInsert (last st) vs) as [[toInsert bug]|] eqn:Hvti;
    [|by intros [= _ <-]].
  pose proof (versionsToInsert_roundTrips _ _ _ _ Hvti Hget) as Hrt.
  destruct toInsert as [|first rest]; [by intros [= _ <-]|].
  pose proof (parseable_insertRows _ _ Hp Hrt) as Hp'.
  unfold modindex.insertVersions.
  destruct (modindex.insertRows (committed (conn st)) (first :: rest)) as [tx [e|]];
    by intros [= _ <-].
Qed.

Lemma parseable_loop w start fuel n st evs r :
  answersRoundTrip w -> parseable (committed (conn st)) ->
  modindex.loop w start fuel n st = (evs, r) -> parseable (reached r).
Proof.
  intros Hw. revert n st evs. induction fuel as [|fuel IH]; intros n st evs Hp.
  { by intros [= _ <-]. }
  cbn [modindex.loop].
  destruct (modindex.iteration w start n st) as [evs1 [st1|e1 c1]] eqn:Hit.
  - destruct (modindex.loop w start fuel (S n) st1) as [evs2 r2] eqn:Hl.
    intros [= _ <-]. eapply IH; [|done].
    by apply (parseable_iteration _ _ _ _ _ _ Hw Hp Hit).
  - intros [= _ <-]. by apply (parseable_iteration _ _ _ _ _ _ Hw Hp Hit).
Qed.

Lemma parseable_iteration_inline w start n st evs r :
  answersRoundTrip w -> parseable (committed (conn st)) ->
  indexcmd.iteration w start n st = (evs, r) -> parseable (reached r).
Proof.
  intros Hw Hp. unfold indexcmd.iteration.
  destruct (GetVersions w n _ 2000) as [vs|] eqn:Hget; [|by intros [= _ <-]].
  apply Hw in Hget.
  destruct (indexcmd.upToDateTest (last st) vs); [by intros [= _ <-]|].
  pose proof (parseable_writeRows (last st) None vs _ (covered st) Hp Hget) as Hp'.
  destruct (indexcmd.txErr _); by intros [= _ <-].
Qed.

Lemma parseable_loop_inline w start fuel n st evs r :
  answersRoundTrip w -> parseable (committed (conn st)) ->
  indexcmd.loop w start fuel n st = (evs, r) -> parseable (reached r).
Proof.
  intros Hw. revert n st evs. induction fuel as [|fuel IH]; intros n st evs Hp.
  { by intros [= _ <-]. }
  cbn [indexcmd.loop].
  destruct (indexcmd.iteration w start n st) as [evs1 [st1|e1 c1]] eqn:Hit.
  - destruct (indexcmd.loop w start fuel (S n) st1) as [evs2 r2] eqn:Hl.
    intros [= _ <-]. eapply IH; [|done].
    by apply (parseable_iteration_inline _ _ _ _ _ _ Hw Hp Hit).
  - intros [= _ <-]. by apply (parseable_iteration_inline _ _ _ _ _ _ Hw Hp Hit).
Qed.

Lemma store_finish r : store (finish r) = reached r.2.
Proof. by destruct r as [evs [st|e c]]. Qed.

(** The cursor of a store whose timestamps can all be read is read without
    an error. *)
Lemma parseable_lastVersionInfo d :
  parseable d -> (modindex.lastVersionInfo d).2 = None.
Proof.
  intros Hp. unfold modindex.lastVersionInfo.
  destruct (maxRow (joined d)) as [[[p ver] text]|] eqn:E; [|done].
  apply maxRow_elem_of, joined_elem_of in E as (id & Hrow & _).
  by destruct (Hp _ _ Hrow) as [t ->].
Qed.

Lemma parseable_runs w start fuel d :
  answersRoundTrip w -> parseable d ->
  parseable (store (modindex.SynchronizeDatabase w start fuel d))
  /\ parseable (store (indexcmd.updateCmd w start fuel d)).
Proof.
  intros Hw Hp. split.
  - unfold modindex.SynchronizeDatabase.
    destruct (modindex.lastVersionInfo d) as [l [e|]]; [done|].
    rewrite store_finish.
    destruct (modindex.loop w start fuel 0 (mkState (Open d) l 0)) as [evs r] eqn:Hl.
    cbn [snd]. by eapply (parseable_loop _ _ _ _ _ _ _ Hw); [|exact Hl].
  - unfold indexcmd.updateCmd.
    destruct (indexcmd.lastRow d) as [l [e|]]; [done|].
    rewrite store_finish.
    destruct (indexcmd.loop w start fuel 0 (mkState (Open d) l 0)) as [evs r] eqn:Hl.
    cbn [snd]. by eapply (parseable_loop_inline _ _ _ _ _ _ _ Hw); [|exact Hl].
Qed.

End Readable.

Lemma answersRoundTrip_representable w :
  answersRepresentable w -> answersRoundTrip (H := rfc3339.lib) w.
Proof. intros Hw n since limit vs Hget. eapply roundTrips_representable, Hw, Hget. Qed.

(** X6. With the layout of the standard library: when the timestamps of the
    store can be read and the server sends instants of the years 0000 to
    9999, the timestamps of the store either engine leaves can be read too,
    however the run ended, and the next run reads its cursor from it without
    an error. *)
Theorem X6_written_store_is_readable w start fuel d :
  parseable (H := rfc3339.lib) d -> answersRepresentable w ->
  let r := modindex.SynchronizeDatabase (H := rfc3339.lib) w start fuel d in
  let r' := indexcmd.updateCmd (H := rfc3339.lib) w start fuel d in
  parseable (H := rfc3339.lib) (store r)
  /\ parseable (H := rfc3339.lib) (store r')
  /\ (modindex.lastVersionInfo (H := rfc3339.lib) (store r)).2 = None
  /\ (indexcmd.lastRow (H := rfc3339.lib) (store r')).2 = None.
Proof.
  intros Hp Hw%answersRoundTrip_representable.
  destruct (parseable_runs (H := rfc3339.lib) w start fuel d Hw Hp) as [P1 P2].
  cbn zeta. split; [done|]. split; [done|].
  split; by apply parseable_lastVersionInfo.
Qed.

Section StartCursor.
Context `{Lib}.

(** X7. The cursor a run starts from. An empty join gives the zero value, with
    which the loop fetches from the beginning of the feed; otherwise the
    cursor is a row of the join whose timestamp text no other text exceeds
    in the order of bytes, with that text parsed. The inline engine reads
    the same cursor. *)
Theorem X7_lastVersionInfo_reads_largest_text d cur :
  modindex.lastVersionInfo d = (cur, None) ->
  indexcmd.lastRow d = (cur, None)
  /\ ((joined d = [] /\ cur = zeroInfo)
      \/ exists text,
           (Path cur, Version cur, text) ∈ joined d
           /\ Parse text = Some (Timestamp cur)
           /\ forall r, r ∈ joined d -> String.ltb text r.2 = false).
Proof.
  intros Hlast. split; [exact Hlast|]. revert Hlast.
  unfold modindex.lastVersionInfo.
  destruct (maxRow (joined d)) as [[[p ver] text]|] eqn:E.
  - destruct (Parse text) as [t|] eqn:Hp; [|done]. intros [= <-]. right.
    exists text. cbn. split; [by apply maxRow_elem_of|]. split; [done|].
    intros r Hr. apply (maxRow_max _ _ _ E Hr).
  - intros [= <-]. left. split; [by apply maxRow_None|done].
Qed.

End StartCursor.

(** ** The requests of a run *)

Section Requests.
Context `{Lib}.

Lemma fetches_progress (o : option Report) evs :
  fetches (match o with Some r => [EvProgress r] | None => [] end ++ evs) = fetches evs.
Proof. by destruct o. Qed.

Lemma inserts_progress (o : option Report) evs :
  inserts (match o with Some r => [EvProgress r] | None => [] end ++ evs) = inserts evs.
Proof. by destruct o. Qed.

Lemma versionsToInsert_bug l vs toInsert bug :
  modindex.versionsToInsert l vs = Some (toInsert, bug) ->
  inserts bug = [] /\ fetches bug = [] /\ reports bug = [].
Proof.
  unfold modindex.versionsToInsert.
  destruct (IsZero (Timestamp l)); [by intros [= _ <-]|].
  destruct vs as [|v0 rest]; [done|].
  destruct (sameRecord v0 l); by intros [= _ <-].
Qed.

(** An iteration makes one request, at the timestamp of the cursor, and
    writes at most one batch; when the loop goes on, the cursor is the last
    record of that batch. *)
Lemma iteration_trace w start n st evs r :
  modindex.iteration w start n st = (evs, r) ->
  fetches evs = [Timestamp (last st)]
  /\ match r with
     | Continue st' => exists b, inserts evs = [b] /\ list.last b = Some (last st')
     | Stop _ _ => inserts evs = [] \/ exists b, inserts evs = [b]
     end.
Proof.
  unfold modindex.iteration.
  destruct (GetVersions w n _ 2000) as [vs|].
  2:{ intros [= <- <-]. rewrite fetches_progress, inserts_progress. split; [done|by left]. }
  destruct (modindex.versionsToInsert (last st) vs) as [[toInsert bug]|] eqn:Hvti.
  2:{ intros [= <- <-]. rewrite fetches_progress, inserts_progress. split; [done|by left]. }
  destruct (versionsToInsert_bug _ _ _ _ Hvti) as (Hbi & Hbf & _).
  assert (Hf : forall tail, fetches tail = [] ->
            fetches (EvFetch (Timestamp (last st)) 2000 :: bug ++ tail)
            = [Timestamp (last st)]).
  { intros tail Ht. change (fetches (?e :: ?l)) with (Timestamp (last st) :: fetches l).
    by rewrite fetches_app, Hbf, Ht. }
  assert (Hi : forall tail,
            inserts (EvFetch (Timestamp (last st)) 2000 :: bug ++ tail) = inserts tail).
  { intros tail. change (inserts (?e :: ?l)) with (inserts l).
    by rewrite inserts_app, Hbi. }
  destruct toInsert as [|first rest].
  { intros [= <- <-]. cbn [app]. rewrite fetches_progress, inserts_progress, Hf, Hi by done.
    split; [done|by left]. }
  destruct (modindex.insertVersions (conn st) (first :: rest)) as [c [e|]];
    intros [= <- <-]; cbn [app]; rewrite fetches_progress, inserts_progress, Hf, Hi by done;
    (split; [done|]).
  - right. by eexists.
  - eexists. split; [done|]. cbn [last].
    destruct (list.last (first :: rest)) eqn:E; [done|].
    apply (proj1 (last_None _)) in E. discriminate.
Qed.

Lemma loop_trace w start fuel n st evs r :
  modindex.loop w start fuel n st = (evs, r) ->
  exists tail,
    Timestamp (last st) :: endsOf (inserts evs) = fetches evs ++ tail
    /\ match r with
       | Continue st' => tail = [Timestamp (last st')]
       | Stop _ _ => (length tail <= 1)%nat
       end.
Proof.
  revert n st evs. induction fuel as [|fuel IH]; intros n st evs.
  { intros [= <- <-]. by exists [Timestamp (last st)]. }
  cbn [modindex.loop].
  destruct (modindex.iteration w start n st) as [evs1 [st1|e1 c1]] eqn:Hit.
  - destruct (modindex.loop w start fuel (S n) st1) as [evs2 r2] eqn:Hl.
    intros [= <- <-].
    destruct (iteration_trace _ _ _ _ _ _ Hit) as (Hf & b & Hb & Hlast).
    destruct (IH _ _ _ Hl) as (tail & Heq & Htail).
    exists tail. split; [|done].
    rewrite inserts_app, fetches_app, Hf, Hb. unfold endsOf in *.
    rewrite fmap_app. cbn. rewrite Hlast. cbn. by rewrite Heq.
  - intros [= <- <-].
    destruct (iteration_trace _ _ _ _ _ _ Hit) as (Hf & [Hi|[b Hi]]); rewrite Hf, Hi.
    + exists []. split; [done|cbn; lia].
    + eexists [_]. split; [done|]. cbn. lia.
Qed.

(** X8. The requests of a run follow its writes: the first request is made
    at the timestamp of the cursor read from the store, and each later one at
    the timestamp of the last record of the batch written before it. There
    are as many requests as batches, or one more. *)
Theorem X8_requests_follow_writes w start fuel d cur :
  modindex.lastVersionInfo d = (cur, None) ->
  let r := modindex.SynchronizeDatabase w start fuel d in
  fetches (events r) `prefix_of` Timestamp cur :: endsOf (inserts (events r))
  /\ (length (inserts (events r)) <= length (fetches (events r)))%nat.
Proof.
  intros Hcur. unfold modindex.SynchronizeDatabase. rewrite Hcur.
  destruct (modindex.loop w start fuel 0 (mkState (Open d) cur 0)) as [evs r] eqn:Hl.
  destruct (loop_trace _ _ _ _ _ _ _ Hl) as (tail & Heq & Htail).
  cbn [last] in Heq.
  assert (Hlen : (length tail <= 1)%nat).
  { destruct r; [by subst|done]. }
  assert (Hev : events (finish (evs, r)) = evs) by by destruct r.
  cbn zeta. rewrite Hev. split; [by exists tail|].
  apply (f_equal length) in Heq. rewrite length_app in Heq. cbn in Heq.
  unfold endsOf in Heq. rewrite length_fmap in Heq. lia.
Qed.

End Requests.

(** ** The hours done *)

Section HoursDone.
Context `{Lib}.

Lemma Sub_exact t u lo hi :
  lo <= nanoseconds t <= hi -> lo <= nanoseconds u <= hi -> hi - lo <= maxInt64 ->
  Sub t u = nanoseconds t - nanoseconds u.
Proof.
  unfold Sub, nanoseconds, maxInt64, minInt64, Second. intros Ht Hu Hw.
  rewrite (proj2 (Z.ltb_ge _ _)) by lia. rewrite (proj2 (Z.ltb_ge _ _)) by lia. lia.
Qed.

Lemma reports_app a b : reports (a ++ b) = reports a ++ reports b.
Proof. apply omap_app. Qed.

(** The table of an iteration: printed when the cursor is set, with the
    cursor as its current instant and the hours of [covered]. *)
Lemma iteration_reports w start n st evs r :
  modindex.iteration w start n st = (evs, r) ->
  if IsZero (Timestamp (last st)) then reports evs = []
  else exists rep, reports evs = [rep]
                   /\ HoursDone rep = Hours (covered st)
                   /\ Current rep = Timestamp (last st).
Proof.
  unfold modindex.iteration, modindex.printProgress.
  assert (Hrest : forall tail, reports tail = [] ->
            (if IsZero (Timestamp (last st))
             then reports (match (if negb (IsZero (Timestamp (last st)))
                                  then Some (mkReport (Sub (Now w n) start) (Now w n)
                                               (Timestamp (last st)) (Hours (covered st))
                                               (Hours (Sub (Now w n) (Timestamp (last st))))
                                               (if 0 <? Hours (covered st)
                                                then Some (Z.quot (wrap64 (Hours (Sub (Now w n) (Timestamp (last st))) * Sub (Now w n) start)) (Hours (covered st)))
                                                else None))
                                  else None) with
                           | Some r => [EvProgress r]
                           | None => []
                           end ++ tail) = []
             else exists rep,
                 reports (match (if negb (IsZero (Timestamp (last st)))
                                 then Some (mkReport (Sub (Now w n) start) (Now w n)
                                              (Timestamp (last st)) (Hours (covered st))
                                              (Hours (Sub (Now w n) (Timestamp (last st))))
                                              (if 0 <? Hours (covered st)
                                               then Some (Z.quot (wrap64 (Hours (Sub (Now w n) (Timestamp (last st))) * Sub (Now w n) start)) (Hours (covered st)))
                                               else None))
                                 else None) with
                          | Some r => [EvProgress r]
                          | None => []
                          end ++ tail) = [rep]
                 /\ HoursDone rep = Hours (covered st)
                 /\ Current rep = Timestamp (last st))).
  { intros tail Ht. destruct (IsZero (Timestamp (last st))); cbn [negb].
    - by rewrite reports_app, Ht.
    - rewrite reports_app, Ht. by eexists. }
  destruct (GetVersions w n _ 2000) as [vs|]; [|intros [= <- <-]; by apply Hrest].
  destruct (modindex.versionsToInsert (last st) vs) as [[toInsert bug]|] eqn:Hvti;
    [|intros [= <- <-]; by apply Hrest].
  destruct (versionsToInsert_bug _ _ _ _ Hvti) as (_ & _ & Hbr).
  assert (Hb : forall tail, reports tail = [] ->
            reports (EvFetch (Timestamp (last st)) 2000 :: bug ++ tail) = []).
  { intros tail Ht. change (reports (?e :: ?l)) with (reports l).
    by rewrite reports_app, Hbr, Ht. }
  destruct toInsert as [|first rest]; [intros [= <- <-]; by apply Hrest, Hb|].
  destruct (modindex.insertVersions (conn st) (first :: rest)) as [c [e|]];
    intros [= <- <-]; by apply Hrest, Hb.
Qed.

Section Window.
Context (w : World) (lo hi base : Z).
Hypothesis Htimed : answersTimed w.
Hypothesis Hwithin : answersWithin w lo hi.
Hypothesis Hwidth : hi - lo <= maxInt64.
Hypothesis Hbase : lo <= base <= hi.

Lemma accounted_step start n st evs st' :
  accounted lo hi base st ->
  modindex.iteration w start n st = (evs, Continue st') -> accounted lo hi base st'.
Proof.
  intros (Hset & Hin & Hcov)
    (vs & ti & bug & first & Hget & Hvti & _ & Hl & _ & Hc & _)%iteration_Continue.
  assert (Hmem : last st' ∈ vs).
  { eapply versionsToInsert_subseteq; [exact Hvti|]. by apply last_Some_elem_of. }
  pose proof (Htimed _ _ _ _ Hget) as Ht. rewrite Forall_forall in Ht.
  pose proof (Hwithin _ _ _ _ Hget) as Hw. rewrite Forall_forall in Hw.
  split; [by apply Ht|]. split; [by apply Hw|].
  rewrite Hc. unfold modindex.coveredAfter. unfold cursorSet in Hset. rewrite Hset.
  rewrite (Sub_exact _ _ lo hi) by auto. rewrite Hcov.
  specialize (Hw _ Hmem). cbv beta in Hw.
  rewrite wrap64_small; [lia|]. unfold minInt64, maxInt64 in *. lia.
Qed.

Lemma loop_reports start fuel n st evs r :
  accounted lo hi base st ->
  modindex.loop w start fuel n st = (evs, r) ->
  Forall (fun rep => HoursDone rep = Hours (nanoseconds (Current rep) - base))
         (reports evs).
Proof.
  revert n st evs r. induction fuel as [|fuel IH]; intros n st evs r Hacc.
  { intros [= <- _]. constructor. }
  cbn [modindex.loop].
  destruct (modindex.iteration w start n st) as [evs1 [st1|e1 c1]] eqn:Hit.
  - destruct (modindex.loop w start fuel (S n) st1) as [evs2 r2] eqn:Hl.
    intros [= <- _]. rewrite reports_app. apply Forall_app. split.
    + pose proof (iteration_reports _ _ _ _ _ _ Hit) as Hrep.
      destruct Hacc as (Hset & _ & Hcov). unfold cursorSet in Hset. rewrite Hset in Hrep.
      destruct Hrep as (rep & -> & Hh & Hc). apply Forall_singleton.
      by rewrite Hh, Hc, Hcov.
    + eapply IH; [|exact Hl]. by eapply accounted_step.
  - intros [= <- _].
    pose proof (iteration_reports _ _ _ _ _ _ Hit) as Hrep.
    destruct Hacc as (Hset & _ & Hcov). unfold cursorSet in Hset. rewrite Hset in Hrep.
    destruct Hrep as (rep & -> & Hh & Hc). apply Forall_singleton.
    by rewrite Hh, Hc, Hcov.
Qed.

End Window.

(** X9. [Hours done] of every progress table is the hours between the
    instant the run set out from and the cursor the table shows, when the
    spans of the feed fit a [time.Duration]. The run sets out from the cursor
    it read from the store or, on an empty store, from the first record it
    wrote. *)
Theorem X9_hours_done_is_the_span_covered w start fuel d cur lo hi :
  answersTimed w -> answersWithin w lo hi -> hi - lo <= maxInt64 ->
  modindex.lastVersionInfo d = (cur, None) ->
  (cursorSet cur -> lo <= nanoseconds (Timestamp cur) <= hi) ->
  let r := modindex.SynchronizeDatabase w start fuel d in
  let origin :=
    if IsZero (Timestamp cur)
    then default zero (Timestamp <$> (head (inserts (events r)) ≫= head))
    else Timestamp cur in
  Forall (fun rep => HoursDone rep
                     = Hours (nanoseconds (Current rep) - nanoseconds origin))
         (reports (events r)).
Proof.
  intros Htimed Hwithin Hwidth Hcur Hin. unfold modindex.SynchronizeDatabase.
  rewrite Hcur.
  destruct (modindex.loop w start fuel 0 (mkState (Open d) cur 0)) as [evs r] eqn:Hl.
  assert (Hev : events (finish (evs, r)) = evs) by by destruct r.
  cbn zeta. rewrite Hev. clear Hev.
  destruct (IsZero (Timestamp cur)) eqn:Hz.
  - (* the store was empty: the first iteration prints no table *)
    destruct fuel as [|fuel]; [injection Hl as <- _; constructor|].
    cbn [modindex.loop] in Hl.
    destruct (modindex.iteration w start 0 (mkState (Open d) cur 0))
      as [evs1 [st1|e1 c1]] eqn:Hit.
    + destruct (modindex.loop w start fuel 1 st1) as [evs2 r2] eqn:Hl2.
      injection Hl as <- _.
      pose proof (iteration_reports _ _ _ _ _ _ Hit) as Hrep. cbn [last] in Hrep.
      rewrite Hz in Hrep.
      apply iteration_Continue in Hit
        as (vs & ti & bug & first & Hget & Hvti & Hhead & Hlast & _ & Hc & _ & Hins).
      cbn [last covered] in *.
      rewrite reports_app, Hrep, inserts_app, Hins. cbn [app head mbind option_bind].
      rewrite Hhead. cbn [fmap option_fmap option_map default].
      pose proof (Htimed _ _ _ _ Hget) as Ht. rewrite Forall_forall in Ht.
      pose proof (Hwithin _ _ _ _ Hget) as Hw. rewrite Forall_forall in Hw.
      assert (Hsub : ti ⊆ vs) by by eapply versionsToInsert_subseteq.
      assert (Hf : first ∈ vs) by (apply Hsub; by apply head_Some_elem_of).
      assert (Hm : last st1 ∈ vs) by (apply Hsub; by apply last_Some_elem_of).
      eapply (loop_reports w lo hi (nanoseconds (Timestamp first))); try done.
      * by apply Hw.
      * split; [by apply Ht|]. split; [by apply Hw|].
        rewrite Hc. unfold modindex.coveredAfter. rewrite Hz.
        apply (Sub_exact _ _ lo hi); [by apply Hw|by apply Hw|done].
    + injection Hl as <- _.
      pose proof (iteration_reports _ _ _ _ _ _ Hit) as Hrep. cbn [last] in Hrep.
      rewrite Hz in Hrep. rewrite Hrep. constructor.
  - eapply (loop_reports w lo hi (nanoseconds (Timestamp cur))); try done.
    + by apply Hin.
    + split; [done|]. split; [by apply Hin|]. cbn. lia.
Qed.

End HoursDone.

(** ** A feed that keeps its contract is mirrored *)

Section Mirror.
Context `{Lib} (now : nat -> Time).

Lemma Before_asym t u : Before t u = true -> Before u t = false.
Proof.
  unfold Before. rewrite orb_true_iff, andb_true_iff, orb_false_iff, andb_false_iff.
  rewrite !Z.ltb_lt, !Z.ltb_ge, bool_decide_eq_true, bool_decide_eq_false. lia.
Qed.

Lemma Before_irrefl t : Before t t = false.
Proof. apply Before_false, le_refl. Qed.

Lemma afterZero_cursorSet v : Before zero (Timestamp v) = true -> cursorSet v.
Proof.
  unfold cursorSet, Before, IsZero, zero. cbn.
  rewrite orb_true_iff, andb_true_iff, andb_false_iff.
  rewrite !Z.ltb_lt, bool_decide_eq_true, !bool_decide_eq_false. lia.
Qed.

(** What the server sends from the timestamp of a record of its log on:
    that record and what follows it. *)
Lemma filter_from_cursor pre c post :
  strictlySorted (pre ++ c :: post) ->
  filter (fun v => Before (Timestamp v) (Timestamp c) = false) (pre ++ c :: post)
  = c :: post.
Proof.
  unfold strictlySorted. intros (Hcross & _ & Hs)%StronglySorted_app.
  apply StronglySorted_cons in Hs as [Hpost _].
  rewrite filter_app, filter_cons, decide_True by apply Before_irrefl.
  rewrite filter_none, filter_all; [done| |].
  - intros v Hv. apply Before_asym. rewrite Forall_forall in Hpost. by apply Hpost.
  - intros v Hv. rewrite (Hcross v c Hv); [done|by left].
Qed.

Lemma filter_from_zero log :
  afterZero log ->
  filter (fun v => Before (Timestamp v) zero = false) log = log.
Proof.
  unfold afterZero. rewrite Forall_forall. intros Hall. apply filter_all.
  intros v Hv. by apply Before_asym, Hall.
Qed.

Lemma insertRows_app tx a b :
  modindex.insertRows tx (a ++ b)
  = match modindex.insertRows tx a with
    | (tx1, None) => modindex.insertRows tx1 b
    | (tx1, Some e) => (tx1, Some e)
    end.
Proof.
  revert tx. induction a as [|u a IH]; intros tx; [done|].
  cbn [app modindex.insertRows].
  destruct (resolvePath tx (Path u)) as [[tx1 id]|]; [|done].
  destruct (insertVersion tx1 id (Version u) (Format (Timestamp u))); [apply IH|done].
Qed.

Lemma insertRows_fresh batch :
  NoDup (pairOf <$> batch) -> (modindex.insertRows sqlite.empty batch).2 = None.
Proof.
  intros Hnd. apply insertRows_free; [|by intros v _ (id & Hid & _)|done].
  split; [apply NoDup_nil_2|]. split; [apply NoDup_nil_2|].
  intros id ver [t Ht]. cbn in Ht. by rewrite lookup_empty in Ht.
Qed.

Section Log.
Context (log : list VersionInfo).
Hypothesis Hsorted : strictlySorted log.
Hypothesis Hzero : afterZero log.
Hypothesis Hpairs : NoDup (pairOf <$> log).

Lemma mirror_answer st written remaining n :
  log = written ++ remaining -> mirrored written st ->
  exists bug,
    GetVersions (served now log) n (Timestamp (last st)) 2000
    = Some (bug ++ nextBatch written remaining)
    /\ modindex.versionsToInsert (last st) (bug ++ nextBatch written remaining)
       = Some (nextBatch written remaining, []).
Proof.
  intros Hlog (d & Hd & Hconn & Hlast). unfold served. cbn [GetVersions].
  destruct (list.last written) as [c|] eqn:Hc.
  - apply last_Some in Hc as [pre ->]. change (last st = c) in Hlast. rewrite Hlast.
    rewrite <- app_assoc in Hlog. cbn [app] in Hlog.
    assert (Hf := filter_from_cursor pre c remaining). rewrite <- Hlog in Hf.
    rewrite Hf by done.
    replace (Z.to_nat 2000) with (S (Z.to_nat 1999)) by lia. cbn [take].
    exists [c]. unfold nextBatch. destruct (pre ++ [c]) eqn:E; [by destruct pre|].
    split; [done|]. apply versionsToInsert_same; [|by apply sameRecord_eq].
    apply afterZero_cursorSet. unfold afterZero in Hzero. rewrite Forall_forall in Hzero.
    apply Hzero. rewrite Hlog. apply elem_of_app. right. by left.
  - apply last_None in Hc as ->. change (last st = zeroInfo) in Hlast. rewrite Hlast.
    cbn [app] in Hlog. subst remaining. cbn [Timestamp zeroInfo].
    rewrite filter_from_zero by done. exists []. split; [done|].
    unfold modindex.versionsToInsert. cbn [app Timestamp zeroInfo]. done.
Qed.

Lemma mirror_step start n st written remaining :
  log = written ++ remaining -> mirrored written st ->
  exists evs r,
    modindex.iteration (served now log) start n st = (evs, r)
    /\ match remaining with
       | [] => r = Stop Done (conn st) /\ inserts evs = []
       | _ => exists st', r = Continue st'
                /\ inserts evs = [nextBatch written remaining]
                /\ mirrored (written ++ nextBatch written remaining) st'
       end.
Proof.
  intros Hlog Hm.
  destruct (mirror_answer st written remaining n Hlog Hm) as (bug & Hget & Hvti).
  destruct Hm as (d & Hd & Hconn & Hlast).
  unfold modindex.iteration. rewrite Hget, Hvti.
  assert (Hi : forall tail,
            inserts (match modindex.printProgress (last st) start (covered st)
                             (Now (served now log) n) with
                     | Some r => [EvProgress r]
                     | None => []
                     end ++ [EvFetch (Timestamp (last st)) 2000] ++ [] ++ tail)
            = inserts tail).
  { intros tail. by rewrite inserts_progress. }
  destruct remaining as [|v rest].
  { assert (nextBatch written [] = []) as -> by (unfold nextBatch; by rewrite take_nil).
    eexists _, _. split; [done|]. split; [done|]. by rewrite Hi. }
  set (b := nextBatch written (v :: rest)).
  assert (Hb : exists first more, b = first :: more).
  { subst b. unfold nextBatch. destruct written.
    - replace (Z.to_nat 2000) with (S (Z.to_nat 1999)) by lia. by eexists _, _.
    - replace (Z.to_nat 1999) with (S (Z.to_nat 1998)) by lia. by eexists _, _. }
  destruct Hb as (first & more & Hb).
  assert (Hfresh : (modindex.insertRows sqlite.empty (written ++ b)).2 = None).
  { apply insertRows_fresh.
    apply (sublist_NoDup _ (pairOf <$> log)); [done|].
    apply fmap_sublist. rewrite Hlog. apply sublist_app; [done|].
    subst b. unfold nextBatch. apply sublist_take. }
  assert (Hall : modindex.insertRows sqlite.empty (written ++ b)
                 = ((modindex.insertRows sqlite.empty (written ++ b)).1, None)).
  { destruct (modindex.insertRows sqlite.empty (written ++ b)) as [d' e].
    cbn in *. by subst e. }
  assert (Hrows : modindex.insertRows d b
                  = ((modindex.insertRows sqlite.empty (written ++ b)).1, None)).
  { pose proof (insertRows_app sqlite.empty written b) as Happ. rewrite Hd in Happ.
    by rewrite <- Happ. }
  rewrite Hb in *.
  unfold modindex.insertVersions. rewrite Hconn. cbn [committed]. rewrite Hrows.
  eexists _, _. split; [done|]. eexists. split; [done|]. split; [by rewrite Hi|].
  eexists. split; [|split; [done|]]; cbn [conn last].
  - exact Hall.
  - rewrite last_app. destruct (list.last (first :: more)) eqn:E; [done|].
    apply (proj1 (last_None _)) in E. discriminate.
Qed.

Lemma mirror_loop start fuel n st written remaining :
  log = written ++ remaining -> mirrored written st ->
  (length remaining < fuel)%nat ->
  exists evs c,
    modindex.loop (served now log) start fuel n st = (evs, Stop Done c)
    /\ mjoin (inserts evs) = remaining
    /\ modindex.insertRows sqlite.empty log = (committed c, None).
Proof.
  revert n st written remaining.
  induction fuel as [|fuel IH]; intros n st written remaining Hlog Hm Hfuel; [lia|].
  cbn [modindex.loop].
  destruct (mirror_step start n st written remaining Hlog Hm) as (evs1 & r1 & -> & Hr).
  destruct remaining as [|v rest].
  { destruct Hr as [-> Hi]. eexists _, _. split; [done|]. split; [by rewrite Hi|].
    destruct Hm as (d & Hd & -> & _). rewrite Hlog, app_nil_r. exact Hd. }
  destruct Hr as (st' & -> & Hi & Hm').
  set (b := nextBatch written (v :: rest)) in *.
  assert (Hsplit : exists rest', v :: rest = b ++ rest' /\ (length rest' < length (v :: rest))%nat).
  { subst b. unfold nextBatch.
    exists (drop (if written is [] then Z.to_nat 2000 else Z.to_nat 1999) (v :: rest)).
    split; [by rewrite take_drop|]. rewrite length_drop. cbn [length].
    destruct written; lia. }
  destruct Hsplit as (rest' & Hsplit & Hlen).
  destruct (IH (S n) st' (written ++ b) rest') as (evs2 & c & -> & Hj & Hrows);
    [by rewrite Hlog, Hsplit, app_assoc|done|lia|].
  eexists _, _. split; [done|]. split; [|done].
  rewrite inserts_app, Hi. change (b ++ mjoin (inserts evs2) = v :: rest).
  by rewrite Hj.
Qed.

End Log.

Lemma answersTimed_served log : afterZero log -> answersTimed (served now log).
Proof.
  unfold afterZero. rewrite Forall_forall. intros Hz n since limit vs Hget.
  apply Forall_forall. intros v Hv.
  apply afterZero_cursorSet, Hz. by eapply served_elem_of.
Qed.

(** X10. A feed that keeps its contract is mirrored. When the timestamps
    of the server's log are in UTC, in their strict order and all later than
    the zero time, and the log names no pair of path and version twice, a
    run on the empty store that is given a turn more than the log has
    records ends with the feed: it has written every record of the log once,
    in the order of the log, the store holds each of them under its pair,
    and [versions] has one row per record. The inline engine ends the same
    way on the same store. The timestamps have to be in UTC for the server
    to be [served]: a record with an offset is not [==] to itself when it
    is decoded again ([zoned_feed_is_not_mirrored]). *)
Theorem X10_honest_feed_is_mirrored log start fuel :
  inUTC log -> strictlySorted log -> afterZero log -> NoDup (pairOf <$> log) ->
  (length log < fuel)%nat ->
  let r := modindex.SynchronizeDatabase (served now log) start fuel sqlite.empty in
  let r' := indexcmd.updateCmd (served now log) start fuel sqlite.empty in
  exit r = Done
  /\ mjoin (inserts (events r)) = log
  /\ (forall v, v ∈ log -> stored (store r) v)
  /\ size (versions (store r)) = length log
  /\ exit r' = Done
  /\ store r' = store r.
Proof.
  intros _ Hs Hz Hp Hfuel.
  assert (Hcur : modindex.lastVersionInfo sqlite.empty = (zeroInfo, None)).
  { unfold modindex.lastVersionInfo, joined. cbn [versions sqlite.empty].
    by rewrite map_to_list_empty. }
  unfold modindex.SynchronizeDatabase, indexcmd.updateCmd.
  change (indexcmd.lastRow sqlite.empty) with (modindex.lastVersionInfo sqlite.empty).
  rewrite Hcur.
  destruct (mirror_loop log Hs Hz Hp start fuel 0%nat
              (mkState (Open sqlite.empty) zeroInfo 0) [] log)
    as (evs & c & Hl & Hj & Hrows); [done| |done|].
  { by exists sqlite.empty. }
  rewrite Hl.
  destruct (loop_agree (served now log) start fuel 0%nat
              (mkState (Open sqlite.empty) zeroInfo 0)
              (mkState (Open sqlite.empty) zeroInfo 0) evs (Stop Done c)
              (answersTimed_served log Hz) (conj eq_refl eq_refl) Hl)
    as (evs' & r' & -> & _ & Hst).
  { intros e c' [= <- _]. by repeat split. }
  destruct r' as [|e' c']; [done|]. destruct Hst as [<- <-].
  cbn [finish exit events store Close].
  pose proof (insertRows_ok _ _ _ Hrows) as (_ & _ & _ & Hall).
  pose proof (insertRows_size _ _ _ Hrows) as Hsize.
  repeat split; done.
Qed.

End Mirror.

(** A feed in the zone +05:30 is not mirrored, though its log is in strict
    order and names no pair twice. The first answer is written; the second
    brings its last record again, decoded into a Location of its own, so
    that the record is not [==] to the cursor: the engine reports it,
    writes it again, and stops on the primary key. The inline engine
    reports it as well, replaces the row and goes on. *)
Remark zoned_feed_is_not_mirrored :
  let w := sample.scripted [[sample.recZ]; [sample.recZ']] in
  let r := modindex.SynchronizeDatabase (H := rfc3339.lib) w sample.start 5 sqlite.empty in
  let r' := indexcmd.updateCmd (H := rfc3339.lib) w sample.start 5 sqlite.empty in
  let text := "example.com/a@v1.0.0@2019-04-10T19:08:52.997264+05:30" in
  let line := "BUG: index: expected list to start with " +:+ text
              +:+ " but got " +:+ text +:+ nl in
  sec (Timestamp sample.recZ') = sec (Timestamp sample.recZ)
  /\ nsec (Timestamp sample.recZ') = nsec (Timestamp sample.recZ)
  /\ sameRecord sample.recZ' sample.recZ = false
  /\ observable (events r)
     = [EvFetch zero 2000; EvInsert [sample.recZ];
        EvFetch sample.tZ 2000; EvStderr line; EvInsert [sample.recZ']]
  /\ exit r = Failed ErrInsertVersion
  /\ observable (events r')
     = [EvFetch zero 2000; EvInsert [sample.recZ];
        EvFetch sample.tZ 2000; EvStderr line; EvInsert [sample.recZ'];
        EvFetch (Timestamp sample.recZ') 2000; EvStdout upToDate]
  /\ exit r' = Done.
Proof. vm_compute. repeat split; reflexivity. Qed.

(** ** The rows of a batch of [normalize-index] *)

Section Modules.
Context `{strings.Lib}.

Lemma selectModuleID_Some d n id :
  modhunt.selectModuleID d n = Some id -> (id, n) ∈ modhunt.modules d.
Proof.
  unfold modhunt.selectModuleID. destruct (find _ _) as [[i q]|] eqn:E; [|done].
  intros [= <-]. apply find_some in E as [Hin Hq].
  apply bool_decide_eq_true in Hq; simpl in Hq; subst.
  by apply list_elem_of_In.
Qed.

Lemma selectModuleID_None d n :
  modhunt.selectModuleID d n = None -> n ∉ (modhunt.modules d).*2.
Proof.
  unfold modhunt.selectModuleID. destruct (find _ _) as [r|] eqn:E; [done|].
  intros _ [[i q] [-> Hin]]%list_elem_of_fmap.
  apply list_elem_of_In in Hin. eapply find_none in E; [|exact Hin].
  cbn in E. by apply bool_decide_eq_false in E.
Qed.

Lemma selectModuleID_elem_of d n id :
  moduleKeys d -> (id, n) ∈ modhunt.modules d -> modhunt.selectModuleID d n = Some id.
Proof.
  intros [_ Hnames] Hin.
  destruct (modhunt.selectModuleID d n) as [i|] eqn:E.
  - apply selectModuleID_Some in E. f_equal. by eapply snd_unique.
  - apply selectModuleID_None in E. destruct E.
    apply list_elem_of_fmap. by exists (id, n).
Qed.

Lemma nextID_modules_fresh d id : id ∈ (modhunt.modules d).*1 -> id < modhunt.nextID d.
Proof.
  intros Hid. unfold modhunt.nextID.
  destruct ((modhunt.modules d).*1) as [|a ids]; [by apply elem_of_nil in Hid|].
  assert (id <= foldr Z.max a ids); [|lia].
  apply foldr_max_le. apply elem_of_cons in Hid as [->|?]; auto.
Qed.

(** The module a path row is given: found by its name or inserted. *)
Lemma module_found d name :
  exists d1 m,
    match modhunt.selectModuleID d name with
    | Some moduleID => Some (d, moduleID)
    | None => modhunt.insertModule d name
    end = Some (d1, m)
    /\ modhunt.paths d1 = modhunt.paths d
    /\ (exists extra, modhunt.modules d1 = modhunt.modules d ++ extra)
    /\ (m, name) ∈ modhunt.modules d1
    /\ (moduleKeys d -> moduleKeys d1)
    /\ (forall m', (m', name) ∈ modhunt.modules d -> moduleKeys d -> d1 = d /\ m = m').
Proof.
  destruct (modhunt.selectModuleID d name) as [m|] eqn:E.
  - exists d, m. split; [done|]. split; [done|].
    split; [exists []; by rewrite app_nil_r|].
    split; [by apply selectModuleID_Some|]. split; [done|].
    intros m' Hin Hk. split; [done|].
    rewrite (selectModuleID_elem_of _ _ _ Hk Hin) in E. by injection E.
  - unfold modhunt.insertModule. rewrite E.
    eexists _, _. split; [done|]. cbn. split; [done|].
    split; [by eexists|]. split; [apply elem_of_app; right; by left|].
    split.
    + intros [Hids Hnames]. unfold moduleKeys. cbn. rewrite !fmap_app. cbn.
      split; apply NoDup_app; (split; [done|]); (split; [|apply NoDup_singleton]).
      * intros x Hx ->%list_elem_of_singleton.
        apply nextID_modules_fresh in Hx. lia.
      * intros x Hx ->%list_elem_of_singleton. by apply selectModuleID_None in E.
    + intros m' Hin _. apply selectModuleID_None in E. destruct E.
      apply list_elem_of_fmap. by exists (m', name).
Qed.

Lemma updateModuleID_Some d m pathID :
  m ∈ (modhunt.modules d).*1 ->
  modhunt.updateModuleID d m pathID
  = Some (modhunt.mkDB ((fun r => if bool_decide (r.1.1 = pathID)
                                  then (r.1, Some m) else r) <$> modhunt.paths d)
                       (modhunt.modules d)).
Proof.
  intros Hm. unfold modhunt.updateModuleID.
  rewrite (bool_decide_eq_true_2 (m ∈ _)) by done. by rewrite andb_false_r.
Qed.

Lemma normalized_grown d d' r :
  (exists extra, modhunt.modules d' = modhunt.modules d ++ extra) ->
  normalized d r -> normalized d' r.
Proof.
  intros [extra Hext] (m & Hm & Hin). exists m. split; [done|].
  rewrite Hext. apply elem_of_app. by left.
Qed.

Lemma updateRows_spec tx batch :
  exists tx',
    modhunt.updateRows tx batch = (tx', None)
    /\ (exists extra, modhunt.modules tx' = modhunt.modules tx ++ extra)
    /\ (moduleKeys tx -> moduleKeys tx')
    /\ Forall2 (rowsUpdated batch tx') (modhunt.paths tx) (modhunt.paths tx').
Proof.
  revert tx. induction batch as [|[pid p] rest IH]; intros tx.
  { exists tx. split; [done|]. split; [exists []; by rewrite app_nil_r|].
    split; [done|]. apply Forall_Forall2_diag, Forall_forall. intros r _.
    split; [done|]. split; [done|]. by intros ?%elem_of_nil. }
  cbn [modhunt.updateRows snd fst].
  destruct (module_found tx (modhunt.normalizeModuleName p))
    as (tx1 & m & -> & Hpaths & [e1 He1] & Hm & Hkeys & _).
  rewrite updateModuleID_Some by (apply list_elem_of_fmap; by exists (m, modhunt.normalizeModuleName p)).
  set (tx2 := modhunt.mkDB _ _).
  destruct (IH tx2) as (tx' & -> & [e2 He2] & Hkeys2 & Hrows).
  exists tx'. split; [done|]. split.
  { exists (e1 ++ e2). rewrite He2. cbn. rewrite He1. by rewrite app_assoc. }
  split; [intros Hk; apply Hkeys2; exact (Hkeys Hk)|].
  subst tx2. cbn [modhunt.paths] in Hrows. rewrite Hpaths in Hrows.
  rewrite Forall2_fmap_l in Hrows. eapply Forall2_impl; [exact Hrows|].
  intros r r' (H1 & H2 & H3). cbn beta in *.
  assert (Hr2 : (if bool_decide (r.1.1 = pid) then (r.1, Some m) else r).1 = r.1).
  { by destruct (bool_decide _). }
  rewrite Hr2 in *. split; [done|]. split.
  - intros Hni. cbn in Hni. apply not_elem_of_cons in Hni as [Hne Hni].
    rewrite (H2 Hni). by rewrite bool_decide_eq_false_2.
  - intros Hin Hagree. destruct (decide (r.1.1 ∈ rest.*1)) as [Hrest|Hrest].
    + apply (H3 Hrest). intros q Hq. apply Hagree. by right.
    + cbn in Hin. apply elem_of_cons in Hin as [Heq|?]; [|done].
      rewrite (H2 Hrest). rewrite bool_decide_eq_true_2 by done.
      exists m. split; [done|]. cbn.
      rewrite <- (Hagree p) by (rewrite Heq; by left).
      rewrite He2. cbn. apply elem_of_app. by left.
Qed.

End Modules.

(** ** Batches in the order of ids *)

Section Pages.

Lemma limit_prefix {A} n (l : list A) : exists rest, l = modhunt.limit n l ++ rest.
Proof.
  unfold modhunt.limit. destruct (n <? 0).
  - exists []. by rewrite app_nil_r.
  - exists (drop (Z.to_nat n) l). by rewrite take_drop.
Qed.

Lemma limit_nil {A} n (l : list A) : n <> 0 -> modhunt.limit n l = [] -> l = [].
Proof.
  unfold modhunt.limit. intros Hn. destruct (n <? 0) eqn:E; [done|].
  apply Z.ltb_ge in E. destruct l as [|x l]; [done|].
  destruct (Z.to_nat n) eqn:En; [lia|done].
Qed.

Lemma selectBatch_sorted rows lastID batchSize :
  exists rest,
    let all := merge_sort modhunt.byID (filter (fun r => lastID < r.1) rows) in
    all = modhunt.selectBatch rows lastID batchSize ++ rest
    /\ StronglySorted modhunt.byID all
    /\ all ≡ₚ filter (fun r => lastID < r.1) rows.
Proof.
  destruct (limit_prefix batchSize
              (merge_sort modhunt.byID (filter (fun r => lastID < r.1) rows)))
    as [rest Hrest].
  exists rest. split; [exact Hrest|]. split.
  - apply StronglySorted_merge_sort; apply _.
  - apply merge_sort_Permutation.
Qed.

Lemma selectBatch_elem_of rows lastID batchSize k :
  k ∈ modhunt.selectBatch rows lastID batchSize -> k ∈ rows /\ lastID < k.1.
Proof.
  destruct (selectBatch_sorted rows lastID batchSize) as (rest & Hall & _ & Hperm).
  cbn zeta in *. intros Hk.
  assert (Hin : k ∈ filter (fun r => lastID < r.1) rows).
  { rewrite <- Hperm, Hall. apply elem_of_app. by left. }
  apply list_elem_of_filter in Hin as [? ?]. done.
Qed.

Lemma selectBatch_last_max rows lastID batchSize x k :
  list.last (modhunt.selectBatch rows lastID batchSize) = Some x ->
  k ∈ modhunt.selectBatch rows lastID batchSize -> k.1 <= x.1.
Proof.
  destruct (selectBatch_sorted rows lastID batchSize) as (rest & Hall & Hs & _).
  cbn zeta in *. rewrite Hall in Hs. apply StronglySorted_app_1_l in Hs.
  intros [l' Hl]%last_Some. rewrite Hl in *.
  intros [Hk| ->%list_elem_of_singleton]%elem_of_app; [|lia].
  apply (StronglySorted_app_1_elem_of _ _ _ _ _ Hs Hk). by left.
Qed.

(** What follows a batch in the order of ids is beyond its last id. *)
Lemma selectBatch_rest rows lastID batchSize x rest k :
  NoDup (rows.*1) ->
  merge_sort modhunt.byID (filter (fun r => lastID < r.1) rows)
  = modhunt.selectBatch rows lastID batchSize ++ rest ->
  list.last (modhunt.selectBatch rows lastID batchSize) = Some x ->
  k ∈ rest -> x.1 < k.1.
Proof.
  intros Hpk Hall Hlast Hin.
  destruct (selectBatch_sorted rows lastID batchSize) as (rest' & Hall' & Hs & Hperm).
  cbn zeta in *. rewrite Hall in Hall'. apply app_inv_head in Hall'. subst rest'.
  assert (Hx : x ∈ modhunt.selectBatch rows lastID batchSize).
  { by apply last_Some_elem_of. }
  rewrite Hall in Hs.
  pose proof (StronglySorted_app_1_elem_of _ _ _ _ _ Hs Hx Hin) as Hle.
  unfold modhunt.byID in Hle.
  assert (Hnd : NoDup ((modhunt.selectBatch rows lastID batchSize ++ rest).*1)).
  { rewrite <- Hall, Hperm. apply (sublist_NoDup _ (rows.*1)); [exact Hpk|].
    apply fmap_sublist, sublist_filter. }
  rewrite fmap_app in Hnd. apply NoDup_app in Hnd as (_ & Hdis & _).
  destruct (decide (x.1 = k.1)) as [Heq|]; [|lia]. exfalso.
  apply (Hdis x.1).
  - apply list_elem_of_fmap. by exists x.
  - apply list_elem_of_fmap. by exists k.
Qed.

Lemma selectBatch_covers rows lastID batchSize x k :
  NoDup (rows.*1) ->
  list.last (modhunt.selectBatch rows lastID batchSize) = Some x ->
  k ∈ rows -> lastID < k.1 <= x.1 ->
  k ∈ modhunt.selectBatch rows lastID batchSize.
Proof.
  intros Hpk Hlast Hk [Hlo Hhi].
  destruct (selectBatch_sorted rows lastID batchSize) as (rest & Hall & Hs & Hperm).
  cbn zeta in *.
  assert (Hin : k ∈ modhunt.selectBatch rows lastID batchSize ++ rest).
  { rewrite <- Hall, Hperm. by apply list_elem_of_filter. }
  apply elem_of_app in Hin as [?|Hin]; [done|]. exfalso.
  pose proof (selectBatch_rest _ _ _ _ _ _ Hpk Hall Hlast Hin). lia.
Qed.

Lemma selectBatch_nil rows lastID batchSize k :
  batchSize <> 0 -> modhunt.selectBatch rows lastID batchSize = [] ->
  k ∈ rows -> k.1 <= lastID.
Proof.
  intros Hn Hb Hk. destruct (decide (k.1 <= lastID)) as [|Hgt]; [done|]. exfalso.
  assert (Hin : k ∈ filter (fun r => lastID < r.1) rows).
  { apply list_elem_of_filter. split; [lia|done]. }
  rewrite <- (merge_sort_Permutation modhunt.byID) in Hin.
  unfold modhunt.selectBatch in Hb. apply limit_nil in Hb; [|done].
  rewrite Hb in Hin. by apply elem_of_nil in Hin.
Qed.

End Pages.

Section Batches.
Context `{strings.Lib}.

Lemma upTo_keys d0 lastID d :
  upTo d0 lastID d -> (modhunt.paths d).*1 = (modhunt.paths d0).*1.
Proof.
  unfold upTo. induction 1 as [|r0 r l0 l (H1 & _) _ IH]; [done|].
  cbn. by rewrite H1, IH.
Qed.

Lemma upTo_refl d : upTo d 0 d.
Proof.
  apply Forall_Forall2_diag, Forall_forall. intros r _.
  split; [done|]. split; [done|]. lia.
Qed.

(** One call of [processBatch]: it does not fail; on an empty batch it
    returns 0 and leaves the store; otherwise it returns the largest id of
    the batch, and the rows between the two ids point to their modules. *)
Lemma processBatch_spec d batchSize lastID :
  pathKey d ->
  exists d' lastID',
    modhunt.processBatch d batchSize lastID = (d', lastID', None)
    /\ (exists extra, modhunt.modules d' = modhunt.modules d ++ extra)
    /\ (moduleKeys d -> moduleKeys d')
    /\ ((lastID' = 0 /\ d' = d
         /\ (batchSize <> 0 -> forall k, k ∈ (modhunt.paths d).*1 -> k.1 <= lastID))
        \/ (lastID < lastID'
            /\ (exists k, k ∈ (modhunt.paths d).*1 /\ lastID < k.1 <= lastID')
            /\ Forall2 (fun r r' =>
                          r'.1 = r.1
                          /\ (~ lastID < r.1.1 <= lastID' -> r' = r)
                          /\ (lastID < r.1.1 <= lastID' -> normalized d' r'))
                       (modhunt.paths d) (modhunt.paths d'))).
Proof.
  intros Hpk. unfold modhunt.processBatch.
  destruct (modhunt.selectBatch ((modhunt.paths d).*1) lastID batchSize) as [|first rest] eqn:Hb.
  { exists d, 0. split; [done|]. split; [exists []; by rewrite app_nil_r|].
    split; [done|]. left. split; [done|]. split; [done|].
    intros Hn k Hk. by eapply selectBatch_nil. }
  cbv beta iota. rewrite <- Hb.
  destruct (updateRows_spec d (modhunt.selectBatch ((modhunt.paths d).*1) lastID batchSize))
    as (d' & -> & Hext & Hkeys & Hrows).
  assert (Hlast : exists x, list.last (modhunt.selectBatch ((modhunt.paths d).*1) lastID batchSize) = Some x
                            /\ default first (list.last (modhunt.selectBatch ((modhunt.paths d).*1) lastID batchSize)) = x).
  { destruct (list.last _) as [x|] eqn:E; [by exists x|].
    apply last_None in E. by rewrite Hb in E. }
  destruct Hlast as (x & Hlast & ->).
  pose proof (last_Some_elem_of _ _ Hlast) as Hx.
  destruct (selectBatch_elem_of _ _ _ _ Hx) as [Hxk Hxlo].
  exists d', x.1. split; [done|]. split; [done|]. split; [done|]. right.
  split; [done|]. split; [exists x; split; [done|lia]|].
  apply Forall2_elem_of in Hrows. eapply Forall2_impl; [exact Hrows|].
  intros r r' (Hr & _ & H1 & H2 & H3). split; [done|]. split.
  - intros Hout. apply H2. intros (k & Hk1 & Hk)%list_elem_of_fmap.
    apply Hout. destruct (selectBatch_elem_of _ _ _ _ Hk) as [_ Hlo].
    pose proof (selectBatch_last_max _ _ _ _ _ Hlast Hk). lia.
  - intros Hin.
    assert (Hkey : r.1 ∈ (modhunt.paths d).*1).
    { apply list_elem_of_fmap. by exists r. }
    apply H3.
    + apply list_elem_of_fmap. exists r.1. split; [done|].
      by eapply selectBatch_covers.
    + intros p [Hp _]%selectBatch_elem_of.
      apply (fst_unique _ _ _ _ Hpk Hp). by destruct r as [[? ?] ?].
Qed.

Lemma eachBatch_spec fuel d0 d batchSize total count lastID :
  0 <= lastID -> pathKey d0 -> upTo d0 lastID d ->
  (length (filter (fun k => (lastID < k.1)%Z) ((modhunt.paths d0).*1)) < fuel)%nat ->
  exists lines d' lastF,
    modhunt.eachBatch fuel d batchSize total count lastID = (lines, d', modhunt.Finished)
    /\ upTo d0 lastF d'
    /\ (batchSize <> 0 -> forall k, k ∈ (modhunt.paths d0).*1 -> k.1 <= lastF)
    /\ (moduleKeys d -> moduleKeys d').
Proof.
  revert d count lastID.
  induction fuel as [|fuel IH]; intros d count lastID Hpos Hpk Hup Hfuel; [lia|].
  cbn [modhunt.eachBatch].
  pose proof (upTo_keys _ _ _ Hup) as Hkeys.
  assert (Hpk' : pathKey d) by (unfold pathKey; by rewrite Hkeys).
  destruct (processBatch_spec d batchSize lastID Hpk')
    as (d' & lastID' & -> & Hext & Hmk & [(-> & -> & Hall)|(Hlt & (k & Hk & Hkin) & Hrows)]).
  { cbn. eexists _, d, lastID. split; [done|]. split; [done|]. split; [|done].
    intros Hn k Hk. apply Hall; [done|]. by rewrite Hkeys. }
  rewrite (proj2 (Z.eqb_neq lastID' 0)) by lia.
  assert (Hup' : upTo d0 lastID' d').
  { unfold upTo in *. eapply Forall2_trans; [|exact Hup|exact Hrows].
    intros r0 r r' (A1 & A2 & A3) (B1 & B2 & B3). cbn beta in *.
    rewrite A1 in B2, B3. split; [congruence|]. split.
    - intros Hout. rewrite B2 by lia. apply A2. lia.
    - intros Hin. destruct (decide (r0.1.1 <= lastID)) as [Hle|Hgt].
      + rewrite B2 by lia. apply (normalized_grown d); [done|]. apply A3. lia.
      + apply B3. lia. }
  destruct (IH d' (wrap64 (count + batchSize)) lastID') as (lines & d'' & lastF & -> & Hf & Hcov & Hmk');
    [lia|done|done| |].
  { rewrite Hkeys in Hk.
    assert ((length (filter (fun k => (lastID' < k.1)%Z) ((modhunt.paths d0).*1))
             < length (filter (fun k => (lastID < k.1)%Z) ((modhunt.paths d0).*1)))%nat); [|lia].
    apply length_filter_less with k; [intros y; lia|done|lia|lia]. }
  eexists _, d'', lastF. split; [done|]. split; [done|]. split; [done|]. auto.
Qed.

End Batches.

(** ** Normalization *)

Section Normalize.
Context `{strings.Lib}.

Lemma deleteUnreferenced_spec d :
  let d2 := (modhunt.deleteUnreferenced d).1 in
  modhunt.paths d2 = modhunt.paths d
  /\ (forall r, r ∈ modhunt.paths d -> normalized d r -> normalized d2 r)
  /\ allReferenced d2
  /\ (moduleKeys d -> moduleKeys d2).
Proof.
  cbn. split; [done|]. split; [|split].
  - intros r Hr (m & Hm & Hin). exists m. split; [done|]. cbn.
    apply list_elem_of_filter. split; [|done]. cbn.
    apply list_elem_of_omap. by exists r.
  - intros m [Hm _]%list_elem_of_filter.
    apply list_elem_of_omap in Hm as (r & Hr & Hsnd). by exists r.
  - intros [Hids Hnames]. split; cbn.
    + apply (sublist_NoDup _ ((modhunt.modules d).*1)); [done|].
      apply fmap_sublist, sublist_filter.
    + apply (sublist_NoDup _ ((modhunt.modules d).*2)); [done|].
      apply fmap_sublist, sublist_filter.
Qed.

Lemma deleteUnreferenced_fixed d :
  allReferenced d -> modhunt.deleteUnreferenced d = (d, 0).
Proof.
  intros Hall. unfold modhunt.deleteUnreferenced.
  rewrite filter_all.
  - destruct d. cbn. f_equal. lia.
  - intros m Hm. destruct (Hall m Hm) as (r & Hr & Hsnd).
    apply list_elem_of_omap. by exists r.
Qed.

(** The constraints of [modules] stop no batch: the module is looked up
    before it is inserted, and the id a path is given is the id of a row. *)
Lemma processBatch_no_error d batchSize lastID :
  (modhunt.processBatch d batchSize lastID).2 = None.
Proof.
  unfold modhunt.processBatch.
  destruct (modhunt.selectBatch ((modhunt.paths d).*1) lastID batchSize) as [|first rest]; [done|].
  by destruct (updateRows_spec d (first :: rest)) as (d' & -> & _).
Qed.

Lemma eachBatch_no_error fuel d batchSize total count lastID e :
  (modhunt.eachBatch fuel d batchSize total count lastID).2 <> modhunt.Stopped e.
Proof.
  revert d count lastID. induction fuel as [|fuel IH]; intros d count lastID; [done|].
  cbn [modhunt.eachBatch].
  pose proof (processBatch_no_error d batchSize lastID) as Hne.
  destruct (modhunt.processBatch d batchSize lastID) as [[d' lastID'] [e'|]]; [done|].
  destruct (lastID' =? 0); [done|].
  specialize (IH d' (wrap64 (count + batchSize)) lastID').
  by destruct (modhunt.eachBatch fuel d' batchSize total _ lastID') as [[lines d''] r].
Qed.

(** X11. [processAllRecords] is stopped by no constraint: no run of it ends in
    an error, whatever the store holds and whatever the size of the batches. *)
Theorem X11_normalize_never_fails fuel d batchSize e :
  (modhunt.processAllRecords fuel d batchSize).2 <> modhunt.Stopped e.
Proof.
  unfold modhunt.processAllRecords.
  pose proof (eachBatch_no_error fuel d batchSize
                (Z.of_nat (length (modhunt.paths d))) 0 0 e) as Hne.
  destruct (modhunt.eachBatch fuel d batchSize _ 0 0) as [[lines d1] [|e'|]]; try done.
Qed.

Lemma upTo_elem_of d0 lastF d r :
  upTo d0 lastF d -> r ∈ modhunt.paths d ->
  exists r0, r0 ∈ modhunt.paths d0 /\ r.1 = r0.1
             /\ (r0.1.1 <= 0 \/ lastF < r0.1.1 -> r = r0)
             /\ (0 < r0.1.1 <= lastF -> normalized d r).
Proof.
  unfold upTo. intros Hup [i Hi]%list_elem_of_lookup_1.
  destruct (Forall2_lookup_r _ _ _ _ _ Hup Hi) as (r0 & H0 & HR).
  exists r0. split; [by eapply list_elem_of_lookup_2|done].
Qed.

Lemma processAllRecords_spec fuel d batchSize :
  batchSize <> 0 -> pathKey d -> (length (modhunt.paths d) < fuel)%nat ->
  exists lines d',
    modhunt.processAllRecords fuel d batchSize = (lines, d', modhunt.Finished)
    /\ (modhunt.paths d').*1 = (modhunt.paths d).*1
    /\ (forall r, r ∈ modhunt.paths d' -> 0 < r.1.1 -> normalized d' r)
    /\ (forall r, r ∈ modhunt.paths d' -> r.1.1 <= 0 -> r ∈ modhunt.paths d)
    /\ allReferenced d'
    /\ (moduleKeys d -> moduleKeys d').
Proof.
  intros Hb Hpk Hfuel. unfold modhunt.processAllRecords.
  destruct (eachBatch_spec fuel d d batchSize (Z.of_nat (length (modhunt.paths d))) 0 0)
    as (lines & d1 & lastF & -> & Hup & Hcov & Hmk); [done|done|apply upTo_refl| |].
  { eapply Nat.le_lt_trans; [apply length_filter|]. by rewrite length_fmap. }
  destruct (deleteUnreferenced_spec d1) as (Hp & Hn & Href & Hk).
  destruct (modhunt.deleteUnreferenced d1) as [d2 affected]. cbn [fst] in *.
  eexists _, d2. split; [done|]. rewrite Hp.
  split; [by eapply upTo_keys|]. split; [|split; [|split; [done|by auto]]].
  - intros r Hr Hpos. apply Hn; [done|].
    destruct (upTo_elem_of _ _ _ _ Hup Hr) as (r0 & Hr0 & H1 & _ & H3).
    apply H3. rewrite <- H1. split; [done|]. rewrite H1. apply (Hcov Hb).
    apply list_elem_of_fmap. by exists r0.
  - intros r Hr Hle.
    destruct (upTo_elem_of _ _ _ _ Hup Hr) as (r0 & Hr0 & H1 & H2 & _).
    rewrite H2; [done|]. left. by rewrite <- H1.
Qed.

(** X12. With batches of a size other than zero, and the loop given a turn more
    than there are paths, [processAllRecords] returns without an error and
    leaves every path of a positive id pointing to the module that its
    normalized name names. The ids and paths of the table are as they were,
    the rows of other ids are untouched, and the modules left are the modules
    of some path. *)
Theorem X12_normalize_covers_every_path fuel d batchSize :
  batchSize <> 0 -> pathKey d -> (length (modhunt.paths d) < fuel)%nat ->
  exists lines d',
    modhunt.processAllRecords fuel d batchSize = (lines, d', modhunt.Finished)
    /\ (modhunt.paths d').*1 = (modhunt.paths d).*1
    /\ (forall r, r ∈ modhunt.paths d' -> 0 < r.1.1 -> normalized d' r)
    /\ (forall r, r ∈ modhunt.paths d' -> r.1.1 <= 0 -> r ∈ modhunt.paths d)
    /\ allReferenced d'
    /\ (moduleKeys d -> moduleKeys d').
Proof. apply processAllRecords_spec. Qed.

(** *** A second run *)

Lemma updateRows_fixed tx batch :
  pathKey tx -> moduleKeys tx ->
  (forall k, k ∈ batch -> k ∈ (modhunt.paths tx).*1) ->
  (forall r, r ∈ modhunt.paths tx -> r.1 ∈ batch -> normalized tx r) ->
  modhunt.updateRows tx batch = (tx, None).
Proof.
  intros Hpk Hmk. induction batch as [|[pid p] rest IH]; intros Hsub Hnorm; [done|].
  cbn [modhunt.updateRows snd fst].
  assert (Hx : (pid, p) ∈ (modhunt.paths tx).*1) by (apply Hsub; by left).
  apply list_elem_of_fmap in Hx as (r & Hr1 & Hr).
  destruct (Hnorm r Hr) as (m & Hm & Hin); [rewrite <- Hr1; by left|].
  rewrite <- Hr1 in Hin. cbn in Hin.
  destruct (module_found tx (modhunt.normalizeModuleName p))
    as (tx1 & m' & -> & _ & _ & _ & _ & Hsame).
  destruct (Hsame m Hin Hmk) as [-> ->].
  rewrite updateModuleID_Some by (apply list_elem_of_fmap; by exists (m, modhunt.normalizeModuleName p)).
  assert (Hid : (fun r0 : Z * string * option Z =>
                   if bool_decide (r0.1.1 = pid) then (r0.1, Some m) else r0)
                <$> modhunt.paths tx = modhunt.paths tx).
  { rewrite <- (list_fmap_id (modhunt.paths tx)) at 2.
    apply list_fmap_ext. intros i r' Hi. apply list_elem_of_lookup_2 in Hi.
    destruct (bool_decide (r'.1.1 = pid)) eqn:E; [|done].
    apply bool_decide_eq_true in E.
    assert (Hkey : r'.1 = (pid, p)).
    { destruct r' as [[i' p'] m'']. cbn in *. subst i'. f_equal.
      apply (fst_unique ((modhunt.paths tx).*1) pid p' p Hpk).
      - apply list_elem_of_fmap. by exists (pid, p', m'').
      - rewrite Hr1. apply list_elem_of_fmap. by exists r. }
    destruct (Hnorm r') as (m2 & Hm2 & Hin2); [done|rewrite Hkey; by left|].
    rewrite Hkey in Hin2. cbn in Hin2.
    destruct Hmk as [_ Hnames].
    rewrite (snd_unique _ _ _ _ Hnames Hin2 Hin) in Hm2.
    destruct r' as [k' o]. cbn in *. by subst. }
  rewrite Hid.
  replace (modhunt.mkDB (modhunt.paths tx) (modhunt.modules tx)) with tx by by destruct tx.
  apply IH.
  - intros k Hk. apply Hsub. by right.
  - intros r' Hr' Hk. apply Hnorm; [done|by right].
Qed.

Lemma processBatch_fixed d batchSize lastID :
  pathKey d -> moduleKeys d -> 0 <= lastID ->
  (forall r, r ∈ modhunt.paths d -> 0 < r.1.1 -> normalized d r) ->
  exists lastID', modhunt.processBatch d batchSize lastID = (d, lastID', None)
                  /\ 0 <= lastID'.
Proof.
  intros Hpk Hmk Hpos Hnorm. unfold modhunt.processBatch.
  destruct (modhunt.selectBatch ((modhunt.paths d).*1) lastID batchSize) as [|first rest] eqn:Hb.
  { by exists 0. }
  cbv beta iota. rewrite <- Hb. rewrite updateRows_fixed; [|done|done| |].
  - eexists. split; [done|].
    destruct (list.last _) as [x|] eqn:E; cbn.
    + apply last_Some_elem_of, selectBatch_elem_of in E. lia.
    + apply last_None in E. by rewrite Hb in E.
  - intros k Hk. by apply selectBatch_elem_of in Hk as [? _].
  - intros r Hr Hk. apply Hnorm; [done|].
    apply selectBatch_elem_of in Hk as [_ ?]. lia.
Qed.

Lemma eachBatch_fixed fuel d batchSize total count lastID :
  pathKey d -> moduleKeys d -> 0 <= lastID ->
  (forall r, r ∈ modhunt.paths d -> 0 < r.1.1 -> normalized d r) ->
  (modhunt.eachBatch fuel d batchSize total count lastID).1.2 = d.
Proof.
  intros Hpk Hmk Hpos Hnorm. revert count lastID Hpos.
  induction fuel as [|fuel IH]; intros count lastID Hpos; [done|].
  cbn [modhunt.eachBatch].
  destruct (processBatch_fixed d batchSize lastID) as (lastID' & -> & Hpos'); try done.
  destruct (lastID' =? 0); [done|].
  specialize (IH (wrap64 (count + batchSize)) lastID' Hpos').
  by destruct (modhunt.eachBatch fuel d batchSize total _ lastID') as [[lines d''] r].
Qed.

(** X13. A second run changes nothing. When the ids of [paths] and the ids and
    names of [modules] are unique, the store a run of [processAllRecords]
    leaves is left as it is by the next run, whatever its batch size, and the
    next run deletes no module. *)
Theorem X13_normalize_twice_is_once fuel fuel' d batchSize batchSize' :
  batchSize <> 0 -> pathKey d -> moduleKeys d ->
  (length (modhunt.paths d) < fuel)%nat -> (length (modhunt.paths d) < fuel')%nat ->
  let d1 := (modhunt.processAllRecords fuel d batchSize).1.2 in
  exists lines,
    modhunt.processAllRecords fuel' d1 batchSize'
    = (lines ++ [modhunt.Deleted 0], d1, modhunt.Finished).
Proof.
  intros Hb Hpk Hmk Hfuel Hfuel'.
  destruct (processAllRecords_spec fuel d batchSize Hb Hpk Hfuel)
    as (lines & d1 & -> & Hkeys & Hnorm & _ & Href & Hmk').
  cbn [fst snd]. specialize (Hmk' Hmk).
  assert (Hpk1 : pathKey d1) by (unfold pathKey; by rewrite Hkeys).
  unfold modhunt.processAllRecords.
  destruct (eachBatch_spec fuel' d1 d1 batchSize' (Z.of_nat (length (modhunt.paths d1))) 0 0)
    as (lines' & d2 & lastF & Heq & _); [done|done|apply upTo_refl| |].
  { eapply Nat.le_lt_trans; [apply length_filter|].
    rewrite Hkeys, length_fmap. done. }
  pose proof (eachBatch_fixed fuel' d1 batchSize' (Z.of_nat (length (modhunt.paths d1))) 0 0
                Hpk1 Hmk' ltac:(done) Hnorm) as Hfix.
  rewrite Heq in Hfix. cbn in Hfix. subst d2. rewrite Heq.
  rewrite deleteUnreferenced_fixed by done.
  eexists (_ :: lines' ++ [_; _]). cbn. rewrite <- !app_assoc. done.
Qed.

End Normalize.

(** ** The batches of [lookup-mods] *)

Section NextPage.

(** The batch after a batch starts where the batch ended: what is beyond
    the last id of a batch is what the batch left of the rows beyond the
    id it started from. *)
Lemma next_page rows lastID batchSize x rest :
  NoDup (rows.*1) ->
  beyond rows lastID = modhunt.selectBatch rows lastID batchSize ++ rest ->
  list.last (modhunt.selectBatch rows lastID batchSize) = Some x ->
  beyond rows x.1 = rest.
Proof.
  intros Hpk Hall Hlast. unfold beyond in *.
  pose proof (last_Some_elem_of _ _ Hlast) as Hx.
  destruct (selectBatch_elem_of _ _ _ _ Hx) as [_ Hlo].
  destruct (selectBatch_sorted rows lastID batchSize) as (rest' & Hall' & Hs & Hperm).
  cbn zeta in *. rewrite Hall in Hall'. apply app_inv_head in Hall'. subst rest'.
  rewrite Hall in Hs, Hperm.
  apply StronglySorted_unique_strong with (R := modhunt.byID).
  - intros k1 k2 H1 H2 Hle Hge. unfold modhunt.byID in *.
    rewrite merge_sort_Permutation in H1. apply list_elem_of_filter in H1 as [_ H1].
    assert (H2' : k2 ∈ rows).
    { assert (Hin : k2 ∈ filter (fun r => lastID < r.1) rows).
      { rewrite <- Hperm. apply elem_of_app. by right. }
      by apply list_elem_of_filter in Hin as [_ ?]. }
    destruct k1 as [i1 p1], k2 as [i2 p2]. cbn in *.
    assert (i1 = i2) as -> by lia. f_equal. by eapply fst_unique.
  - apply StronglySorted_merge_sort; apply _.
  - by apply StronglySorted_app_1_r in Hs.
  - rewrite merge_sort_Permutation.
    rewrite <- (list_filter_filter_l (fun r => x.1 < r.1) (fun r => lastID < r.1))
      by (intros y; lia).
    rewrite <- Hperm, filter_app.
    rewrite (filter_none _ (modhunt.selectBatch rows lastID batchSize)).
    + cbn. rewrite filter_all; [done|].
      intros k Hk. by eapply selectBatch_rest.
    + intros k Hk. pose proof (selectBatch_last_max _ _ _ _ _ Hlast Hk). lia.
Qed.

Lemma selectBatch_beyond rows lastID batchSize :
  exists rest, beyond rows lastID = modhunt.selectBatch rows lastID batchSize ++ rest.
Proof. apply limit_prefix. Qed.

End NextPage.

Section LookupMods.
Context `{modhunt.Versions}.

Lemma listed_app a b : listed (a ++ b) = listed a ++ listed b.
Proof. apply omap_app. Qed.

Lemma listed_batch d (batch : list (Z * string)) :
  listed ((fun r => modhunt.Listed r.2 (modhunt.latestVersion d r.1)) <$> batch)
  = (fun r => (r.2, modhunt.latestVersion d r.1)) <$> batch.
Proof. induction batch as [|r l IH]; [done|]. cbn. by rewrite <- IH. Qed.

Lemma lookupEach_spec fuel d batchSize total count lastID :
  primaryKey d ->
  (length (beyond (paths d) lastID) < fuel)%nat -> 0 <= lastID ->
  exists lines,
    modhunt.lookupEach fuel d batchSize total count lastID = (lines, modhunt.Finished)
    /\ (batchSize <> 0 ->
        listed lines
        = (fun r => (r.2, modhunt.latestVersion d r.1)) <$> beyond (paths d) lastID).
Proof.
  intros Hpk. revert count lastID.
  induction fuel as [|fuel IH]; intros count lastID Hfuel Hpos; [lia|].
  cbn [modhunt.lookupEach]. unfold modhunt.lookupBatch.
  destruct (selectBatch_beyond (paths d) lastID batchSize) as [rest Hall].
  destruct (modhunt.selectBatch (paths d) lastID batchSize) as [|first more] eqn:Hb.
  { cbn. eexists. split; [done|]. intros Hn. cbn.
    unfold modhunt.selectBatch in Hb. apply limit_nil in Hb; [|done].
    unfold beyond. by rewrite Hb. }
  rewrite <- Hb in *.
  assert (Hlast : exists x, list.last (modhunt.selectBatch (paths d) lastID batchSize) = Some x
                            /\ default first (list.last (modhunt.selectBatch (paths d) lastID batchSize)) = x).
  { destruct (list.last _) as [x|] eqn:E; [by exists x|].
    apply last_None in E. by rewrite Hb in E. }
  destruct Hlast as (x & Hlast & ->).
  pose proof (last_Some_elem_of _ _ Hlast) as Hx.
  destruct (selectBatch_elem_of _ _ _ _ Hx) as [_ Hlo].
  rewrite (proj2 (Z.eqb_neq x.1 0)) by lia.
  pose proof (next_page _ _ _ _ _ Hpk Hall Hlast) as Hnext.
  destruct (IH (wrap64 (count + batchSize)) x.1) as (lines & -> & Hlines); [|lia|].
  { rewrite Hnext. rewrite Hall, length_app, Hb in Hfuel. cbn in Hfuel. lia. }
  eexists. split; [done|]. intros Hn.
  change (listed (?l :: ?k)) with (listed k).
  rewrite listed_app, listed_batch, (Hlines Hn), Hnext, Hall. by rewrite fmap_app.
Qed.

(** X14. With batches of a size other than zero, and the loop given a turn more
    than there are paths, [lookupAllPaths] returns without an error, and what
    it has listed is every path of a positive id, once, in the order of the
    ids, each with the latest of its versions. *)
Theorem X14_lookup_lists_every_path_once fuel d batchSize :
  batchSize <> 0 -> primaryKey d -> (length (paths d) < fuel)%nat ->
  exists lines,
    modhunt.lookupAllPaths fuel d batchSize = (lines, modhunt.Finished)
    /\ listed lines
       = (fun r => (r.2, modhunt.latestVersion d r.1)) <$> beyond (paths d) 0.
Proof.
  intros Hb Hpk Hfuel. unfold modhunt.lookupAllPaths.
  destruct (lookupEach_spec fuel d batchSize (Z.of_nat (length (paths d))) 0 0 Hpk)
    as (lines & -> & Hlines); [|done|].
  { unfold beyond.
    rewrite (Permutation_length (merge_sort_Permutation _ _)).
    eapply Nat.le_lt_trans; [apply length_filter|done]. }
  eexists. split; [done|].
  change (listed ([?l] ++ ?k)) with (listed k).
  rewrite listed_app. cbn. rewrite app_nil_r. by apply Hlines.
Qed.

End LookupMods.

(** ** The progress lines *)

Section Counters.
Context `{modhunt.Versions}.

Lemma counters_app a b : counters (a ++ b) = counters a ++ counters b.
Proof. apply omap_app. Qed.

Lemma counters_batch d (batch : list (Z * string)) :
  counters ((fun r => modhunt.Listed r.2 (modhunt.latestVersion d r.1)) <$> batch) = [].
Proof. by induction batch. Qed.

Lemma batches_step m b len :
  0 < b -> 0 < len -> len = Z.min b m ->
  batches m b = batches (m - len) b + 1.
Proof.
  intros Hb Hlen ->. unfold batches.
  destruct (Z.min_spec b m) as [[Hlt ->]|[Hle ->]].
  - replace (m + b - 1) with (m - b + b - 1 + 1 * b) by lia.
    rewrite Z.div_add by lia. lia.
  - replace (m - m + b - 1) with (b - 1) by lia.
    rewrite (Z.div_small (b - 1)) by lia.
    replace (m + b - 1) with (m - 1 + 1 * b) by lia.
    rewrite Z.div_add by lia. rewrite Z.div_small; lia.
Qed.

Lemma batches_nonneg m b : 0 < b -> 0 <= m -> 0 <= batches m b.
Proof. intros. unfold batches. apply Z.div_pos; lia. Qed.

Lemma lookupEach_counters fuel d b total count lastID :
  0 < b -> primaryKey d ->
  (length (beyond (paths d) lastID) < fuel)%nat -> 0 <= lastID ->
  minInt64 <= count ->
  count + (batches (Z.of_nat (length (beyond (paths d) lastID))) b + 1) * b <= maxInt64 ->
  counters (modhunt.lookupEach fuel d b total count lastID).1
  = (fun k => count + k * b)
      <$> seqZ 0 (batches (Z.of_nat (length (beyond (paths d) lastID))) b + 1).
Proof.
  intros Hb Hpk. revert count lastID.
  induction fuel as [|fuel IH]; intros count lastID Hfuel Hpos Hlo Hhi; [lia|].
  cbn [modhunt.lookupEach]. unfold modhunt.lookupBatch.
  destruct (selectBatch_beyond (paths d) lastID b) as [rest Hall].
  assert (Hlen : length (modhunt.selectBatch (paths d) lastID b)
                 = Nat.min (Z.to_nat b) (length (beyond (paths d) lastID))).
  { unfold modhunt.selectBatch, modhunt.limit.
    rewrite (proj2 (Z.ltb_ge b 0)) by lia. apply length_take. }
  destruct (modhunt.selectBatch (paths d) lastID b) as [|first more] eqn:Hb'.
  { assert (length (beyond (paths d) lastID) = 0%nat) as ->.
    { unfold modhunt.selectBatch in Hb'. apply limit_nil in Hb'; [|lia].
      unfold beyond. by rewrite Hb'. }
    cbn. unfold batches. replace (0 + b - 1) with (b - 1) by lia.
    rewrite Z.div_small by lia. change (seqZ 0 (0 + 1)) with [0].
    cbn. f_equal. lia. }
  rewrite <- Hb' in *.
  assert (Hlast : exists x, list.last (modhunt.selectBatch (paths d) lastID b) = Some x
                            /\ default first (list.last (modhunt.selectBatch (paths d) lastID b)) = x).
  { destruct (list.last _) as [x|] eqn:E; [by exists x|].
    apply last_None in E. by rewrite Hb' in E. }
  destruct Hlast as (x & Hlast & ->).
  pose proof (last_Some_elem_of _ _ Hlast) as Hx.
  destruct (selectBatch_elem_of _ _ _ _ Hx) as [_ Hxlo].
  rewrite (proj2 (Z.eqb_neq x.1 0)) by lia.
  pose proof (next_page _ _ _ _ _ Hpk Hall Hlast) as Hnext.
  assert (Hm : length (beyond (paths d) lastID)
               = (length (modhunt.selectBatch (paths d) lastID b) + length rest)%nat).
  { by rewrite Hall at 1; rewrite length_app. }
  assert (Hpos' : (0 < length (modhunt.selectBatch (paths d) lastID b))%nat).
  { rewrite Hb'. cbn. lia. }
  set (m := Z.of_nat (length (beyond (paths d) lastID))) in *.
  set (len := Z.of_nat (length (modhunt.selectBatch (paths d) lastID b))) in *.
  assert (Hstep : batches m b = batches (Z.of_nat (length rest)) b + 1).
  { replace (Z.of_nat (length rest)) with (m - len) by lia.
    apply batches_step; lia. }
  pose proof (batches_nonneg (Z.of_nat (length rest)) b Hb ltac:(lia)) as Hnn.
  assert (Hwrap : wrap64 (count + b) = count + b).
  { apply wrap64_small. nia. }
  rewrite Hwrap.
  specialize (IH (count + b) x.1).
  rewrite Hnext in IH.
  destruct (modhunt.lookupEach fuel d b total (count + b) x.1) as [lines r] eqn:Hrun.
  cbn [fst] in *.
  change (counters (?l :: ?k)) with (match l with
                                     | modhunt.Lookup c _ | modhunt.Normalizing c _ => c :: counters k
                                     | _ => counters k
                                     end).
  cbv beta iota. rewrite counters_app, counters_batch. cbn [app].
  rewrite IH; [|lia|lia|lia|nia].
  rewrite Hstep.
  rewrite (seqZ_cons 0 (batches (Z.of_nat (length rest)) b + 1 + 1)) by lia.
  cbn [fmap list_fmap]. f_equal; [lia|].
  replace (Z.pred (batches (Z.of_nat (length rest)) b + 1 + 1))
    with (batches (Z.of_nat (length rest)) b + 1) by lia.
  change (Z.succ 0) with (1 + 0). rewrite <- fmap_add_seqZ, <- list_fmap_compose.
  apply list_fmap_ext. intros i k _. cbn. lia.
Qed.

(** X15. The progress lines of [lookupAllPaths]. With batches of [b] rows, [b]
    positive, the loop asks for one batch more than the [n] paths of a
    positive id make, and its lines count 0, [b], [2b], ...: the last line is
    printed with a count that is no less than [n]. *)
Theorem X15_lookup_progress_lines fuel d b :
  0 < b -> primaryKey d -> (length (paths d) < fuel)%nat ->
  let n := Z.of_nat (length (beyond (paths d) 0)) in
  (batches n b + 1) * b <= maxInt64 ->
  counters (modhunt.lookupAllPaths fuel d b).1
  = (fun k => k * b) <$> seqZ 0 (batches n b + 1)
  /\ n <= batches n b * b.
Proof.
  intros Hb Hpk Hfuel n Hmax. split.
  - unfold modhunt.lookupAllPaths.
    pose proof (lookupEach_counters fuel d b (Z.of_nat (length (paths d))) 0 0 Hb Hpk) as Hc.
    destruct (modhunt.lookupEach fuel d b _ 0 0) as [lines r]. cbn [fst] in Hc.
    assert (forall l, counters (modhunt.LookingUp (Z.of_nat (length (paths d))) :: l)
                      = counters l) as Hhead by done.
    assert (Hgoal : counters lines = (fun k => k * b) <$> seqZ 0 (batches n b + 1)).
    { rewrite Hc; [done| |done|unfold minInt64; lia|exact Hmax].
      unfold beyond. rewrite (Permutation_length (merge_sort_Permutation _ _)).
      eapply Nat.le_lt_trans; [apply length_filter|done]. }
    destruct r; cbn [fst app]; rewrite Hhead, ?counters_app, Hgoal; cbn;
      by rewrite ?app_nil_r.
  - unfold batches. assert (0 <= n) by lia. clearbody n.
    pose proof (Z.div_mod (n + b - 1) b ltac:(lia)).
    pose proof (Z.mod_pos_bound (n + b - 1) b Hb). nia.
Qed.

End Counters.

(** ** The latest version *)

Section Latest.
Context `{modhunt.Versions}.

Lemma selectVersions_elem_of d pathID v :
  v ∈ modhunt.selectVersions d pathID <-> is_Some (versions d !! (pathID, v)).
Proof.
  unfold modhunt.selectVersions. rewrite list_elem_of_omap. split.
  - intros ([[i ver] t] & Hin & Hsel). cbn in Hsel.
    destruct (bool_decide (i = pathID)) eqn:E; [|done].
    apply bool_decide_eq_true in E. injection Hsel as <-. subst i.
    apply elem_of_map_to_list in Hin. by eexists.
  - intros [t Ht]. exists ((pathID, v), t). split; [by apply elem_of_map_to_list|].
    cbn. by rewrite bool_decide_eq_true_2.
Qed.

(** Between two versions of different classes the class decides. *)
Lemma goVersionLess_class a b :
  modhunt.goVersionLess a b = false ->
  modhunt.classifyVersion b <= modhunt.classifyVersion a.
Proof.
  unfold modhunt.goVersionLess.
  destruct (modhunt.classifyVersion a =? modhunt.classifyVersion b) eqn:E; cbn [negb].
  - apply Z.eqb_eq in E. lia.
  - intros Hlt%Z.ltb_ge. done.
Qed.

(** X19. The version [lookup-mods] shows beside a path, when [sort.Slice]
    has sorted the versions of the path by [goVersionLess]: it is a version
    of the path, and no version of the path is of a higher class. The classes
    rise from the releases over the pre-releases and the pseudo-versions to
    the versions that are not valid, so a release is shown only for a path
    that has nothing but releases. *)
Theorem X19_latest_version_is_of_the_highest_class d pathID v :
  sortedBy modhunt.goVersionLess (modhunt.selectVersions d pathID)
           (modhunt.Slice (modhunt.selectVersions d pathID) modhunt.goVersionLess) ->
  is_Some (versions d !! (pathID, v)) ->
  is_Some (versions d !! (pathID, modhunt.latestVersion d pathID))
  /\ modhunt.classifyVersion v
     <= modhunt.classifyVersion (modhunt.latestVersion d pathID)
  /\ (modhunt.classifyVersion (modhunt.latestVersion d pathID) = modhunt.vtStable ->
      forall u, is_Some (versions d !! (pathID, u)) ->
                modhunt.IsValid u = true
                /\ modhunt.IsPseudoVersion u = false
                /\ modhunt.Prerelease u = "").
Proof.
  intros [Hperm Hsorted] Hv%selectVersions_elem_of. unfold modhunt.latestVersion.
  set (vs := modhunt.selectVersions d pathID) in *.
  set (out := modhunt.Slice vs modhunt.goVersionLess) in *.
  assert (Hin : v ∈ out) by by rewrite Hperm.
  destruct (list.last out) as [x|] eqn:Hlast.
  2:{ apply last_None in Hlast. rewrite Hlast in Hin. by apply elem_of_nil in Hin. }
  change (default "" (Some x)) with x.
  assert (Hmax : forall u, u ∈ out ->
            modhunt.classifyVersion u <= modhunt.classifyVersion x).
  { apply last_Some in Hlast as [l' Hout]. rewrite Hout in Hsorted.
    intros u Hu. rewrite Hout in Hu.
    apply elem_of_app in Hu as [Hu| ->%list_elem_of_singleton]; [|lia].
    apply goVersionLess_class.
    apply (StronglySorted_app_1_elem_of _ _ _ u x Hsorted Hu). by left. }
  split; [|split].
  - apply selectVersions_elem_of. fold vs. rewrite <- Hperm.
    by apply last_Some_elem_of.
  - by apply Hmax.
  - intros Hstable u Hu%selectVersions_elem_of. fold vs in Hu.
    rewrite <- Hperm in Hu. specialize (Hmax u Hu). rewrite Hstable in Hmax.
    revert Hmax. unfold modhunt.classifyVersion, modhunt.vtStable, modhunt.vtInvalid,
      modhunt.vtPseudo, modhunt.vtPrerelease.
    destruct (modhunt.IsValid u); cbn [negb]; [|lia].
    destruct (modhunt.IsPseudoVersion u); [lia|].
    destruct (bool_decide (modhunt.Prerelease u = "")) eqn:E; cbn [negb]; [|lia].
    apply bool_decide_eq_true in E. done.
Qed.

End Latest.

(** A path with the release [v1.2.0] and a pseudo-version of an earlier
    commit is shown with the pseudo-version. *)
Remark latest_is_not_the_release :
  modhunt.latestVersion (H := demo.versions) demo.tagged 1
  = "v0.0.0-20190101000000-0123456789ab".
Proof. vm_compute. reflexivity. Qed.

(** ** From the index to its modules *)

Section Positive.

Lemma nextID_positive d : positiveIDs d -> 0 < nextID d.
Proof.
  unfold positiveIDs, nextID. intros Hall.
  destruct (paths d) as [|[a p] l]; cbn; [lia|].
  apply Forall_cons in Hall as [Ha _]. cbn in Ha.
  assert (a <= foldr Z.max a l.*1) by (apply foldr_max_le; by left). lia.
Qed.

Lemma positiveIDs_resolvePath d p d' id :
  positiveIDs d -> resolvePath d p = Some (d', id) -> positiveIDs d'.
Proof.
  intros Hpos. unfold resolvePath. destruct (selectPathID d p) as [i|] eqn:E.
  - by intros [= <- <-].
  - rewrite (selectPathID_None_insertPath _ _ E). intros [= <- <-].
    unfold positiveIDs. cbn. apply Forall_app. split; [done|].
    apply Forall_singleton. cbn. by apply nextID_positive.
Qed.

End Positive.

Section Pipeline.
Context `{Lib} `{strings.Lib}.

(** X16. The two commands in a row. A store with the constraints of the schema
    and positive ids is left so by a run of either engine, whatever the
    server answers; [normalize-index], started on that store with the
    column [module_id] added, then gives every path the engine wrote, and
    every path that was there, its module. *)
Theorem X16_index_then_normalize w start fuel fuel' d batchSize s :
  wellFormed d -> positiveIDs d -> batchSize <> 0 ->
  s = store (modindex.SynchronizeDatabase w start fuel d)
  \/ s = store (indexcmd.updateCmd w start fuel d) ->
  (length (paths s) < fuel')%nat ->
  exists lines d',
    modhunt.processAllRecords fuel' (modhunt.addColumn s) batchSize
    = (lines, d', modhunt.Finished)
    /\ forall id p, (id, p) ∈ paths s ->
         exists m, (id, p, Some m) ∈ modhunt.paths d'
                   /\ (m, modhunt.normalizeModuleName p) ∈ modhunt.modules d'.
Proof.
  intros Hwf Hpos Hb Hs Hfuel.
  assert (Hs' : wellFormed s /\ positiveIDs s).
  { destruct (kept_runs wellFormed wellFormed_resolvePath
                (fun d0 id ver t => wellFormed_insert d0 id ver t) w start fuel d Hwf)
      as [W1 W2].
    destruct (kept_runs positiveIDs positiveIDs_resolvePath
                (fun d0 id ver t Hd _ => Hd) w start fuel d Hpos) as [P1 P2].
    by destruct Hs as [-> | ->]. }
  destruct Hs' as [(Hpk & _ & _) Hpos'].
  assert (Hkeys : (modhunt.paths (modhunt.addColumn s)).*1 = paths s).
  { cbn. rewrite <- list_fmap_compose. apply list_fmap_id. }
  destruct (processAllRecords_spec fuel' (modhunt.addColumn s) batchSize)
    as (lines & d' & Hrun & Hk & Hnorm & _); [done| |cbn; by rewrite length_fmap|].
  { unfold pathKey. by rewrite Hkeys. }
  exists lines, d'. split; [done|]. intros id p Hin.
  rewrite <- Hkeys, <- Hk in Hin.
  apply list_elem_of_fmap in Hin as ([k o] & Hk1 & Hr). cbn in Hk1. subst k.
  destruct (Hnorm _ Hr) as (m & Hm & Hmod).
  - cbn. unfold positiveIDs in Hpos'. rewrite Forall_forall in Hpos'.
    apply (Hpos' (id, p)). rewrite <- Hkeys, <- Hk.
    apply list_elem_of_fmap. by exists (id, p, o).
  - cbn in Hm, Hmod. subst o. by exists m.
Qed.

End Pipeline.

(** ** The name of a module *)

Section Names.

Lemma HasPrefix_split s p :
  strings.HasPrefix s p = true -> s = p +:+ strings.from (String.length p) s.
Proof.
  revert s. induction p as [|b p IH]; intros s; [done|].
  destruct s as [|a s]; [done|]. cbn [strings.HasPrefix String.length strings.from].
  destruct (Ascii.eqb a b) eqn:E; [|done]. apply Ascii.eqb_eq in E as ->.
  cbn [andb]. intros Hp. rewrite append_cons. by rewrite <- (IH s Hp).
Qed.

Lemma lower_lower c : ASCII.lower (ASCII.lower c) = ASCII.lower c.
Proof. destruct c as [[] [] [] [] [] [] [] []]; reflexivity. Qed.

Lemma ToLower_ToLower s : ASCII.ToLower (ASCII.ToLower s) = ASCII.ToLower s.
Proof. induction s as [|c s IH]; [done|]. cbn. by rewrite lower_lower, IH. Qed.

Lemma lower_isASCII c :
  (N_of_ascii c <? 128)%N = true -> (N_of_ascii (ASCII.lower c) <? 128)%N = true.
Proof. destruct c as [[] [] [] [] [] [] [] []]; cbn; done. Qed.

Lemma ToLower_isASCII s : ASCII.isASCII s = true -> ASCII.isASCII (ASCII.ToLower s) = true.
Proof.
  induction s as [|c s IH]; [done|]. cbn.
  intros [Hc Hs]%andb_true_iff. by rewrite lower_isASCII, IH.
Qed.

Lemma lower_noUpper c :
  negb ((65 <=? N_of_ascii (ASCII.lower c)) && (N_of_ascii (ASCII.lower c) <=? 90))%N = true.
Proof. destruct c as [[] [] [] [] [] [] [] []]; reflexivity. Qed.

Lemma ToLower_noUpper s : noUpper (ASCII.ToLower s) = true.
Proof. induction s as [|c s IH]; [done|]. cbn [ASCII.ToLower noUpper]. by rewrite lower_noUpper, IH. Qed.

Lemma from_4 a b c d s : strings.from 4 (String a (String b (String c (String d s)))) = s.
Proof. done. Qed.

End Names.

(** X17. [normalizeModuleName] is [modname.Canonicalize]: the branch of
    [gopkg.in/] changes nothing. *)
Theorem X17_normalizeModuleName_is_Canonicalize `{strings.Lib} s :
  modhunt.normalizeModuleName s = modname.Canonicalize s.
Proof.
  unfold modhunt.normalizeModuleName, modname.Canonicalize.
  destruct (strings.HasPrefix (strings.ToLower s) "www.github.com/"); [done|].
  by destruct (strings.HasPrefix s "gopkg.in/").
Qed.

Lemma normalizeModuleName_ascii s :
  let n := modhunt.normalizeModuleName (H := ASCII.lib) s in
  modhunt.normalizeModuleName (H := ASCII.lib) n = n
  /\ strings.HasPrefix n "www.github.com/" = false
  /\ noUpper n = true
  /\ (ASCII.isASCII s = true -> ASCII.isASCII n = true).
Proof.
  cbn zeta. remember (modhunt.normalizeModuleName (H := ASCII.lib) s) as n eqn:Hn.
  unfold modhunt.normalizeModuleName in Hn.
  change (strings.ToLower s) with (ASCII.ToLower s) in Hn.
  pose proof (ToLower_ToLower s) as Hidem.
  pose proof (ToLower_noUpper s) as Hno.
  pose proof (ToLower_isASCII s) as Hasc.
  destruct (strings.HasPrefix (ASCII.ToLower s) "www.github.com/") eqn:Hp.
  - apply HasPrefix_split in Hp. revert Hp.
    generalize (strings.from (String.length "www.github.com/") (ASCII.ToLower s)).
    intros r Hr. rewrite !append_cons, append_nil in Hr.
    rewrite Hr in *. unfold strings.TrimPrefix in Hn.
    cbn [strings.HasPrefix Ascii.eqb Bool.eqb andb String.length strings.from] in Hn.
    cbn [ASCII.ToLower] in Hidem.
    apply (f_equal (strings.from 4)) in Hidem. cbn [strings.from] in Hidem.
    assert (Hidem' : ASCII.ToLower n = n) by (subst n; exact Hidem).
    unfold modhunt.normalizeModuleName.
    change (strings.ToLower n) with (ASCII.ToLower n). rewrite Hidem'.
    assert (Hnp : strings.HasPrefix n "www.github.com/" = false) by by subst n.
    rewrite Hnp. split; [by destruct (strings.HasPrefix n "gopkg.in/")|].
    split; [done|]. split.
    + cbn [noUpper] in Hno. repeat (apply andb_true_iff in Hno as [_ Hno]).
      subst n. cbn [noUpper]. by rewrite Hno.
    + intros Hs. specialize (Hasc Hs). cbn [ASCII.isASCII] in Hasc.
      repeat (apply andb_true_iff in Hasc as [_ Hasc]).
      subst n. cbn [ASCII.isASCII]. by rewrite Hasc.
  - assert (Hn' : n = ASCII.ToLower s).
    { rewrite Hn. by destruct (strings.HasPrefix s "gopkg.in/"). }
    clear Hn. subst n. unfold modhunt.normalizeModuleName.
    change (strings.ToLower ?x) with (ASCII.ToLower x).
    rewrite Hidem, Hp.
    split; [by destruct (strings.HasPrefix (ASCII.ToLower s) "gopkg.in/")|].
    done.
Qed.

(** X18. The name of a path of ASCII bytes, as module paths are.
    Normalizing a name gives the name, so the module of a path is the module
    of its name; a name has no upper-case letter, does not start with
    [www.github.com/], and is a string of ASCII bytes. *)
Theorem X18_normalizeModuleName_canonical s :
  ASCII.isASCII s = true ->
  let n := modhunt.normalizeModuleName (H := ASCII.lib) s in
  modhunt.normalizeModuleName (H := ASCII.lib) n = n
  /\ strings.HasPrefix n "www.github.com/" = false
  /\ noUpper n = true
  /\ ASCII.isASCII n = true.
Proof.
  intros Hs. destruct (normalizeModuleName_ascii s) as (H1 & H2 & H3 & H4).
  cbn zeta. auto.
Qed.

(** ** The properties at sample data *)

Lemma wellFormed_empty : wellFormed sqlite.empty.
Proof.
  split; [apply NoDup_nil_2|]. split; [apply NoDup_nil_2|].
  intros id ver [t Ht]. cbn in Ht. by rewrite lookup_empty in Ht.
Qed.

Lemma wellFormed_storeA : wellFormed sample.storeA.
Proof.
  split; [apply NoDup_singleton|]. split; [apply NoDup_singleton|].
  intros id ver [t Ht]. unfold sample.storeA in Ht. cbn in Ht.
  apply lookup_singleton_Some in Ht as [[= <- <-] _]. by eexists.
Qed.

Lemma C5_witness :
  let w := sample.always [sample.recB; sample.recC] in
  let line := "BUG: index: expected list to start with "
              +:+ "example.com/a@v1.0.0@2019-04-10T19:08:52.997264Z"
              +:+ " but got "
              +:+ "example.com/a@v1.1.0@2019-04-10T19:09:00Z" +:+ nl in
  cursorSet (last sample.atA)
  /\ sameRecord sample.recB (last sample.atA) = false
  /\ GetVersions w 0 (Timestamp (last sample.atA)) 2000 = Some [sample.recB; sample.recC]
  /\ wellFormed (committed (conn sample.atA))
  /\ observable (modindex.iteration (H := rfc3339.lib) w sample.start 0 sample.atA).1
     = [EvFetch sample.t1 2000; EvStderr line; EvInsert [sample.recB; sample.recC]]
  /\ (exists st', (modindex.iteration (H := rfc3339.lib) w sample.start 0 sample.atA).2
                  = Continue st' /\ last st' = sample.recC)
  /\ (exists st', (indexcmd.iteration (H := rfc3339.lib) w sample.start 0 sample.atA).2
                  = Continue st' /\ last st' = sample.recC).
Proof.
  intros w line.
  assert (Hset : cursorSet (last sample.atA)) by reflexivity.
  assert (Hdiff : sameRecord sample.recB (last sample.atA) = false) by reflexivity.
  assert (Hget : GetVersions w 0 (Timestamp (last sample.atA)) 2000
                 = Some [sample.recB; sample.recC]) by reflexivity.
  assert (Hwf : wellFormed (committed (conn sample.atA))) by apply wellFormed_storeA.
  assert (Hfresh : (forall u, u ∈ [sample.recB; sample.recC] ->
                              ~ keyTaken (committed (conn sample.atA)) u)
                   /\ NoDup (pairOf <$> [sample.recB; sample.recC])).
  { split.
    - intros u Hu (id & Hid & Hrow).
      apply elem_of_cons in Hu as [->|Hu]; [|apply list_elem_of_singleton in Hu as ->].
      + vm_compute in Hid. injection Hid as <-. vm_compute in Hrow. by destruct Hrow.
      + vm_compute in Hid. discriminate.
    - apply (bool_decide_unpack _). vm_compute. exact I. }
  split; [exact Hset|]. split; [exact Hdiff|]. split; [exact Hget|]. split; [exact Hwf|].
  destruct (C5_protocol_violation_reported (H := rfc3339.lib) w sample.start 0
              sample.atA sample.recB [sample.recC] Hset Hdiff Hget Hwf)
    as (Hobs & _ & Hinline & Hgo & _).
  split; [exact Hobs|]. split; [exact (Hgo Hfresh)|exact Hinline].
Defined.

Lemma answersRepresentable_scripted script :
  Forall (Forall (fun v => representable (Timestamp v))) script ->
  answersRepresentable (sample.scripted script).
Proof.
  intros Hall n since limit vs [= <-].
  destruct (script !! n) as [vs|] eqn:E; cbn; [|constructor].
  rewrite Forall_forall in Hall. apply Hall. by eapply list_elem_of_lookup_2.
Qed.

Lemma answersWithin_scripted script lo hi :
  Forall (Forall (fun v => lo <= nanoseconds (Timestamp v) <= hi)) script ->
  answersWithin (sample.scripted script) lo hi.
Proof.
  intros Hall n since limit vs [= <-].
  destruct (script !! n) as [vs|] eqn:E; cbn; [|constructor].
  rewrite Forall_forall in Hall. apply Hall. by eapply list_elem_of_lookup_2.
Qed.

Lemma X1_witness :
  wellFormed sample.storeA
  /\ wellFormed (store (modindex.SynchronizeDatabase (H := rfc3339.lib)
                          (served sample.clock sample.log) sample.start 5 sample.storeA))
  /\ wellFormed (store (indexcmd.updateCmd (H := rfc3339.lib)
                          (served sample.clock sample.log) sample.start 5 sample.storeA)).
Proof.
  assert (Hwf : wellFormed sample.storeA) by apply wellFormed_storeA.
  split; [exact Hwf|].
  exact (X1_engines_keep_constraints (H := rfc3339.lib)
           (served sample.clock sample.log) sample.start 5 sample.storeA Hwf).
Defined.

Lemma X2_witness :
  wellFormed sample.storeA
  /\ ((modindex.insertVersions (H := rfc3339.lib) (Open sample.storeA)
         [sample.recB; sample.recC]).2 = None
      <-> (forall v, v ∈ [sample.recB; sample.recC] -> ~ keyTaken sample.storeA v)
          /\ NoDup (pairOf <$> [sample.recB; sample.recC])).
Proof.
  assert (Hwf : wellFormed sample.storeA) by apply wellFormed_storeA.
  split; [exact Hwf|].
  exact (X2_insertVersions_commits_iff (H := rfc3339.lib) sample.storeA
           [sample.recB; sample.recC] Hwf).
Defined.

Lemma X3_witness :
  let c' := (modindex.insertVersions (H := rfc3339.lib) (Open sample.storeA)
               [sample.recB; sample.recC]).1 in
  modindex.insertVersions (H := rfc3339.lib) (Open sample.storeA)
    [sample.recB; sample.recC] = (c', None)
  /\ pending c' = None
  /\ (forall v, v ∈ [sample.recB; sample.recC] -> stored (H := rfc3339.lib) (Close c') v)
  /\ (forall k t, versions (committed (Open sample.storeA)) !! k = Some t ->
                  versions (Close c') !! k = Some t)
  /\ paths (committed (Open sample.storeA)) `prefix_of` paths (Close c')
  /\ size (versions (Close c'))
     = (size (versions (committed (Open sample.storeA))) + length [sample.recB; sample.recC])%nat.
Proof.
  intros c'.
  assert (Hins : modindex.insertVersions (H := rfc3339.lib) (Open sample.storeA)
                   [sample.recB; sample.recC] = (c', None)) by (vm_compute; reflexivity).
  split; [exact Hins|].
  exact (X3_insertVersions_commit_effect (H := rfc3339.lib) (Open sample.storeA)
           [sample.recB; sample.recC] c' Hins).
Defined.

Lemma X5_witness :
  let r := modindex.SynchronizeDatabase (H := rfc3339.lib)
             (sample.scripted [[sample.recA; sample.recB];
                               [sample.recB; sample.recC]; [sample.recC]])
             sample.start 5 sqlite.empty in
  exit r <> Failed ErrInsertVersion
  /\ size (versions (store r))
     = (size (versions sqlite.empty) + records (inserts (events r)))%nat
  /\ (forall v, stored (H := rfc3339.lib) sqlite.empty v -> stored (H := rfc3339.lib) (store r) v)
  /\ (forall batch v, batch ∈ inserts (events r) -> v ∈ batch ->
                      stored (H := rfc3339.lib) (store r) v).
Proof.
  intros r.
  assert (Hexit : exit r <> Failed ErrInsertVersion) by (vm_compute; discriminate).
  split; [exact Hexit|].
  exact (X5_run_accounts_for_every_record (H := rfc3339.lib)
           (sample.scripted [[sample.recA; sample.recB];
                             [sample.recB; sample.recC]; [sample.recC]])
           sample.start 5 sqlite.empty Hexit).
Defined.

Lemma X6_witness :
  let w := sample.scripted [[sample.recA; sample.recB];
                            [sample.recB; sample.recC]; [sample.recC]] in
  let r := modindex.SynchronizeDatabase (H := rfc3339.lib) w sample.start 5 sqlite.empty in
  let r' := indexcmd.updateCmd (H := rfc3339.lib) w sample.start 5 sqlite.empty in
  parseable (H := rfc3339.lib) sqlite.empty
  /\ answersRepresentable w
  /\ parseable (H := rfc3339.lib) (store r)
  /\ parseable (H := rfc3339.lib) (store r')
  /\ (modindex.lastVersionInfo (H := rfc3339.lib) (store r)).2 = None
  /\ (indexcmd.lastRow (H := rfc3339.lib) (store r')).2 = None.
Proof.
  intros w r r'.
  assert (Hp : parseable (H := rfc3339.lib) sqlite.empty).
  { intros k t Hk. cbn in Hk. by rewrite lookup_empty in Hk. }
  assert (Hw : answersRepresentable w).
  { apply answersRepresentable_scripted.
    repeat constructor; vm_compute; congruence. }
  split; [exact Hp|]. split; [exact Hw|].
  exact (X6_written_store_is_readable w sample.start 5 sqlite.empty Hp Hw).
Defined.

Lemma X7_witness :
  modindex.lastVersionInfo (H := rfc3339.lib) sample.storeA = (sample.recA, None)
  /\ indexcmd.lastRow (H := rfc3339.lib) sample.storeA = (sample.recA, None)
  /\ ((joined sample.storeA = [] /\ sample.recA = zeroInfo)
      \/ exists text,
           (Path sample.recA, Version sample.recA, text) ∈ joined sample.storeA
           /\ rfc3339.Parse text = Some (Timestamp sample.recA)
           /\ forall r, r ∈ joined sample.storeA -> String.ltb text r.2 = false).
Proof.
  assert (Hcur : modindex.lastVersionInfo (H := rfc3339.lib) sample.storeA
                 = (sample.recA, None)) by (vm_compute; reflexivity).
  split; [exact Hcur|].
  exact (X7_lastVersionInfo_reads_largest_text (H := rfc3339.lib)
           sample.storeA sample.recA Hcur).
Defined.

Lemma X8_witness :
  let r := modindex.SynchronizeDatabase (H := rfc3339.lib)
             (sample.scripted [[sample.recA; sample.recB]; [sample.recB; sample.recC]])
             sample.start 5 sample.storeA in
  modindex.lastVersionInfo (H := rfc3339.lib) sample.storeA = (sample.recA, None)
  /\ fetches (events r)
       `prefix_of` Timestamp sample.recA :: endsOf (inserts (events r))
  /\ (length (inserts (events r)) <= length (fetches (events r)))%nat.
Proof.
  intros r.
  assert (Hcur : modindex.lastVersionInfo (H := rfc3339.lib) sample.storeA
                 = (sample.recA, None)) by (vm_compute; reflexivity).
  split; [exact Hcur|].
  exact (X8_requests_follow_writes (H := rfc3339.lib)
           (sample.scripted [[sample.recA; sample.recB]; [sample.recB; sample.recC]])
           sample.start 5 sample.storeA sample.recA Hcur).
Defined.

Lemma X9_witness :
  let w := sample.scripted [[sample.recA; sample.recB];
                            [sample.recB; sample.recC]; [sample.recC]] in
  let lo := nanoseconds sample.t1 in
  let hi := nanoseconds sample.t3 in
  let r := modindex.SynchronizeDatabase (H := rfc3339.lib) w sample.start 5 sqlite.empty in
  answersTimed w
  /\ answersWithin w lo hi
  /\ hi - lo <= maxInt64
  /\ modindex.lastVersionInfo (H := rfc3339.lib) sqlite.empty = (zeroInfo, None)
  /\ Forall (fun rep => HoursDone rep
                        = rfc3339.Hours (nanoseconds (Current rep)
                                         - nanoseconds (Timestamp sample.recA)))
            (reports (events r)).
Proof.
  intros w lo hi r.
  assert (Ht : answersTimed w).
  { apply answersTimed_scripted. repeat constructor. }
  assert (Hw : answersWithin w lo hi).
  { apply answersWithin_scripted. repeat constructor; vm_compute; congruence. }
  assert (Hwidth : hi - lo <= maxInt64) by (vm_compute; congruence).
  assert (Hcur : modindex.lastVersionInfo (H := rfc3339.lib) sqlite.empty
                 = (zeroInfo, None)) by (vm_compute; reflexivity).
  assert (Hin : cursorSet zeroInfo -> lo <= nanoseconds (Timestamp zeroInfo) <= hi).
  { intros Hset. vm_compute in Hset. discriminate. }
  split; [exact Ht|]. split; [exact Hw|]. split; [exact Hwidth|]. split; [exact Hcur|].
  exact (X9_hours_done_is_the_span_covered (H := rfc3339.lib) w sample.start 5
           sqlite.empty zeroInfo lo hi Ht Hw Hwidth Hcur Hin).
Defined.

Lemma X10_witness :
  let r := modindex.SynchronizeDatabase (H := rfc3339.lib)
             (served sample.clock sample.log) sample.start 5 sqlite.empty in
  let r' := indexcmd.updateCmd (H := rfc3339.lib)
              (served sample.clock sample.log) sample.start 5 sqlite.empty in
  inUTC sample.log
  /\ strictlySorted sample.log
  /\ afterZero sample.log
  /\ NoDup (pairOf <$> sample.log)
  /\ (length sample.log < 5)%nat
  /\ exit r = Done
  /\ mjoin (inserts (events r)) = sample.log
  /\ (forall v, v ∈ sample.log -> stored (H := rfc3339.lib) (store r) v)
  /\ size (versions (store r)) = length sample.log
  /\ exit r' = Done
  /\ store r' = store r.
Proof.
  intros r r'.
  assert (Hutc : inUTC sample.log) by (repeat constructor).
  assert (Hs : strictlySorted sample.log).
  { unfold strictlySorted, sample.log. repeat constructor. }
  assert (Hz : afterZero sample.log) by (repeat constructor).
  assert (Hp : NoDup (pairOf <$> sample.log)).
  { apply (bool_decide_unpack _). vm_compute. exact I. }
  assert (Hfuel : (length sample.log < 5)%nat) by (cbn; lia).
  split; [exact Hutc|].
  split; [exact Hs|]. split; [exact Hz|]. split; [exact Hp|]. split; [exact Hfuel|].
  exact (X10_honest_feed_is_mirrored (H := rfc3339.lib) sample.clock sample.log
           sample.start 5 Hutc Hs Hz Hp Hfuel).
Defined.

Lemma X12_witness :
  (2 : Z) <> 0
  /\ pathKey demo.table
  /\ (length (modhunt.paths demo.table) < 5)%nat
  /\ exists lines d',
       modhunt.processAllRecords (H := ASCII.lib) 5 demo.table 2
       = (lines, d', modhunt.Finished)
       /\ (modhunt.paths d').*1 = (modhunt.paths demo.table).*1
       /\ (forall r, r ∈ modhunt.paths d' -> 0 < r.1.1 -> normalized (H := ASCII.lib) d' r)
       /\ (forall r, r ∈ modhunt.paths d' -> r.1.1 <= 0 -> r ∈ modhunt.paths demo.table)
       /\ allReferenced d'
       /\ (moduleKeys demo.table -> moduleKeys d').
Proof.
  assert (Hb : (2 : Z) <> 0) by lia.
  assert (Hpk : pathKey demo.table).
  { apply (bool_decide_unpack _). vm_compute. exact I. }
  assert (Hfuel : (length (modhunt.paths demo.table) < 5)%nat) by (cbn; lia).
  split; [exact Hb|]. split; [exact Hpk|]. split; [exact Hfuel|].
  exact (X12_normalize_covers_every_path (H := ASCII.lib) 5 demo.table 2 Hb Hpk Hfuel).
Defined.

Lemma X13_witness :
  let d1 := (modhunt.processAllRecords (H := ASCII.lib) 5 demo.table 2).1.2 in
  (2 : Z) <> 0
  /\ pathKey demo.table
  /\ moduleKeys demo.table
  /\ (length (modhunt.paths demo.table) < 5)%nat
  /\ exists lines,
       modhunt.processAllRecords (H := ASCII.lib) 5 d1 3
       = (lines ++ [modhunt.Deleted 0], d1, modhunt.Finished).
Proof.
  intros d1.
  assert (Hb : (2 : Z) <> 0) by lia.
  assert (Hpk : pathKey demo.table).
  { apply (bool_decide_unpack _). vm_compute. exact I. }
  assert (Hmk : moduleKeys demo.table) by (split; apply NoDup_nil_2).
  assert (Hfuel : (length (modhunt.paths demo.table) < 5)%nat) by (cbn; lia).
  split; [exact Hb|]. split; [exact Hpk|]. split; [exact Hmk|]. split; [exact Hfuel|].
  exact (X13_normalize_twice_is_once (H := ASCII.lib) 5 5 demo.table 2 3
           Hb Hpk Hmk Hfuel Hfuel).
Defined.

Lemma X14_witness :
  (1 : Z) <> 0
  /\ primaryKey demo.mirror
  /\ (length (paths demo.mirror) < 3)%nat
  /\ exists lines,
       modhunt.lookupAllPaths (H := demo.versions) 3 demo.mirror 1
       = (lines, modhunt.Finished)
       /\ listed lines
          = (fun r => (r.2, modhunt.latestVersion (H := demo.versions) demo.mirror r.1))
              <$> beyond (paths demo.mirror) 0.
Proof.
  assert (Hb : (1 : Z) <> 0) by lia.
  assert (Hpk : primaryKey demo.mirror).
  { apply (bool_decide_unpack _). vm_compute. exact I. }
  assert (Hfuel : (length (paths demo.mirror) < 3)%nat) by (cbn; lia).
  split; [exact Hb|]. split; [exact Hpk|]. split; [exact Hfuel|].
  exact (X14_lookup_lists_every_path_once (H := demo.versions) 3 demo.mirror 1
           Hb Hpk Hfuel).
Defined.

Lemma X15_witness :
  let n := Z.of_nat (length (beyond (paths demo.mirror) 0)) in
  0 < 1
  /\ primaryKey demo.mirror
  /\ (length (paths demo.mirror) < 4)%nat
  /\ (batches n 1 + 1) * 1 <= maxInt64
  /\ counters (modhunt.lookupAllPaths (H := demo.versions) 4 demo.mirror 1).1
     = (fun k => k * 1) <$> seqZ 0 (batches n 1 + 1)
  /\ n <= batches n 1 * 1.
Proof.
  intros n.
  assert (Hb : 0 < 1) by lia.
  assert (Hpk : primaryKey demo.mirror).
  { apply (bool_decide_unpack _). vm_compute. exact I. }
  assert (Hfuel : (length (paths demo.mirror) < 4)%nat) by (cbn; lia).
  assert (Hmax : (batches n 1 + 1) * 1 <= maxInt64) by (vm_compute; congruence).
  split; [exact Hb|]. split; [exact Hpk|]. split; [exact Hfuel|]. split; [exact Hmax|].
  exact (X15_lookup_progress_lines (H := demo.versions) 4 demo.mirror 1
           Hb Hpk Hfuel Hmax).
Defined.

Lemma X16_witness :
  let w := sample.scripted [[sample.recA; sample.recB];
                            [sample.recB; sample.recC]; [sample.recC]] in
  let s := store (modindex.SynchronizeDatabase (H := rfc3339.lib) w sample.start 5
                    sqlite.empty) in
  wellFormed sqlite.empty
  /\ positiveIDs sqlite.empty
  /\ (2 : Z) <> 0
  /\ (length (paths s) < 5)%nat
  /\ exists lines d',
       modhunt.processAllRecords (H := ASCII.lib) 5 (modhunt.addColumn s) 2
       = (lines, d', modhunt.Finished)
       /\ forall id p, (id, p) ∈ paths s ->
            exists m, (id, p, Some m) ∈ modhunt.paths d'
                      /\ (m, modhunt.normalizeModuleName (H := ASCII.lib) p)
                         ∈ modhunt.modules d'.
Proof.
  intros w s.
  assert (Hwf : wellFormed sqlite.empty) by apply wellFormed_empty.
  assert (Hpos : positiveIDs sqlite.empty) by constructor.
  assert (Hb : (2 : Z) <> 0) by lia.
  assert (Hfuel : (length (paths s) < 5)%nat) by (vm_compute; lia).
  split; [exact Hwf|]. split; [exact Hpos|]. split; [exact Hb|]. split; [exact Hfuel|].
  exact (X16_index_then_normalize (H := rfc3339.lib) (H0 := ASCII.lib) w sample.start 5 5
           sqlite.empty 2 s Hwf Hpos Hb (or_introl eq_refl) Hfuel).
Defined.

Lemma X18_witness :
  let n := modhunt.normalizeModuleName (H := ASCII.lib) "www.GitHub.com/Foo/Bar" in
  ASCII.isASCII "www.GitHub.com/Foo/Bar" = true
  /\ modhunt.normalizeModuleName (H := ASCII.lib) n = n
  /\ strings.HasPrefix n "www.github.com/" = false
  /\ noUpper n = true
  /\ ASCII.isASCII n = true.
Proof.
  intros n.
  assert (Hs : ASCII.isASCII "www.GitHub.com/Foo/Bar" = true) by reflexivity.
  split; [exact Hs|].
  exact (X18_normalizeModuleName_canonical "www.GitHub.com/Foo/Bar" Hs).
Defined.

Lemma X19_witness :
  let latest := modhunt.latestVersion (H := demo.versions) demo.tagged 1 in
  sortedBy (modhunt.goVersionLess (H := demo.versions))
    (modhunt.selectVersions demo.tagged 1)
    (modhunt.Slice (Versions := demo.versions) (modhunt.selectVersions demo.tagged 1)
       (modhunt.goVersionLess (H := demo.versions)))
  /\ is_Some (versions demo.tagged !! (1, "v1.2.0"))
  /\ is_Some (versions demo.tagged !! (1, latest))
  /\ modhunt.classifyVersion (H := demo.versions) "v1.2.0"
     <= modhunt.classifyVersion (H := demo.versions) latest
  /\ (modhunt.classifyVersion (H := demo.versions) latest = modhunt.vtStable ->
      forall u, is_Some (versions demo.tagged !! (1, u)) ->
                modhunt.IsValid (Versions := demo.versions) u = true
                /\ modhunt.IsPseudoVersion (Versions := demo.versions) u = false
                /\ modhunt.Prerelease (Versions := demo.versions) u = EmptyString).
Proof.
  intros latest.
  assert (Hs : sortedBy (modhunt.goVersionLess (H := demo.versions))
                 (modhunt.selectVersions demo.tagged 1)
                 (modhunt.Slice (Versions := demo.versions)
                    (modhunt.selectVersions demo.tagged 1)
                    (modhunt.goVersionLess (H := demo.versions)))).
  { split; [apply merge_sort_Permutation|].
    vm_compute. repeat constructor. }
  assert (Hv : is_Some (versions demo.tagged !! (1, "v1.2.0"))).
  { vm_compute. by eexists. }
  split; [exact Hs|]. split; [exact Hv|].
  exact (X19_latest_version_is_of_the_highest_class (H := demo.versions)
           demo.tagged 1 "v1.2.0" Hs Hv).
Defined.
